(** * ton-benchmark-analyzer: the decode-and-aggregate engine of [web/app.js]

    A shallow embedding of the pure core of the report page: the percentile
    estimator, the payload decoder with its block grouper, the
    cross-experiment union builder, the window/filter aggregator and the
    best-value selection of the summary table.

    Conventions of the embedding.
    - A JavaScript number is an exact rational ([Q]); [NaN] and the
      infinities are represented only where the code tests for them
      ([option]).  Comparisons are the semantic ones ([Qle_bool], [Qlt]).
      The program computes in binary floating point, where sums,
      differences, products and quotients are rounded.  Where rounding
      matters a statement is therefore put in terms of comparisons, minima
      and maxima, counts, and of values as the expressions the code
      computes them by, not of algebraic consequences of those
      expressions.
    - [undefined]/[null] are [None] of an [option].
    - A JavaScript [Map], and an object used as a dictionary with keys that
      are not integer-like, is an association list in insertion order with
      unique keys.  An object literal filled by [o[k] = v] does not store
      the key ["__proto__"] ([objSet]); the decoder's category keys have
      the form [type__origin] with both parts non-empty and cannot be that
      name or any other name of [Object.prototype].
    - [Array.prototype.sort] is stable; with a consistent comparator its
      result is the unique stable sorted arrangement, here computed by
      insertion. *)

From Stdlib Require Import Strings.String Strings.Ascii.
From Stdlib Require Import List Bool Arith ZArith QArith Qround.
From Stdlib Require Import Sorting.Sorted Sorting.Permutation.
From Stdlib Require Import Lia Lqa.
Import ListNotations.

Local Open Scope Q_scope.

(** ** Stable sorting, as [Array.prototype.sort] with a comparator *)

Section StableSort.
Context {A : Type}.
(** [leb x y] holds when the comparator does not put [y] strictly
    before [x], that is when [cmp(x, y) <= 0]. *)
Variable leb : A -> A -> bool.

Fixpoint insertSorted (x : A) (l : list A) : list A :=
  match l with
  | [] => [x]
  | y :: l' => if leb x y then x :: l else y :: insertSorted x l'
  end.

Definition stableSort (l : list A) : list A := fold_right insertSorted [] l.
End StableSort.

(** ** Insertion-ordered maps: [Map], and objects used as dictionaries *)

Section Assoc.
Context {K V : Type}.
Variable eqb : K -> K -> bool.

(** [m.get(k)], [o[k]] *)
Fixpoint assocGet (k : K) (m : list (K * V)) : option V :=
  match m with
  | [] => None
  | (k', v) :: m' => if eqb k k' then Some v else assocGet k m'
  end.

(** [m.set(k, v)], [o[k] = v]: an existing key keeps its position. *)
Fixpoint assocSet (k : K) (v : V) (m : list (K * V)) : list (K * V) :=
  match m with
  | [] => [(k, v)]
  | (k', v') :: m' =>
    if eqb k k' then (k, v) :: m' else (k', v') :: assocSet k v m'
  end.
End Assoc.

Definition Dict (V : Type) : Type := list (string * V).
Definition dictGet {V : Type} : string -> Dict V -> option V :=
  assocGet String.eqb.
Definition dictSet {V : Type} : string -> V -> Dict V -> Dict V :=
  assocSet String.eqb.
(** [o[k] = v] on an object created by [{}].  The name ["__proto__"] is
    the prototype accessor inherited from [Object.prototype]: assigning a
    number or a string through it stores nothing and leaves the object as
    it was.  Every other name becomes, or overwrites, an own property. *)
Definition objSet {V : Type} (k : string) (v : V) (o : Dict V) : Dict V :=
  if String.eqb k "__proto__" then o else dictSet k v o.
(** [Object.keys(o)] *)
Definition dictKeys {V : Type} (d : Dict V) : list string := map fst d.

(** ** Numbers and array indexing *)

(** [a[i]] for an integer [i]: [undefined] unless [i] is an index of [a]. *)
Definition jsIndex {A : Type} (l : list A) (i : Z) : option A :=
  if (i <? 0)%Z then None else nth_error l (Z.to_nat i).

(** [x < y] on numbers *)
Definition Qltb (x y : Q) : bool := negb (Qle_bool y x).

(** [Math.min(x, ...xs)] and [Math.max(x, ...xs)] *)
Definition numMin (x y : Q) : Q := if Qle_bool x y then x else y.
Definition numMax (x y : Q) : Q := if Qle_bool x y then y else x.
Definition mathMin (x : Q) (xs : list Q) : Q := fold_left numMin xs x.
Definition mathMax (x : Q) (xs : list Q) : Q := fold_left numMax xs x.

(** [xs.reduce((a, b) => a + b, 0)] *)
Definition sumNumbers (xs : list Q) : Q := fold_left Qplus xs 0.

(** [xs.length] as a number *)
Definition lengthNum {A : Type} (xs : list A) : Q :=
  inject_Z (Z.of_nat (length xs)).

(** [values.slice().sort((a, b) => a - b)] *)
Definition sortNumbers (values : list Q) : list Q := stableSort Qle_bool values.

(** [s || d] on a possibly absent string: the empty string is falsy. *)
Definition strOr (s : option string) (d : string) : string :=
  match s with
  | Some EmptyString => d
  | Some x => x
  | None => d
  end.

(** ** Percentile estimator *)

(** [percentile(values, p)].  The result is [None] where JavaScript yields
    [undefined] or [NaN] because a rank falls outside the array
    ([p] outside [0, 100]). *)
Definition percentile (values : list Q) (p : Q) : option Q :=
  match values with
  | [] => Some 0
  | _ :: _ =>
    let sorted := sortNumbers values in
    match sorted with
    | [x] => Some x
    | _ =>
      let pos := (p / 100) * (lengthNum sorted - 1) in
      let lower := Qfloor pos in
      let upper := Qceiling pos in
      if (lower =? upper)%Z then jsIndex sorted lower
      else
        let weight := pos - inject_Z lower in
        match jsIndex sorted lower, jsIndex sorted upper with
        | Some lo, Some hi => Some (lo * (1 - weight) + hi * weight)
        | _, _ => None
        end
    end
  end.

(** The rule of the specification: interpolate between the floor- and
    ceiling-ranked elements of the ascending arrangement [sorted], with the
    fractional part of the rank as weight. *)
Definition interpolateSpec (sorted : list Q) (p : Q) (r : Q) : Prop :=
  let pos := (p / 100) * (lengthNum sorted - 1) in
  let weight := pos - inject_Z (Qfloor pos) in
  exists lo hi,
    jsIndex sorted (Qfloor pos) = Some lo /\
    jsIndex sorted (Qceiling pos) = Some hi /\
    r == lo * (1 - weight) + hi * weight.

(** ** Points and series *)

(** Block ids are strings, as the keys of [block_size_by_id] are. *)
Definition BlockId : Type := string.

(** A point is a JavaScript array: [[t, v, blockId]] as the decoder
    produces it, or [[t, v]] as bucketing produces it. *)
Inductive Point : Type :=
| Point3 (t v : Q) (blockId : BlockId)
| Point2 (t v : Q).

(** [p[0]], [p[1]], [p[2]] *)
Definition pointT (p : Point) : Q :=
  match p with Point3 t _ _ => t | Point2 t _ => t end.
Definition pointV (p : Point) : Q :=
  match p with Point3 _ v _ => v | Point2 _ v => v end.
Definition pointId (p : Point) : option BlockId :=
  match p with Point3 _ _ b => Some b | Point2 _ _ => None end.

(** [points.sort((a, b) => a[0] - b[0])] *)
Definition pointLeb (a b : Point) : bool := Qle_bool (pointT a) (pointT b).
Definition sortPoints (points : list Point) : list Point :=
  stableSort pointLeb points.

(** The property name under which [o[id]] looks [id] up. *)
Definition propertyKey (id : option BlockId) : string :=
  match id with Some s => s | None => "undefined" end.

(** ** Host functions

    [Date.parse], the local-time formatting behind [formatLocalIso] and
    [String.prototype.localeCompare] belong to the JavaScript host. *)
Class JsHost : Type := {
  (** [Date.parse(s)] in milliseconds; [None] is [NaN]. *)
  Date_parse : string -> option Q;
  (** [formatLocalIso(ms)] *)
  formatLocalIso : Q -> string;
  (** The sign of [a.localeCompare(b)]. *)
  localeCompare : string -> string -> comparison
}.

(** ** Payload decoder and block grouper *)

(** A cell of a record tuple or of a size pair: a number or [null]. *)
Inductive Cell : Type :=
| CNum (q : Q)
| CNull.

(** A block entry, already split along [block_fields]. *)
Record BlockEntry : Type := {
  be_block_id : BlockId;
  be_size_map : list (list Cell);
  be_records : list (list Cell)
}.

Record Payload : Type := {
  p_experiment_name : option string;
  p_ts0 : option string;
  p_record_fields : option (list string);
  p_size_fields : option (list string);
  p_maps_stage : list string;
  p_maps_type : list string;
  p_maps_called_from : list string;
  (** [None] when [blocks] is not an array. *)
  p_blocks : option (list BlockEntry)
}.

(** A record grouped under its category and block. *)
Record GroupedRecord : Type := {
  start_sec : Q;
  end_sec : Q;
  duration_sec : Q;
  stage : option string;
  original_size : option Q;
  compressed_size : option Q
}.

Record Group : Type := {
  g_type : option string;
  g_called_from : option string;
  g_blocks : list (BlockId * list GroupedRecord)
}.

Record CategoryStats : Type := {
  cs_type : option string;
  cs_called_from : option string;
  num_blocks : nat;
  block_size_points : list Point;
  compression_percent_points : list Point;
  broadcast_time_avg_points : list Point;
  broadcast_time_full_points : list Point;
  broadcast_time_66p_points : list Point;
  compression_time_points : list Point;
  decompression_time_points : list Point;
  block_size_by_id : Dict Q
}.

(** The decoder's result, without the per-block index [blocks] of the
    drill-down view. *)
Record Stats : Type := {
  experiment_name : string;
  earliest_ts_global : option string;
  type_called_from_stats : Dict CategoryStats
}.

Definition defaultRecordFields : list string :=
  ["node_idx"; "start_us"; "duration_us"; "stage_idx"; "type_idx";
   "called_from_idx"; "compression_idx"; "size_idx"]%string.
Definition defaultSizeFields : list string :=
  ["original_size"; "compressed_size"]%string.

(** [indexMap(fields, fallback)] *)
Fixpoint indexMapFrom (i : nat) (names : list string) (acc : Dict nat)
  : Dict nat :=
  match names with
  | [] => acc
  | f :: rest => indexMapFrom (S i) rest (objSet f i acc)
  end.
Definition indexMap (fields fallback : list string) : Dict nat :=
  let names := match fields with [] => fallback | _ :: _ => fields end in
  indexMapFrom 0 names [].

(** [tuple[idx.name]]: [undefined] when the name has no index or the tuple
    is too short. *)
Definition fieldOf (idx : Dict nat) (name : string) (tuple : list Cell)
  : option Cell :=
  match dictGet name idx with
  | Some i => nth_error tuple i
  | None => None
  end.

(** A cell used as an operand of [/]: [null] counts as zero. *)
Definition cellNum (c : Cell) : Q :=
  match c with CNum q => q | CNull => 0 end.

(** [table[cell]]: defined only for a cell holding an index of [table]. *)
Definition lookupByCell {A : Type} (table : list A) (c : option Cell)
  : option A :=
  match c with
  | Some (CNum q) =>
    if Qeq_bool q (inject_Z (Qfloor q)) then jsIndex table (Qfloor q)
    else None
  | _ => None
  end.

(** A size read off a size pair: [null] and [undefined] are both absent. *)
Definition cellSize (c : option Cell) : option Q :=
  match c with Some (CNum q) => Some q | _ => None end.

(** [experiment_name: payload.experiment_name || fallbackName || ""] *)
Definition resolveName (payload : Payload) (fallbackName : option string)
  : string :=
  strOr (p_experiment_name payload) (strOr fallbackName EmptyString).

(** The explicitly empty result. *)
Definition emptyStats (payload : Payload) (fallbackName : option string)
  : Stats :=
  {| experiment_name := resolveName payload fallbackName;
     earliest_ts_global := None;
     type_called_from_stats := [] |}.

(** [`${type || "None"}__${calledFrom || "None"}`] *)
Definition categoryKey (type calledFrom : option string) : string :=
  (strOr type "None" ++ "__" ++ strOr calledFrom "None")%string.

(** The state of the decoding loops: [grouped] and [earliestSec], where
    [None] is the initial [Infinity]. *)
Record DecodeState : Type := {
  grouped : list (string * Group);
  earliestSec : option Q
}.

(** [if (x < earliestSec) earliestSec = x] *)
Definition lowerEarliest (x : Q) (e : option Q) : option Q :=
  match e with
  | None => Some x
  | Some m => if Qltb x m then Some x else Some m
  end.

(** One decoded record: its category key, labels and grouped form. *)
Record Decoded : Type := {
  d_key : string;
  d_type : option string;
  d_called_from : option string;
  d_rec : GroupedRecord
}.

(** The body of the record loop up to the grouping; [None] when the record
    is skipped for want of [start_us] or [duration_us]. *)
Definition decodeRecord (ts0 : Q) (recIdx sizeIdx : Dict nat)
    (payload : Payload) (sizeMap : list (list Cell)) (rec : list Cell)
  : option Decoded :=
  match fieldOf recIdx "start_us" rec, fieldOf recIdx "duration_us" rec with
  | Some startUs, Some durationUs =>
    let startMs := ts0 + cellNum startUs / 1000 in
    let endMs := startMs + cellNum durationUs / 1000 in
    let startSec := startMs / 1000 in
    let endSec := endMs / 1000 in
    let durationSec := cellNum durationUs / 1000000 in
    let stage := lookupByCell (p_maps_stage payload)
                   (fieldOf recIdx "stage_idx" rec) in
    let type := lookupByCell (p_maps_type payload)
                  (fieldOf recIdx "type_idx" rec) in
    let calledFrom := lookupByCell (p_maps_called_from payload)
                        (fieldOf recIdx "called_from_idx" rec) in
    let sizePair :=
      match lookupByCell sizeMap (fieldOf recIdx "size_idx" rec) with
      | Some sp => sp
      | None => [CNull; CNull]
      end in
    Some {| d_key := categoryKey type calledFrom;
            d_type := type;
            d_called_from := calledFrom;
            d_rec := {| start_sec := startSec;
                        end_sec := endSec;
                        duration_sec := durationSec;
                        stage := stage;
                        original_size :=
                          cellSize (fieldOf sizeIdx "original_size" sizePair);
                        compressed_size :=
                          cellSize (fieldOf sizeIdx "compressed_size" sizePair)
                     |} |}
  | _, _ => None
  end.

(** Filing a decoded record under its category and block. *)
Definition addToGroup (blockId : BlockId) (d : Decoded)
    (grouped : list (string * Group)) : list (string * Group) :=
  let group :=
    match assocGet String.eqb (d_key d) grouped with
    | Some g => g
    | None => {| g_type := d_type d;
                 g_called_from := d_called_from d;
                 g_blocks := [] |}
    end in
  let blockRecs :=
    match assocGet String.eqb blockId (g_blocks group) with
    | Some recs => recs
    | None => []
    end in
  assocSet String.eqb (d_key d)
    {| g_type := g_type group;
       g_called_from := g_called_from group;
       g_blocks := assocSet String.eqb blockId (blockRecs ++ [d_rec d])
                     (g_blocks group) |}
    grouped.

(** One turn of [for (const rec of records)]. *)
Definition recordStep (ts0 : Q) (recIdx sizeIdx : Dict nat)
    (payload : Payload) (blockEntry : BlockEntry)
    (st : DecodeState) (rec : list Cell) : DecodeState :=
  match decodeRecord ts0 recIdx sizeIdx payload (be_size_map blockEntry) rec
  with
  | None => st
  | Some d =>
    {| grouped := addToGroup (be_block_id blockEntry) d (grouped st);
       earliestSec :=
         lowerEarliest (end_sec (d_rec d))
           (lowerEarliest (start_sec (d_rec d)) (earliestSec st)) |}
  end.

(** One turn of [for (const blockEntry of payload.blocks)]. *)
Definition blockEntryStep (ts0 : Q) (recIdx sizeIdx : Dict nat)
    (payload : Payload) (st : DecodeState) (blockEntry : BlockEntry)
  : DecodeState :=
  fold_left (recordStep ts0 recIdx sizeIdx payload blockEntry)
    (be_records blockEntry) st.

Definition decodeBlocks (ts0 : Q) (recIdx sizeIdx : Dict nat)
    (payload : Payload) (blocks : list BlockEntry) : DecodeState :=
  fold_left (blockEntryStep ts0 recIdx sizeIdx payload) blocks
    {| grouped := []; earliestSec := None |}.

(** The seven arrays and the lookup filled while a category is walked. *)
Record CategoryAcc : Type := {
  blockSizePointsDt : list Point;
  compressionPercentPointsDt : list Point;
  broadcastTimeAvgPointsDt : list Point;
  broadcastTimeFullPointsDt : list Point;
  broadcastTime66pPointsDt : list Point;
  compressionTimePointsDt : list Point;
  decompressionTimePointsDt : list Point;
  blockSizeById : Dict Q
}.

Definition emptyAcc : CategoryAcc :=
  {| blockSizePointsDt := []; compressionPercentPointsDt := [];
     broadcastTimeAvgPointsDt := []; broadcastTimeFullPointsDt := [];
     broadcastTime66pPointsDt := []; compressionTimePointsDt := [];
     decompressionTimePointsDt := []; blockSizeById := [] |}.

(** [rec.stage === name] *)
Definition stageIs (name : string) (r : GroupedRecord) : bool :=
  match stage r with Some s => String.eqb s name | None => false end.

(** [recs.sort((a, b) => a.start_sec - b.start_sec)] *)
Definition sortRecords (recs : list GroupedRecord) : list GroupedRecord :=
  stableSort (fun a b => Qle_bool (start_sec a) (start_sec b)) recs.

(** [recs.filter(r => r.stage === "compress").map(r => r.start_sec)] *)
Definition compressTsOf (recs : list GroupedRecord) : list Q :=
  map start_sec (filter (stageIs "compress") recs).
(** [recs.filter(r => r.stage === "decompress").map(r => r.end_sec)] *)
Definition decompressTsOf (recs : list GroupedRecord) : list Q :=
  map end_sec (filter (stageIs "decompress") recs).

(** The first loop over a block's records: the stage time points. *)
Definition stageTimeStep (blockId : BlockId) (acc : CategoryAcc)
    (r : GroupedRecord) : CategoryAcc :=
  if stageIs "compress" r then
    {| blockSizePointsDt := blockSizePointsDt acc;
       compressionPercentPointsDt := compressionPercentPointsDt acc;
       broadcastTimeAvgPointsDt := broadcastTimeAvgPointsDt acc;
       broadcastTimeFullPointsDt := broadcastTimeFullPointsDt acc;
       broadcastTime66pPointsDt := broadcastTime66pPointsDt acc;
       compressionTimePointsDt :=
         compressionTimePointsDt acc
         ++ [Point3 (end_sec r) (duration_sec r) blockId];
       decompressionTimePointsDt := decompressionTimePointsDt acc;
       blockSizeById := blockSizeById acc |}
  else if stageIs "decompress" r then
    {| blockSizePointsDt := blockSizePointsDt acc;
       compressionPercentPointsDt := compressionPercentPointsDt acc;
       broadcastTimeAvgPointsDt := broadcastTimeAvgPointsDt acc;
       broadcastTimeFullPointsDt := broadcastTimeFullPointsDt acc;
       broadcastTime66pPointsDt := broadcastTime66pPointsDt acc;
       compressionTimePointsDt := compressionTimePointsDt acc;
       decompressionTimePointsDt :=
         decompressionTimePointsDt acc
         ++ [Point3 (end_sec r) (duration_sec r) blockId];
       blockSizeById := blockSizeById acc |}
  else acc.

(** [percentile(decompSecs, 66)] as a point value; the rank 66 always
    falls inside the array (lemma [percentile_defined]). *)
Definition percentile66 (decompSecs : list Q) : Q :=
  match percentile decompSecs 66 with Some v => v | None => 0 end.

(** The positive sizes of a block's records in record order; a [Set]
    iterates in insertion order, so its first value is the head. *)
Definition positiveSizes (f : GroupedRecord -> option Q)
    (recs : list GroupedRecord) : list Q :=
  flat_map (fun r => match f r with
                     | Some x => if Qltb 0 x then [x] else []
                     | None => []
                     end) recs.

(** One turn of [for (const [blockId, recs] of byBlock.entries())]. *)
Definition blockStep (acc : CategoryAcc) (entry : BlockId * list GroupedRecord)
  : CategoryAcc :=
  let blockId := fst entry in
  let recs := sortRecords (snd entry) in
  let acc1 := fold_left (stageTimeStep blockId) recs acc in
  let compressTs := compressTsOf recs in
  let decompressTs := decompressTsOf recs in
  match compressTs, decompressTs with
  | c0 :: cs, d0 :: ds =>
    let tsBlock := mathMin c0 cs in
    let earliestCompress := tsBlock in
    let latestDecompress := mathMax d0 ds in
    let avgDecomp := sumNumbers decompressTs / lengthNum decompressTs in
    let decompSecs := map (fun t => t - earliestCompress) decompressTs in
    let full := Point3 tsBlock (latestDecompress - earliestCompress) blockId in
    let avg := Point3 tsBlock (avgDecomp - earliestCompress) blockId in
    let p66 := Point3 tsBlock (percentile66 decompSecs) blockId in
    match positiveSizes original_size recs,
          positiveSizes compressed_size recs with
    | originalSize :: _, compressedSize :: _ =>
      {| blockSizePointsDt :=
           blockSizePointsDt acc1 ++ [Point3 tsBlock originalSize blockId];
         compressionPercentPointsDt :=
           compressionPercentPointsDt acc1
           ++ [Point3 tsBlock ((originalSize - compressedSize) / originalSize)
                 blockId];
         broadcastTimeAvgPointsDt := broadcastTimeAvgPointsDt acc1 ++ [avg];
         broadcastTimeFullPointsDt := broadcastTimeFullPointsDt acc1 ++ [full];
         broadcastTime66pPointsDt := broadcastTime66pPointsDt acc1 ++ [p66];
         compressionTimePointsDt := compressionTimePointsDt acc1;
         decompressionTimePointsDt := decompressionTimePointsDt acc1;
         blockSizeById := objSet blockId originalSize (blockSizeById acc1) |}
    | _, _ =>
      {| blockSizePointsDt := blockSizePointsDt acc1;
         compressionPercentPointsDt := compressionPercentPointsDt acc1;
         broadcastTimeAvgPointsDt := broadcastTimeAvgPointsDt acc1 ++ [avg];
         broadcastTimeFullPointsDt := broadcastTimeFullPointsDt acc1 ++ [full];
         broadcastTime66pPointsDt := broadcastTime66pPointsDt acc1 ++ [p66];
         compressionTimePointsDt := compressionTimePointsDt acc1;
         decompressionTimePointsDt := decompressionTimePointsDt acc1;
         blockSizeById := blockSizeById acc1 |}
    end
  | _, _ => acc1
  end.

(** [shiftPoints(points)] *)
Definition shiftPoint (earliest : Q) (p : Point) : Point :=
  match p with
  | Point3 t v b => Point3 (t - earliest) v b
  | Point2 t v => Point2 (t - earliest) v
  end.
Definition shiftPoints (earliest : Q) (points : list Point) : list Point :=
  sortPoints (map (shiftPoint earliest) points).

(** The body of [for (const [key, group] of grouped.entries())]. *)
Definition categoryStats (earliest : Q) (group : Group) : CategoryStats :=
  let byBlock := g_blocks group in
  let acc := fold_left blockStep byBlock emptyAcc in
  {| cs_type := g_type group;
     cs_called_from :=  g_called_from group;
     num_blocks := length byBlock;
     block_size_points := shiftPoints earliest (blockSizePointsDt acc);
     compression_percent_points :=
       shiftPoints earliest (compressionPercentPointsDt acc);
     broadcast_time_avg_points :=
       shiftPoints earliest (broadcastTimeAvgPointsDt acc);
     broadcast_time_full_points :=
       shiftPoints earliest (broadcastTimeFullPointsDt acc);
     broadcast_time_66p_points :=
       shiftPoints earliest (broadcastTime66pPointsDt acc);
     compression_time_points :=
       shiftPoints earliest (compressionTimePointsDt acc);
     decompression_time_points :=
       shiftPoints earliest (decompressionTimePointsDt acc);
     block_size_by_id := blockSizeById acc |}.

(** [statsByKey]: one entry per key of [grouped], in its order. *)
Definition statsByKeyOf (earliest : Q) (grouped : list (string * Group))
  : Dict CategoryStats :=
  fold_left (fun statsByKey kg =>
               dictSet (fst kg) (categoryStats earliest (snd kg)) statsByKey)
    grouped [].

(** [payload.ts0 ? Date.parse(payload.ts0) : null], with [None] for both
    [null] and [NaN]. *)
Definition parseTs0 `{JsHost} (payload : Payload) : option Q :=
  match p_ts0 payload with
  | None => None
  | Some EmptyString => None
  | Some s => Date_parse s
  end.

(** [recIdx] and [sizeIdx]: the index maps of the record and size
    fields, from the payload's field lists or the fixed fallback orders. *)
Definition recIdxOf (payload : Payload) : Dict nat :=
  let recordFields :=
    match p_record_fields payload with
    | Some l => l
    | None => defaultRecordFields
    end in
  indexMap recordFields recordFields.
Definition sizeIdxOf (payload : Payload) : Dict nat :=
  let sizeFields :=
    match p_size_fields payload with
    | Some l => l
    | None => defaultSizeFields
    end in
  indexMap sizeFields sizeFields.

(** The records of a payload that are decoded, in payload order, each with
    the id of its block. *)
Definition decodedOf (ts0 : Q) (recIdx sizeIdx : Dict nat)
    (payload : Payload) (blocks : list BlockEntry)
  : list (BlockId * Decoded) :=
  flat_map (fun blockEntry =>
              flat_map (fun rec =>
                          match decodeRecord ts0 recIdx sizeIdx payload
                                  (be_size_map blockEntry) rec with
                          | Some d => [(be_block_id blockEntry, d)]
                          | None => []
                          end)
                (be_records blockEntry))
    blocks.

(** The effect of one decoded record on the loop state. *)
Definition fileDecoded (st : DecodeState) (bd : BlockId * Decoded)
  : DecodeState :=
  {| grouped := addToGroup (fst bd) (snd bd) (grouped st);
     earliestSec :=
       lowerEarliest (end_sec (d_rec (snd bd)))
         (lowerEarliest (start_sec (d_rec (snd bd))) (earliestSec st)) |}.

(** [grouped] holds, under each category key, exactly the ids of the
    blocks with a record of that category among the records [processed]. *)
Definition groupedReflects (grouped : list (string * Group))
    (processed : list (BlockId * Decoded)) : Prop :=
  NoDup (map fst grouped) /\
  forall key,
    match assocGet String.eqb key grouped with
    | Some g =>
      NoDup (map fst (g_blocks g)) /\
      forall id, In id (map fst (g_blocks g)) <->
                 exists d, In (id, d) processed /\ d_key d = key
    | None => forall id d, In (id, d) processed -> d_key d <> key
    end.

(** [computeStatsFromCompressed(payload, fallbackName)] *)
Definition computeStatsFromCompressed `{JsHost} (payload : Payload)
    (fallbackName : option string) : Stats :=
  let recIdx := recIdxOf payload in
  let sizeIdx := sizeIdxOf payload in
  match p_blocks payload, parseTs0 payload with
  | Some blocks, Some ts0 =>
    let st := decodeBlocks ts0 recIdx sizeIdx payload blocks in
    match earliestSec st with
    | None => emptyStats payload fallbackName
    | Some earliest =>
      {| experiment_name := resolveName payload fallbackName;
         earliest_ts_global := Some (formatLocalIso (earliest * 1000));
         type_called_from_stats := statsByKeyOf earliest (grouped st) |}
    end
  | _, _ => emptyStats payload fallbackName
  end.

(** ** The decoder on payloads as parsed

    The loops of the decoder index every block entry and every record
    before looking at it: [blockEntry[blockIdx.block_id]] and
    [rec[recIdx.start_us]] raise a [TypeError] on [null], and
    [for (const rec of records)] raises one when [records] is truthy and
    not iterable.  A parsed payload can hold such values, so the outcome
    of the call is a result or an exception. *)

Inductive JsError : Type := TypeError.

Inductive Outcome (A : Type) : Type :=
| Returned (a : A)
| Threw (e : JsError).
Arguments Returned {A} a.
Arguments Threw {A} e.

(** [blockEntry[blockIdx.records]] as the loop header meets it: a falsy
    value (absent, [null], [0], [false], the empty string), which
    [|| []] replaces by the empty array; an array, whose elements are
    records or [null]; or a truthy value that cannot be iterated (a
    non-zero number, [true], an object). *)
Inductive RawRecords : Type :=
| RecordsFalsy
| RecordsArray (recs : list (option (list Cell)))
| RecordsNotIterable.

Record RawBlockEntry : Type := {
  rbe_block_id : BlockId;
  rbe_size_map : list (list Cell);
  rbe_records : RawRecords
}.

(** A payload as parsed; an element of [blocks] is a block entry or
    [null]. *)
Record RawPayload : Type := {
  rp_experiment_name : option string;
  rp_ts0 : option string;
  rp_record_fields : option (list string);
  rp_size_fields : option (list string);
  rp_maps_stage : list string;
  rp_maps_type : list string;
  rp_maps_called_from : list string;
  rp_blocks : option (list (option RawBlockEntry))
}.

(** The fields of a parsed payload around the given blocks. *)
Definition payloadOf (raw : RawPayload) (blocks : option (list BlockEntry))
  : Payload :=
  {| p_experiment_name := rp_experiment_name raw;
     p_ts0 := rp_ts0 raw;
     p_record_fields := rp_record_fields raw;
     p_size_fields := rp_size_fields raw;
     p_maps_stage := rp_maps_stage raw;
     p_maps_type := rp_maps_type raw;
     p_maps_called_from := rp_maps_called_from raw;
     p_blocks := blocks |}.
Definition headerOf (raw : RawPayload) : Payload := payloadOf raw None.

(** The records of an array that are not [null], and a block entry with
    them. *)
Definition typedRecords (records : RawRecords) : list (list Cell) :=
  match records with
  | RecordsArray recs =>
    flat_map (fun r => match r with Some rec => [rec] | None => [] end) recs
  | RecordsFalsy | RecordsNotIterable => []
  end.
Definition typedEntry (e : RawBlockEntry) : BlockEntry :=
  {| be_block_id := rbe_block_id e;
     be_size_map := rbe_size_map e;
     be_records := typedRecords (rbe_records e) |}.
Definition typedBlocks (blocks : list (option RawBlockEntry))
  : list BlockEntry :=
  flat_map (fun b => match b with Some e => [typedEntry e] | None => [] end)
    blocks.

(** [for (const rec of records)] over an array. *)
Fixpoint rawRecordsLoop (ts0 : Q) (recIdx sizeIdx : Dict nat)
    (payload : Payload) (blockEntry : BlockEntry)
    (recs : list (option (list Cell))) (st : DecodeState)
  : Outcome DecodeState :=
  match recs with
  | [] => Returned st
  | None :: _ => Threw TypeError
  | Some rec :: rest =>
    rawRecordsLoop ts0 recIdx sizeIdx payload blockEntry rest
      (recordStep ts0 recIdx sizeIdx payload blockEntry st rec)
  end.

(** One turn of [for (const blockEntry of payload.blocks)]. *)
Definition rawBlockEntryStep (ts0 : Q) (recIdx sizeIdx : Dict nat)
    (payload : Payload) (st : DecodeState)
    (blockEntry : option RawBlockEntry) : Outcome DecodeState :=
  match blockEntry with
  | None => Threw TypeError
  | Some e =>
    match rbe_records e with
    | RecordsFalsy => Returned st
    | RecordsNotIterable => Threw TypeError
    | RecordsArray recs =>
      rawRecordsLoop ts0 recIdx sizeIdx payload (typedEntry e) recs st
    end
  end.

Fixpoint rawBlocksLoop (ts0 : Q) (recIdx sizeIdx : Dict nat)
    (payload : Payload) (blocks : list (option RawBlockEntry))
    (st : DecodeState) : Outcome DecodeState :=
  match blocks with
  | [] => Returned st
  | blockEntry :: rest =>
    match rawBlockEntryStep ts0 recIdx sizeIdx payload st blockEntry with
    | Threw e => Threw e
    | Returned st' => rawBlocksLoop ts0 recIdx sizeIdx payload rest st'
    end
  end.

(** [computeStatsFromCompressed(payload, fallbackName)] on a parsed
    payload; [None] is a payload that is [null], on which
    [payload.record_fields] raises. *)
Definition computeStatsFromParsed `{JsHost} (parsed : option RawPayload)
    (fallbackName : option string) : Outcome Stats :=
  match parsed with
  | None => Threw TypeError
  | Some raw =>
    let payload := headerOf raw in
    let recIdx := recIdxOf payload in
    let sizeIdx := sizeIdxOf payload in
    match rp_blocks raw, parseTs0 payload with
    | Some blocks, Some ts0 =>
      match rawBlocksLoop ts0 recIdx sizeIdx payload blocks
              {| grouped := []; earliestSec := None |} with
      | Threw e => Threw e
      | Returned st =>
        match earliestSec st with
        | None => Returned (emptyStats payload fallbackName)
        | Some earliest =>
          Returned
            {| experiment_name := resolveName payload fallbackName;
               earliest_ts_global := Some (formatLocalIso (earliest * 1000));
               type_called_from_stats :=
                 statsByKeyOf earliest (grouped st) |}
        end
      end
    | _, _ => Returned (emptyStats payload fallbackName)
    end
  end.

(** Whether an element of [blocks] makes the loops raise: it is [null],
    its records cannot be iterated, or one of its records is [null]. *)
Definition entryRaises (blockEntry : option RawBlockEntry) : bool :=
  match blockEntry with
  | None => true
  | Some e =>
    match rbe_records e with
    | RecordsFalsy => false
    | RecordsNotIterable => true
    | RecordsArray recs =>
      existsb (fun r => match r with None => true | Some _ => false end) recs
    end
  end.

(** ** Cross-experiment union builder *)

Record Experiment : Type := {
  exp_name : string;
  exp_stats : Stats
}.

Record UnionMeta : Type := {
  um_type : option string;
  um_called_from : option string;
  um_label : string
}.

Record Series : Type := {
  s_name : string;
  s_base_ts : option string;
  s_points : list Point
}.

Record PlotEntry : Type := {
  pe_label : string;
  block_size_by_id_series : list (Dict Q);
  block_size_series : list Series;
  compression_percent_series : list Series;
  broadcast_time_avg_series : list Series;
  broadcast_time_full_series : list Series;
  broadcast_time_66p_series : list Series;
  compression_time_series : list Series;
  decompression_time_series : list Series
}.

Record PlotsBundle : Type := {
  unionKeys : list string;
  unionMap : Dict UnionMeta;
  expShortNames : list string;
  plotsData : Dict PlotEntry
}.

(** The seven series kinds of a category. *)
Inductive SeriesKind : Type :=
| BlockSize | CompressionPercent | BroadcastTimeAvg | BroadcastTimeFull
| BroadcastTime66p | CompressionTime | DecompressionTime.

Definition allSeriesKinds : list SeriesKind :=
  [BlockSize; CompressionPercent; BroadcastTimeAvg; BroadcastTimeFull;
   BroadcastTime66p; CompressionTime; DecompressionTime].

(** [pair.<kind>_points] and [entry.<kind>_series] *)
Definition pointsOf (kind : SeriesKind) (cs : CategoryStats) : list Point :=
  match kind with
  | BlockSize => block_size_points cs
  | CompressionPercent => compression_percent_points cs
  | BroadcastTimeAvg => broadcast_time_avg_points cs
  | BroadcastTimeFull => broadcast_time_full_points cs
  | BroadcastTime66p => broadcast_time_66p_points cs
  | CompressionTime => compression_time_points cs
  | DecompressionTime => decompression_time_points cs
  end.
Definition seriesOf (kind : SeriesKind) (entry : PlotEntry) : list Series :=
  match kind with
  | BlockSize => block_size_series entry
  | CompressionPercent => compression_percent_series entry
  | BroadcastTimeAvg => broadcast_time_avg_series entry
  | BroadcastTimeFull => broadcast_time_full_series entry
  | BroadcastTime66p => broadcast_time_66p_series entry
  | CompressionTime => compression_time_series entry
  | DecompressionTime => decompression_time_series entry
  end.

(** [`${t}`] for a possibly [undefined] value. *)
Definition templateOf (s : option string) : string :=
  match s with Some x => x | None => "undefined" end.

(** [(cf === null || cf === "None") ? `${t}` : `${t} (${cf})`] *)
Definition labelOf (t cf : option string) : string :=
  match cf with
  | None => templateOf t
  | Some c =>
    if String.eqb c "None" then templateOf t
    else (templateOf t ++ " (" ++ c ++ ")")%string
  end.

(** The first loop of [buildPlotsData]: [unionMap[k] = { type, called_from,
    label }] for every category of every experiment. *)
Definition unionMapStep (um : Dict UnionMeta) (kp : string * CategoryStats)
  : Dict UnionMeta :=
  let t := cs_type (snd kp) in
  let cf := cs_called_from (snd kp) in
  dictSet (fst kp)
    {| um_type := t; um_called_from := cf; um_label := labelOf t cf |} um.
Definition buildUnionMap (experiments : list Experiment) : Dict UnionMeta :=
  fold_left (fun um exp =>
               fold_left unionMapStep
                 (type_called_from_stats (exp_stats exp)) um)
    experiments [].

(** [String(unionMap[a].type || "")], [String(unionMap[a].called_from || "")] *)
Definition sortType (um : Dict UnionMeta) (k : string) : string :=
  match dictGet k um with
  | Some m => strOr (um_type m) EmptyString
  | None => EmptyString
  end.
Definition sortOrigin (um : Dict UnionMeta) (k : string) : string :=
  match dictGet k um with
  | Some m => strOr (um_called_from m) EmptyString
  | None => EmptyString
  end.

(** The comparator given to [Object.keys(unionMap).sort]. *)
Definition unionKeyCompare `{JsHost} (um : Dict UnionMeta) (a b : string)
  : comparison :=
  let ta := sortType um a in
  let tb := sortType um b in
  if negb (String.eqb ta tb) then localeCompare ta tb
  else localeCompare (sortOrigin um a) (sortOrigin um b).
Definition unionKeyLeb `{JsHost} (um : Dict UnionMeta) (a b : string) : bool :=
  match unionKeyCompare um a b with Gt => false | _ => true end.

(** What the first loop stores for a category. *)
Definition metaOf (cs : CategoryStats) : UnionMeta :=
  {| um_type := cs_type cs;
     um_called_from := cs_called_from cs;
     um_label := labelOf (cs_type cs) (cs_called_from cs) |}.

(** Two entries of the union map in order under a string comparison
    [cmp]: by type first, by origin among equal types, an absent label
    counting as the empty string. *)
Definition metaOrder (cmp : string -> string -> comparison)
    (ma mb : UnionMeta) : Prop :=
  cmp (strOr (um_type ma) EmptyString) (strOr (um_type mb) EmptyString) = Lt
  \/
  (strOr (um_type ma) EmptyString = strOr (um_type mb) EmptyString /\
   cmp (strOr (um_called_from ma) EmptyString)
       (strOr (um_called_from mb) EmptyString) <> Gt).

(** Two keys in order: both have an entry in the union map, and the
    entries are in order. *)
Definition keysOrdered (cmp : string -> string -> comparison)
    (um : Dict UnionMeta) (a b : string) : Prop :=
  exists ma mb,
    dictGet a um = Some ma /\ dictGet b um = Some mb /\
    metaOrder cmp ma mb.

(** [localeCompare] as a collation: comparing the other way round gives
    the opposite sign, and "not after" is transitive.  Distinct strings
    may compare as equal. *)
Class Collation `{JsHost} : Prop := {
  coll_opp : forall a b, localeCompare b a = CompOpp (localeCompare a b);
  coll_trans : forall a b c,
      localeCompare a b <> Gt -> localeCompare b c <> Gt ->
      localeCompare a c <> Gt
}.

(** The collation tells the type labels of the categories apart. *)
Definition typesToldApart `{JsHost} (experiments : list Experiment) : Prop :=
  forall e1 e2 k1 k2 c1 c2,
    In e1 experiments -> In e2 experiments ->
    In (k1, c1) (type_called_from_stats (exp_stats e1)) ->
    In (k2, c2) (type_called_from_stats (exp_stats e2)) ->
    localeCompare (strOr (cs_type c1) EmptyString)
                  (strOr (cs_type c2) EmptyString) = Eq ->
    strOr (cs_type c1) EmptyString = strOr (cs_type c2) EmptyString.

(** [exp.stats.earliest_ts_global || null] *)
Definition baseTsOf (exp : Experiment) : option string :=
  match earliest_ts_global (exp_stats exp) with
  | Some EmptyString => None
  | x => x
  end.

(** The series an experiment contributes for key [k] and one kind. *)
Definition seriesFor (k : string) (kind : SeriesKind) (exp : Experiment)
  : Series :=
  {| s_name := exp_name exp;
     s_base_ts := baseTsOf exp;
     s_points :=
       match dictGet k (type_called_from_stats (exp_stats exp)) with
       | Some cat => pointsOf kind cat
       | None => []
       end |}.

(** One turn of the inner [for (const exp of experiments)]. *)
Definition entryStep (k : string) (entry : PlotEntry) (exp : Experiment)
  : PlotEntry :=
  {| pe_label := pe_label entry;
     block_size_by_id_series :=
       block_size_by_id_series entry
       ++ [match dictGet k (type_called_from_stats (exp_stats exp)) with
           | Some cat => block_size_by_id cat
           | None => []
           end];
     block_size_series :=
       block_size_series entry ++ [seriesFor k BlockSize exp];
     compression_percent_series :=
       compression_percent_series entry ++ [seriesFor k CompressionPercent exp];
     broadcast_time_avg_series :=
       broadcast_time_avg_series entry ++ [seriesFor k BroadcastTimeAvg exp];
     broadcast_time_full_series :=
       broadcast_time_full_series entry ++ [seriesFor k BroadcastTimeFull exp];
     broadcast_time_66p_series :=
       broadcast_time_66p_series entry ++ [seriesFor k BroadcastTime66p exp];
     compression_time_series :=
       compression_time_series entry ++ [seriesFor k CompressionTime exp];
     decompression_time_series :=
       decompression_time_series entry ++ [seriesFor k DecompressionTime exp]
  |}.

(** The entry of key [k]; every key of the sorted list is a key of
    [unionMap], so [meta] is always found. *)
Definition buildEntry (um : Dict UnionMeta) (experiments : list Experiment)
    (k : string) : PlotEntry :=
  fold_left (entryStep k) experiments
    {| pe_label := match dictGet k um with
                   | Some meta => um_label meta
                   | None => "undefined"
                   end;
       block_size_by_id_series := [];
       block_size_series := [];
       compression_percent_series := [];
       broadcast_time_avg_series := [];
       broadcast_time_full_series := [];
       broadcast_time_66p_series := [];
       compression_time_series := [];
       decompression_time_series := [] |}.

(** [buildPlotsData(experiments)] *)
Definition buildPlotsData `{JsHost} (experiments : list Experiment)
  : PlotsBundle :=
  let um := buildUnionMap experiments in
  let keys := stableSort (unionKeyLeb um) (dictKeys um) in
  {| unionKeys := keys;
     unionMap := um;
     expShortNames := map exp_name experiments;
     plotsData :=
       fold_left (fun pd k => dictSet k (buildEntry um experiments k) pd)
         keys [] |}.

(** ** Window/filter aggregator *)

(** The global filter state read by the aggregation functions. *)
Record FilterState : Type := {
  minBlockSizeBytes : Q;
  rangeMinT : Q;
  rangeMaxT : Q;
  trimEdges : bool
}.

(** [!minBlockSizeBytes || minBlockSizeBytes <= 0] *)
Definition sizeFilterOff (fs : FilterState) : bool :=
  Qle_bool (minBlockSizeBytes fs) 0.

(** The test of [filterByBlockSize] on one point. *)
Definition passesSize (fs : FilterState) (blockSizeById : Dict Q) (p : Point)
  : bool :=
  match dictGet (propertyKey (pointId p)) blockSizeById with
  | Some size => Qle_bool (minBlockSizeBytes fs) size
  | None => false
  end.

(** [filterByBlockSize(points, blockSizeById)] *)
Definition filterByBlockSize (fs : FilterState) (points : list Point)
    (blockSizeById : Dict Q) : list Point :=
  if sizeFilterOff fs then points
  else filter (passesSize fs blockSizeById) points.

(** [t >= lo && t <= hi] *)
Definition within (lo hi : Q) (p : Point) : bool :=
  Qle_bool lo (pointT p) && Qle_bool (pointT p) hi.

Record Bucket : Type := {
  b_sum : Q;
  b_count : Q;
  b_sumT : Q
}.

(** The bucket update of the loop for a point that is not skipped. *)
Definition bucketAdd (windowSec : Q) (buckets : list (Z * Bucket))
    (p : Point) : list (Z * Bucket) :=
  let t := pointT p in
  let v := pointV p in
  let b := Qfloor (t / windowSec) in
  match assocGet Z.eqb b buckets with
  | None =>
    assocSet Z.eqb b {| b_sum := v; b_count := 1; b_sumT := t |} buckets
  | Some cur =>
    assocSet Z.eqb b
      {| b_sum := b_sum cur + v;
         b_count := b_count cur + 1;
         b_sumT := b_sumT cur + t |} buckets
  end.

(** One turn of the bucketing loop. *)
Definition bucketStep (allowedMin allowedMax windowSec : Q)
    (buckets : list (Z * Bucket)) (p : Point) : list (Z * Bucket) :=
  if Qltb (pointT p) allowedMin || Qltb allowedMax (pointT p) then buckets
  else bucketAdd windowSec buckets p.

(** The output loop over the numerically sorted bucket keys. *)
Definition emitBuckets (buckets : list (Z * Bucket)) : list Point :=
  let keys := stableSort Z.leb (map fst buckets) in
  flat_map (fun k =>
              match assocGet Z.eqb k buckets with
              | Some c => [Point2 (b_sumT c / b_count c) (b_sum c / b_count c)]
              | None => []
              end) keys.

(** [aggregatePoints(points, windowSec, blockSizeById)] *)
Definition aggregatePoints (fs : FilterState) (points : list Point)
    (windowSec : Q) (blockSizeById : Dict Q) : list Point :=
  match points with
  | [] => []
  | _ :: _ =>
    let sizeFiltered := filterByBlockSize fs points blockSizeById in
    match sizeFiltered with
    | [] => []
    | _ :: _ =>
      let sorted := sortPoints sizeFiltered in
      let rangeFiltered :=
        filter (within (rangeMinT fs) (rangeMaxT fs)) sorted in
      match rangeFiltered with
      | [] => []
      | first :: _ =>
        let minT := pointT first in
        let maxT := pointT (last rangeFiltered first) in
        let allowedMin := if trimEdges fs then minT + 300 else minT in
        let allowedMax := if trimEdges fs then maxT - 120 else maxT in
        if Qltb allowedMax allowedMin then []
        else if Qle_bool windowSec 0 then
          filter (within allowedMin allowedMax) rangeFiltered
        else
          emitBuckets
            (fold_left (bucketStep allowedMin allowedMax windowSec)
               rangeFiltered [])
      end
    end
  end.

(** The points that survive the size and window filters, in time order. *)
Definition survivors (fs : FilterState) (points : list Point)
    (blockSizeById : Dict Q) : list Point :=
  filter (within (rangeMinT fs) (rangeMaxT fs))
    (sortPoints (filterByBlockSize fs points blockSizeById)).

(** The interval left by edge trimming around the survivors. *)
Definition allowedMinOf (fs : FilterState) (minT : Q) : Q :=
  if trimEdges fs then minT + 300 else minT.
Definition allowedMaxOf (fs : FilterState) (maxT : Q) : Q :=
  if trimEdges fs then maxT - 120 else maxT.

(** The output stage by bucket width: the points unchanged, or one
    averaged pair per non-empty bucket. *)
Definition emitWith (windowSec : Q) (kept : list Point) : list Point :=
  if Qle_bool windowSec 0 then kept
  else
    emitBuckets (fold_left (bucketAdd windowSec) kept []).

(** The points handed to the output stage: the survivors that lie in the
    interval left around the first and the last survivor. *)
Definition keptPoints (fs : FilterState) (points : list Point)
    (blockSizeById : Dict Q) : list Point :=
  match survivors fs points blockSizeById with
  | [] => []
  | first :: rest =>
    filter (within (allowedMinOf fs (pointT first))
                   (allowedMaxOf fs (pointT (last (first :: rest) first))))
      (first :: rest)
  end.

(** The bucket index of a point, the points of a list that fall into
    bucket [b], and the arithmetic mean. *)
Definition bucketOf (w : Q) (p : Point) : Z := Qfloor (pointT p / w).
Definition bucketMembers (w : Q) (b : Z) (kept : list Point) : list Point :=
  filter (fun p => Z.eqb (bucketOf w p) b) kept.
Definition meanOf (xs : list Q) : Q := sumNumbers xs / lengthNum xs.

(** A bucket holding one point, and a bucket extended by one point. *)
Definition singleBucket (p : Point) : Bucket :=
  {| b_sum := pointV p; b_count := 1; b_sumT := pointT p |}.
Definition extendBucket (c : Bucket) (p : Point) : Bucket :=
  {| b_sum := b_sum c + pointV p;
     b_count := b_count c + 1;
     b_sumT := b_sumT c + pointT p |}.

(** The pair emitted for a bucket. *)
Definition bucketPoint (c : Bucket) : Point :=
  Point2 (b_sumT c / b_count c) (b_sum c / b_count c).

(** ** Visibility of categories *)

(** [hasBlocksAfterSizeFilter(item)] *)
Definition hasBlocksAfterSizeFilter (fs : FilterState)
    (item : option PlotEntry) : bool :=
  match item with
  | None => false
  | Some it =>
    if sizeFilterOff fs then
      existsb (fun s => negb (Nat.eqb (length (s_points s)) 0))
        (block_size_series it)
    else
      existsb (fun s =>
                 existsb (fun p => Qle_bool (minBlockSizeBytes fs) (pointV p))
                   (s_points s))
        (block_size_series it)
  end.

(** [getVisibleUnionKeys()] over the globals [UNION_KEYS], [PLOTS_DATA]. *)
Definition getVisibleUnionKeys (fs : FilterState) (keys : list string)
    (plots : Dict PlotEntry) : list string :=
  filter (fun k => hasBlocksAfterSizeFilter fs (dictGet k plots)) keys.

(** The block-size points of one experiment's series that pass the size
    threshold on their own value. *)
Definition sizeSurvivors (fs : FilterState) (s : Series) : list Point :=
  if sizeFilterOff fs then s_points s
  else filter (fun p => Qle_bool (minBlockSizeBytes fs) (pointV p))
         (s_points s).

(** ** Summary table: best-value selection *)

(** The loop choosing the best among [groupVals] from index [i] on;
    [better v best] is the test against the current best value. *)
Fixpoint bestLoop (admissible : Q -> bool) (better : Q -> Q -> bool)
    (i : nat) (groupVals : list (option Q))
    (bestVal : option Q) (bestIdx : option nat) : option nat :=
  match groupVals with
  | [] => bestIdx
  | g :: rest =>
    match g with
    | Some v =>
      if admissible v
         && match bestVal with None => true | Some b => better v b end
      then bestLoop admissible better (S i) rest (Some v) (Some i)
      else bestLoop admissible better (S i) rest bestVal bestIdx
    | None => bestLoop admissible better (S i) rest bestVal bestIdx
    end
  end.

Definition broadcastRows : list string :=
  ["avg_broadcast_time_avg_s"; "avg_broadcast_time_full_s";
   "avg_broadcast_time_66p_s"]%string.

(** [ROWS_SPEC], the row keys of the summary table. *)
Definition ROWS_SPEC : list (string * string) :=
  [("num_blocks", "Blocks");
   ("avg_block_size_bytes", "Avg block size (KB)");
   ("avg_compression_percent", "Avg compression percent");
   ("avg_broadcast_time_avg_s", "Avg broadcast time (avg)");
   ("avg_broadcast_time_66p_s", "Avg broadcast time (66p)");
   ("avg_broadcast_time_full_s", "Avg broadcast time (full)");
   ("avg_compression_time_s", "Avg compression time (ms)");
   ("avg_decompression_time_s", "Avg decompression time (ms)")]%string.

(** [bestIdx] as [rebuildAveragesTable] computes it for the row [keyName]
    of one category. *)
Definition bestIdxOf (keyName : string) (groupVals : list (option Q))
  : option nat :=
  if String.eqb keyName "avg_compression_percent" then
    bestLoop (fun _ => true) (fun v b => Qltb b v) 0 groupVals None None
  else if existsb (String.eqb keyName) broadcastRows then
    bestLoop (fun v => Qltb 0 v) (fun v b => Qltb v b) 0 groupVals None None
  else None.

(** The highlighting class of cell [i] of the row: [None] for a cell
    rendered as a dash, otherwise [extraCls]. *)
Definition cellClass (keyName : string) (groupVals : list (option Q))
    (i : nat) : option string :=
  match nth_error groupVals i with
  | Some (Some val) =>
    if String.eqb keyName "num_blocks" && Qeq_bool val 0 then None
    else
      match bestIdxOf keyName groupVals with
      | Some b => if Nat.eqb i b then Some "best-cell"%string
                  else Some "other-cell"%string
      | None => Some EmptyString
      end
  | _ => None
  end.

Section BestSpec.
Variable admissible : Q -> bool.
(** [good b u]: [b] is at least as good as [u]. *)
Variable good : Q -> Q -> Prop.

(** What the loop knows after the values [seen]. *)
Definition bestSoFar (seen : list (option Q)) (bestVal : option Q)
    (bestIdx : option nat) : Prop :=
  match bestVal, bestIdx with
  | None, None => forall u, In (Some u) seen -> admissible u = false
  | Some b, Some j =>
    nth_error seen j = Some (Some b) /\ admissible b = true /\
    forall u, In (Some u) seen -> admissible u = true -> good b u
  | _, _ => False
  end.

(** What the index returned for [groupVals] stands for. *)
Definition bestOf (groupVals : list (option Q)) (r : option nat) : Prop :=
  match r with
  | None => forall u, In (Some u) groupVals -> admissible u = false
  | Some j =>
    exists b, nth_error groupVals j = Some (Some b) /\
              admissible b = true /\
              forall u, In (Some u) groupVals -> admissible u = true ->
                        good b u
  end.
End BestSpec.

From Stdlib Require DecimalString.

(** ** Reading the decoder's result against the decoded records *)

(** [e] is the earliest of the start and end instants of the records. *)
Definition isTimeOrigin (e : Q) (processed : list (BlockId * Decoded))
  : Prop :=
  (forall bd, In bd processed ->
              e <= start_sec (d_rec (snd bd)) /\
              e <= end_sec (d_rec (snd bd))) /\
  exists bd, In bd processed /\
             (e = start_sec (d_rec (snd bd)) \/
              e = end_sec (d_rec (snd bd))).

(** The records of category [key], and among them those of block [id], in
    payload order. *)
Definition ofCategory (key : string) (bd : BlockId * Decoded) : bool :=
  String.eqb (d_key (snd bd)) key.
Definition recordsFiled (key : string) (id : BlockId)
    (processed : list (BlockId * Decoded)) : list GroupedRecord :=
  map (fun bd => d_rec (snd bd))
    (filter (fun bd => String.eqb (fst bd) id && ofCategory key bd)
       processed).

(** The records of a group, each with the id of its block. *)
Definition filedPairs (byBlock : list (BlockId * list GroupedRecord))
  : list (BlockId * GroupedRecord) :=
  flat_map (fun entry => map (fun r => (fst entry, r)) (snd entry)) byBlock.

(** The point a record gives to the time series of its stage. *)
Definition stageTimePoint (pr : BlockId * GroupedRecord) : Point :=
  Point3 (end_sec (snd pr)) (duration_sec (snd pr)) (fst pr).

(** All seven arrays hold points satisfying [P] only. *)
Definition accAll (P : Point -> Prop) (acc : CategoryAcc) : Prop :=
  Forall P (blockSizePointsDt acc) /\
  Forall P (compressionPercentPointsDt acc) /\
  Forall P (broadcastTimeAvgPointsDt acc) /\
  Forall P (broadcastTimeFullPointsDt acc) /\
  Forall P (broadcastTime66pPointsDt acc) /\
  Forall P (compressionTimePointsDt acc) /\
  Forall P (decompressionTimePointsDt acc).

(** [grouped] files every processed record, and nothing else: a category
    is present exactly when it has a record, and each of its blocks holds
    the category's records of that block in payload order. *)
Definition groupedExactly (grouped : list (string * Group))
    (processed : list (BlockId * Decoded)) : Prop :=
  forall key,
    match assocGet String.eqb key grouped with
    | Some g =>
      (exists bd, In bd processed /\ ofCategory key bd = true) /\
      forall id,
        assocGet String.eqb id (g_blocks g)
        = match recordsFiled key id processed with
          | [] => None
          | r :: rs => Some (r :: rs)
          end
    | None => forall bd, In bd processed -> ofCategory key bd = false
    end.

(** The records of category [key], each with the id of its block. *)
Definition categoryPairs (key : string)
    (processed : list (BlockId * Decoded)) : list (BlockId * GroupedRecord) :=
  map (fun bd => (fst bd, d_rec (snd bd))) (filter (ofCategory key) processed).

(** [shiftPoints] on one stage-time point. *)
Definition shiftedStagePoint (e : Q) (pr : BlockId * GroupedRecord) : Point :=
  Point3 (end_sec (snd pr) - e) (duration_sec (snd pr)) (fst pr).

(** What the block-size array, the compression-percent array and the
    size table of an accumulator have in common after the blocks [seen]. *)
Definition sizesAgree (seen : list BlockId) (acc : CategoryAcc) : Prop :=
  (forall p, In p (blockSizePointsDt acc) ->
     exists t v id, p = Point3 t v id /\ In id seen /\ 0 < v /\
                    dictGet id (blockSizeById acc)
                    = if String.eqb id "__proto__" then None else Some v) /\
  (forall id v, dictGet id (blockSizeById acc) = Some v ->
     exists t, In (Point3 t v id) (blockSizePointsDt acc)) /\
  Forall2 (fun p q => pointT q = pointT p /\ pointId q = pointId p /\
                      exists c, 0 < c /\
                                pointV q = (pointV p - c) / pointV p)
    (blockSizePointsDt acc) (compressionPercentPointsDt acc) /\
  dictGet "__proto__" (blockSizeById acc) = None.

(** Whether the table can hold the size of a point's block: the
    assignment [blockSizeById[blockId] = originalSize] stores nothing for
    the block id ["__proto__"]. *)
Definition storesSize (p : Point) : bool :=
  negb (String.eqb (propertyKey (pointId p)) "__proto__").

(** The size test on a point's own value. *)
Definition passesOwnSize (fs : FilterState) (p : Point) : bool :=
  Qle_bool (minBlockSizeBytes fs) (pointV p).

(** ** Summary table: the averages of one experiment *)

(** The object [pairData] handed to [computeAveragesForPair]. *)
Record PairData : Type := {
  pd_block_size_points : list Point;
  pd_compression_percent_points : list Point;
  pd_broadcast_time_avg_points : list Point;
  pd_broadcast_time_full_points : list Point;
  pd_broadcast_time_66p_points : list Point;
  pd_compression_time_points : list Point;
  pd_decompression_time_points : list Point;
  pd_block_size_by_id : Dict Q
}.

(** [pairData[pointsKey] || []] for the seven keys the function passes. *)
Definition pdPoints (pointsKey : SeriesKind) (pd : PairData) : list Point :=
  match pointsKey with
  | BlockSize => pd_block_size_points pd
  | CompressionPercent => pd_compression_percent_points pd
  | BroadcastTimeAvg => pd_broadcast_time_avg_points pd
  | BroadcastTimeFull => pd_broadcast_time_full_points pd
  | BroadcastTime66p => pd_broadcast_time_66p_points pd
  | CompressionTime => pd_compression_time_points pd
  | DecompressionTime => pd_decompression_time_points pd
  end.

(** [filterByBlockSize(pts, blockSizeById).filter(([t]) => t >= rangeMinT
    && t <= rangeMaxT)] *)
Definition rangeFilteredOf (fs : FilterState) (pd : PairData)
    (pointsKey : SeriesKind) : list Point :=
  let pts := pdPoints pointsKey pd in
  let sizeFiltered := filterByBlockSize fs pts (pd_block_size_by_id pd) in
  filter (within (rangeMinT fs) (rangeMaxT fs)) sizeFiltered.

(** [avgFromPoints(pointsKey)] *)
Definition avgFromPoints (fs : FilterState) (pd : PairData)
    (pointsKey : SeriesKind) : Q :=
  let filtered := rangeFilteredOf fs pd pointsKey in
  match filtered with
  | [] => 0
  | _ :: _ =>
    let sum := fold_left (fun acc p => acc + pointV p) filtered 0 in
    sum / lengthNum filtered
  end.

(** [countFromPoints(pointsKey)] *)
Definition countFromPoints (fs : FilterState) (pd : PairData)
    (pointsKey : SeriesKind) : Q :=
  lengthNum (rangeFilteredOf fs pd pointsKey).

Record Averages : Type := {
  a_num_blocks : Q;
  avg_block_size_bytes : Q;
  avg_compression_percent : Q;
  avg_broadcast_time_avg_s : Q;
  avg_broadcast_time_full_s : Q;
  avg_broadcast_time_66p_s : Q;
  avg_compression_time_s : Q;
  avg_decompression_time_s : Q
}.

(** [computeAveragesForPair(pairData)] *)
Definition computeAveragesForPair (fs : FilterState) (pd : PairData)
  : Averages :=
  {| a_num_blocks := countFromPoints fs pd BlockSize;
     avg_block_size_bytes := avgFromPoints fs pd BlockSize;
     avg_compression_percent := avgFromPoints fs pd CompressionPercent;
     avg_broadcast_time_avg_s := avgFromPoints fs pd BroadcastTimeAvg;
     avg_broadcast_time_full_s := avgFromPoints fs pd BroadcastTimeFull;
     avg_broadcast_time_66p_s := avgFromPoints fs pd BroadcastTime66p;
     avg_compression_time_s := avgFromPoints fs pd CompressionTime;
     avg_decompression_time_s := avgFromPoints fs pd DecompressionTime |}.

(** [item.<kind>_series[expIdx]?.points || []] *)
Definition pointsAt (series : list Series) (expIdx : nat) : list Point :=
  match nth_error series expIdx with
  | Some s => s_points s
  | None => []
  end.

(** The [pairData] that [rebuildAveragesTable] builds for experiment
    [expIdx] of a category. *)
Definition pairDataOf (item : PlotEntry) (expIdx : nat) : PairData :=
  {| pd_block_size_points := pointsAt (block_size_series item) expIdx;
     pd_compression_percent_points :=
       pointsAt (compression_percent_series item) expIdx;
     pd_broadcast_time_avg_points :=
       pointsAt (broadcast_time_avg_series item) expIdx;
     pd_broadcast_time_full_points :=
       pointsAt (broadcast_time_full_series item) expIdx;
     pd_broadcast_time_66p_points :=
       pointsAt (broadcast_time_66p_series item) expIdx;
     pd_compression_time_points :=
       pointsAt (compression_time_series item) expIdx;
     pd_decompression_time_points :=
       pointsAt (decompression_time_series item) expIdx;
     pd_block_size_by_id :=
       match nth_error (block_size_by_id_series item) expIdx with
       | Some sizes => sizes
       | None => []
       end |}.

(** [allAvgs[k]] of [rebuildAveragesTable], for [expCount] experiments. *)
Definition allAvgsOf (fs : FilterState) (plots : Dict PlotEntry)
    (expCount : nat) (k : string) : list (option Averages) :=
  match dictGet k plots with
  | None => repeat None expCount
  | Some item =>
    map (fun expIdx => Some (computeAveragesForPair fs (pairDataOf item expIdx)))
      (seq 0 expCount)
  end.

(** [avg[keyName]] *)
Definition avgField (keyName : string) (avg : Averages) : option Q :=
  if String.eqb keyName "num_blocks" then Some (a_num_blocks avg)
  else if String.eqb keyName "avg_block_size_bytes"
       then Some (avg_block_size_bytes avg)
  else if String.eqb keyName "avg_compression_percent"
       then Some (avg_compression_percent avg)
  else if String.eqb keyName "avg_broadcast_time_avg_s"
       then Some (avg_broadcast_time_avg_s avg)
  else if String.eqb keyName "avg_broadcast_time_full_s"
       then Some (avg_broadcast_time_full_s avg)
  else if String.eqb keyName "avg_broadcast_time_66p_s"
       then Some (avg_broadcast_time_66p_s avg)
  else if String.eqb keyName "avg_compression_time_s"
       then Some (avg_compression_time_s avg)
  else if String.eqb keyName "avg_decompression_time_s"
       then Some (avg_decompression_time_s avg)
  else None.

(** [allAvgs[k].map(avg => avg ? avg[keyName] : null)] *)
Definition groupValsOf (keyName : string) (avgs : list (option Averages))
  : list (option Q) :=
  map (fun avg => match avg with
                  | Some a => avgField keyName a
                  | None => None
                  end) avgs.

(** ** Global time and block-size ranges *)

(** The globals [globalMinT], [globalMaxT] and [globalBaseTsMs]; [None]
    stands for [Infinity], [-Infinity] and [null]. *)
Record TimeGlobals : Type := {
  globalMinT : option Q;
  globalMaxT : option Q;
  globalBaseTsMs : option Q
}.

(** Their values when the script is loaded. *)
Definition initialTimeGlobals : TimeGlobals :=
  {| globalMinT := None; globalMaxT := None; globalBaseTsMs := None |}.

(** [x < m] for a running minimum that starts at [Infinity], and [x > m]
    for a running maximum that starts at [-Infinity]. *)
Definition belowMin (x : Q) (m : option Q) : bool :=
  match m with None => true | Some y => Qltb x y end.
Definition aboveMax (x : Q) (m : option Q) : bool :=
  match m with None => true | Some y => Qltb y x end.

(** [allSeries] of [computeGlobalTimeRange]. *)
Definition allSeriesOf (item : PlotEntry) : list Series :=
  block_size_series item ++ compression_percent_series item
  ++ broadcast_time_avg_series item ++ broadcast_time_full_series item
  ++ broadcast_time_66p_series item ++ compression_time_series item
  ++ decompression_time_series item.

(** [USE_ABSOLUTE_TIME && s.base_ts ? new Date(s.base_ts).getTime() : 0],
    with [None] for [NaN]. *)
Definition baseMsOf `{JsHost} (useAbsoluteTime : bool) (s : Series)
  : option Q :=
  if useAbsoluteTime then
    match s_base_ts s with
    | None => Some 0
    | Some EmptyString => Some 0
    | Some ts => Date_parse ts
    end
  else Some 0.

(** The globals together with the local [earliestAbsoluteMs]. *)
Record TimeScan : Type := {
  ts_globals : TimeGlobals;
  earliestAbsoluteMs : option Q
}.

(** The body of [for (const [t] of (s.points || []))]. *)
Definition timePointStep (useAbsoluteTime : bool) (baseMs : option Q)
    (st : TimeScan) (p : Point) : TimeScan :=
  let t := pointT p in
  let g := ts_globals st in
  let minT := if belowMin t (globalMinT g) then Some t else globalMinT g in
  let maxT := if aboveMax t (globalMaxT g) then Some t else globalMaxT g in
  let unchanged :=
    {| ts_globals := {| globalMinT := minT; globalMaxT := maxT;
                        globalBaseTsMs := globalBaseTsMs g |};
       earliestAbsoluteMs := earliestAbsoluteMs st |} in
  if useAbsoluteTime then
    match baseMs with
    | Some b =>
      let absMs := b + t * 1000 in
      if belowMin absMs (earliestAbsoluteMs st) then
        {| ts_globals := {| globalMinT := minT; globalMaxT := maxT;
                            globalBaseTsMs := Some b |};
           earliestAbsoluteMs := Some absMs |}
      else unchanged
    | None => unchanged
    end
  else unchanged.

Definition timeSeriesStep `{JsHost} (useAbsoluteTime : bool) (st : TimeScan)
    (s : Series) : TimeScan :=
  fold_left (timePointStep useAbsoluteTime (baseMsOf useAbsoluteTime s))
    (s_points s) st.

Definition timeKeyStep `{JsHost} (useAbsoluteTime : bool)
    (plots : Dict PlotEntry) (st : TimeScan) (key : string) : TimeScan :=
  match dictGet key plots with
  | Some item => fold_left (timeSeriesStep useAbsoluteTime) (allSeriesOf item) st
  | None => st
  end.

(** [computeGlobalTimeRange()] over the globals [PLOTS_DATA] and
    [USE_ABSOLUTE_TIME]; the function leaves the size threshold and the
    trim flag alone and sets the selected window. *)
Definition computeGlobalTimeRange `{JsHost} (useAbsoluteTime : bool)
    (plots : Dict PlotEntry) (g : TimeGlobals) (fs : FilterState)
  : TimeGlobals * FilterState :=
  let st := fold_left (timeKeyStep useAbsoluteTime plots) (dictKeys plots)
              {| ts_globals := g; earliestAbsoluteMs := None |} in
  let g1 := ts_globals st in
  let minT := match globalMinT g1 with None => 0 | Some x => x end in
  let maxT := match globalMaxT g1 with None => 1 | Some x => x end in
  let base := if useAbsoluteTime then
                match globalBaseTsMs g1 with None => Some 0 | b => b end
              else globalBaseTsMs g1 in
  ({| globalMinT := Some minT; globalMaxT := Some maxT;
      globalBaseTsMs := base |},
   {| minBlockSizeBytes := minBlockSizeBytes fs;
      rangeMinT := minT; rangeMaxT := maxT;
      trimEdges := trimEdges fs |}).

(** The body of [for (const p of (s.points || []))] in
    [computeGlobalBlockSizeRange]; a point's value is always a number. *)
Definition sizePointStep (st : option Q * option Q) (p : Point)
  : option Q * option Q :=
  let size := pointV p in
  (if belowMin size (fst st) then Some size else fst st,
   if aboveMax size (snd st) then Some size else snd st).

Definition sizeKeyStep (plots : Dict PlotEntry) (st : option Q * option Q)
    (key : string) : option Q * option Q :=
  match dictGet key plots with
  | Some item =>
    fold_left (fun st1 s => fold_left sizePointStep (s_points s) st1)
      (block_size_series item) st
  | None => st
  end.

(** [computeGlobalBlockSizeRange()]: the new values of
    [globalMinBlockSize] and [globalMaxBlockSize]. *)
Definition computeGlobalBlockSizeRange (plots : Dict PlotEntry) : Q * Q :=
  let st := fold_left (sizeKeyStep plots) (dictKeys plots) (None, None) in
  (match fst st with None => 0 | Some x => x end,
   match snd st with None => 0 | Some x => x end).

(** A running minimum [lo] and maximum [hi] of [f] over the points
    [seen]. *)
Definition rangeOf (seen : Point -> Prop) (f : Point -> Q)
    (lo hi : option Q) : Prop :=
  match lo with
  | None => forall p, ~ seen p
  | Some m => (forall p, seen p -> m <= f p) /\ exists p, seen p /\ f p = m
  end /\
  match hi with
  | None => forall p, ~ seen p
  | Some m => (forall p, seen p -> f p <= m) /\ exists p, seen p /\ f p = m
  end.

(** The points of the series [pick] selects from the entries of
    [plots]. *)
Definition plottedIn (pick : PlotEntry -> list Series)
    (plots : Dict PlotEntry) (p : Point) : Prop :=
  exists key item s,
    dictGet key plots = Some item /\ In s (pick item) /\ In p (s_points s).

(** ** Per-block index of the drill-down view *)

(** A record as kept in [blockMap]. *)
Record BlockRecord : Type := {
  br_start_sec : Q;
  br_end_sec : Q;
  br_duration_sec : Q;
  br_stage : option string;
  br_type : option string;
  br_called_from : option string;
  br_node_id : option string
}.

(** [blockMeta]: [{ block_id, size_bytes, records }]. *)
Record BlockMeta : Type := {
  bm_block_id : BlockId;
  bm_size_bytes : option Q;
  bm_records : list BlockRecord
}.

Definition blockRecordOf (d : Decoded) (nodeId : option string)
  : BlockRecord :=
  {| br_start_sec := start_sec (d_rec d);
     br_end_sec := end_sec (d_rec d);
     br_duration_sec := duration_sec (d_rec d);
     br_stage := stage (d_rec d);
     br_type := d_type d;
     br_called_from := d_called_from d;
     br_node_id := nodeId |}.

(** [typeof originalSize === "number" && originalSize > 0] *)
Definition positiveSize (size : option Q) : option Q :=
  match size with
  | Some o => if Qltb 0 o then Some o else None
  | None => None
  end.

(** The [blockMap] part of the record loop, for a decoded record. *)
Definition addToBlockMap (blockId : BlockId) (d : Decoded)
    (nodeId : option string) (blockMap : list (BlockId * BlockMeta))
  : list (BlockId * BlockMeta) :=
  let blockMeta :=
    match assocGet String.eqb blockId blockMap with
    | Some m => m
    | None => {| bm_block_id := blockId; bm_size_bytes := None;
                 bm_records := [] |}
    end in
  let size :=
    match bm_size_bytes blockMeta with
    | None => positiveSize (original_size (d_rec d))
    | Some s => Some s
    end in
  assocSet String.eqb blockId
    {| bm_block_id := bm_block_id blockMeta;
       bm_size_bytes := size;
       bm_records := bm_records blockMeta ++ [blockRecordOf d nodeId] |}
    blockMap.

(** [nodeMap[rec[recIdx.node_idx]]] *)
Definition nodeIdOf (recIdx : Dict nat) (nodeMap : list string)
    (rec : list Cell) : option string :=
  lookupByCell nodeMap (fieldOf recIdx "node_idx" rec).

(** One turn of [for (const rec of records)], as far as [blockMap] goes. *)
Definition blockMapRecordStep (ts0 : Q) (recIdx sizeIdx : Dict nat)
    (payload : Payload) (nodeMap : list string) (blockEntry : BlockEntry)
    (blockMap : list (BlockId * BlockMeta)) (rec : list Cell)
  : list (BlockId * BlockMeta) :=
  match decodeRecord ts0 recIdx sizeIdx payload (be_size_map blockEntry) rec
  with
  | None => blockMap
  | Some d =>
    addToBlockMap (be_block_id blockEntry) d (nodeIdOf recIdx nodeMap rec)
      blockMap
  end.

Definition decodeBlockMap (ts0 : Q) (recIdx sizeIdx : Dict nat)
    (payload : Payload) (nodeMap : list string) (blocks : list BlockEntry)
  : list (BlockId * BlockMeta) :=
  fold_left (fun blockMap blockEntry =>
               fold_left
                 (blockMapRecordStep ts0 recIdx sizeIdx payload nodeMap
                    blockEntry)
                 (be_records blockEntry) blockMap)
    blocks [].

(** An element of the decoder's [blocks] output. *)
Record BlockInfo : Type := {
  bi_block_id : BlockId;
  bi_size_bytes : option Q;
  bi_start_sec : Q;
  bi_end_sec : Q;
  bi_duration_sec : Q;
  bi_records : list BlockRecord
}.

(** [records.slice().sort((a, b) => a.start_sec - b.start_sec)] *)
Definition sortBlockRecords (records : list BlockRecord) : list BlockRecord :=
  stableSort (fun a b => Qle_bool (br_start_sec a) (br_start_sec b)) records.

(** [{ ...rec, start_sec: rec.start_sec - earliestSec, end_sec:
    rec.end_sec - earliestSec }] *)
Definition shiftRecord (earliest : Q) (rec : BlockRecord) : BlockRecord :=
  {| br_start_sec := br_start_sec rec - earliest;
     br_end_sec := br_end_sec rec - earliest;
     br_duration_sec := br_duration_sec rec;
     br_stage := br_stage rec;
     br_type := br_type rec;
     br_called_from := br_called_from rec;
     br_node_id := br_node_id rec |}.

(** The callback of [Array.from(blockMap.values()).map]; [None] is the
    [null] that [.filter(Boolean)] drops. *)
Definition blockInfoOf (earliest : Q) (block : BlockMeta)
  : option BlockInfo :=
  match sortBlockRecords (bm_records block) with
  | [] => None
  | r :: rs =>
    let startSec := mathMin (br_start_sec r) (map br_start_sec rs) in
    let endSec := mathMax (br_end_sec r) (map br_end_sec rs) in
    Some {| bi_block_id := bm_block_id block;
            bi_size_bytes := bm_size_bytes block;
            bi_start_sec := startSec - earliest;
            bi_end_sec := endSec - earliest;
            bi_duration_sec := endSec - startSec;
            bi_records := map (shiftRecord earliest) (r :: rs) |}
  end.

Definition blocksOutput (earliest : Q) (blockMap : list (BlockId * BlockMeta))
  : list BlockInfo :=
  flat_map (fun entry => match blockInfoOf earliest (snd entry) with
                         | Some b => [b]
                         | None => []
                         end) blockMap.

(** The [blocks] field of [computeStatsFromCompressed(payload, _)], for a
    payload whose [maps.node_id] is [nodeMap]; [None] when the result has
    no such field. *)
Definition blocksFromCompressed `{JsHost} (payload : Payload)
    (nodeMap : list string) : option (list BlockInfo) :=
  let recIdx := recIdxOf payload in
  let sizeIdx := sizeIdxOf payload in
  match p_blocks payload, parseTs0 payload with
  | Some blocks, Some ts0 =>
    match earliestSec (decodeBlocks ts0 recIdx sizeIdx payload blocks) with
    | None => None
    | Some earliest =>
      Some (blocksOutput earliest
              (decodeBlockMap ts0 recIdx sizeIdx payload nodeMap blocks))
    end
  | _, _ => None
  end.

(** What [buildBlocksData] reads of an experiment: its name,
    [stats.earliest_ts_global] and [stats.blocks]. *)
Record BlocksExperiment : Type := {
  bx_name : string;
  bx_base_ts : option string;
  bx_blocks : option (list BlockInfo)
}.

(** An element of [BLOCKS_DATA]: [{ ...block, key, experiment, base_ts,
    signature_durations }]. *)
Record UiBlock : Type := {
  ub_block : BlockInfo;
  ub_key : string;
  ub_experiment : string;
  ub_base_ts : option string;
  signature_durations : Dict Q
}.

(** One turn of the loop that fills [signatureStats]; a pair holds
    [sig.min] and [sig.max]. *)
Definition signatureStep (signatureStats : Dict (Q * Q)) (rec : BlockRecord)
  : Dict (Q * Q) :=
  let sigKey := categoryKey (br_type rec) (br_called_from rec) in
  match dictGet sigKey signatureStats with
  | None =>
    dictSet sigKey (br_start_sec rec, br_end_sec rec) signatureStats
  | Some sig =>
    dictSet sigKey
      (if Qltb (br_start_sec rec) (fst sig) then br_start_sec rec
       else fst sig,
       if Qltb (snd sig) (br_end_sec rec) then br_end_sec rec else snd sig)
      signatureStats
  end.

(** The loop that fills [signatureDurations]. *)
Definition durationStep (signatureDurations : Dict Q)
    (entry : string * (Q * Q)) : Dict Q :=
  let dur := snd (snd entry) - fst (snd entry) in
  if Qle_bool 0 dur then dictSet (fst entry) dur signatureDurations
  else signatureDurations.

Definition signatureDurationsOf (records : list BlockRecord) : Dict Q :=
  fold_left durationStep (fold_left signatureStep records []) [].

(** [buildBlocksData(experiments)] *)
Definition buildBlocksData (experiments : list BlocksExperiment)
  : list UiBlock :=
  flat_map
    (fun exp =>
       let expBlocks := match bx_blocks exp with
                        | Some l => l
                        | None => []
                        end in
       map (fun block =>
              {| ub_block := block;
                 ub_key := (bx_name exp ++ "__" ++ bi_block_id block)%string;
                 ub_experiment := bx_name exp;
                 ub_base_ts := bx_base_ts exp;
                 signature_durations :=
                   signatureDurationsOf (bi_records block) |})
         expBlocks)
    experiments.

(** The callback of [BLOCKS_DATA.filter] in [getFilteredBlocks]. *)
Definition passesBlockFilters (fs : FilterState) (blocksFilterKey : string)
    (block : UiBlock) : bool :=
  let hasSizeFilter := negb (sizeFilterOff fs) in
  if hasSizeFilter
     && match bi_size_bytes (ub_block block) with
        | None => true
        | Some size => Qeq_bool size 0 || Qltb size (minBlockSizeBytes fs)
        end
  then false
  else if Qltb (bi_end_sec (ub_block block)) (rangeMinT fs)
          || Qltb (rangeMaxT fs) (bi_start_sec (ub_block block))
  then false
  else if negb (String.eqb blocksFilterKey "all") then
    match dictGet blocksFilterKey (signature_durations block) with
    | Some _ => true
    | None => false
    end
  else true.

(** [getFilteredBlocks()] over the globals [BLOCKS_DATA] and
    [BLOCKS_FILTER_KEY]. *)
Definition getFilteredBlocks (fs : FilterState) (blocksFilterKey : string)
    (blocksData : list UiBlock) : list UiBlock :=
  filter (passesBlockFilters fs blocksFilterKey) blocksData.

(** [aDur], [bDur] of the comparator in [renderBlocksList]. *)
Definition sortDuration (blocksFilterKey : string) (block : UiBlock) : Q :=
  if String.eqb blocksFilterKey "all" then bi_duration_sec (ub_block block)
  else match dictGet blocksFilterKey (signature_durations block) with
       | Some d => d
       | None => 0
       end.

(** The comparator of [renderBlocksList], as "does not put [b] strictly
    before [a]". *)
Definition blockOrderLeb `{JsHost} (blocksFilterKey : string)
    (a b : UiBlock) : bool :=
  let diff := sortDuration blocksFilterKey b - sortDuration blocksFilterKey a
  in
  if negb (Qeq_bool diff 0) then Qltb diff 0
  else match localeCompare (bi_block_id (ub_block a))
               (bi_block_id (ub_block b)) with
       | Gt => false
       | _ => true
       end.

(** The new value of [VISIBLE_BLOCKS] after [renderBlocksList()]: the
    custom tab leaves it alone. *)
Definition renderBlocksList `{JsHost} (fs : FilterState)
    (blocksFilterKey : string) (blocksData visibleBlocks : list UiBlock)
  : list UiBlock :=
  if String.eqb blocksFilterKey "custom" then visibleBlocks
  else
    let filtered :=
      stableSort (blockOrderLeb blocksFilterKey)
        (getFilteredBlocks fs blocksFilterKey blocksData) in
    firstn 25 filtered.

(** The records of a block under the signature [sigKey]. *)
Definition sigRecords (sigKey : string) (records : list BlockRecord)
  : list BlockRecord :=
  filter (fun r => String.eqb (categoryKey (br_type r) (br_called_from r))
                     sigKey) records.

(** [lo] and [hi] are the earliest start and the latest end among the
    records [recs], each attained by one of them. *)
Definition spanOf (recs : list BlockRecord) (lo hi : Q) : Prop :=
  (exists r, In r recs /\ br_start_sec r = lo) /\
  (exists r, In r recs /\ br_end_sec r = hi) /\
  forall r, In r recs -> lo <= br_start_sec r /\ br_end_sec r <= hi.

(** What [blockMap] holds after the decoded records [processed], each
    given with its block id and node id. *)
Definition recordsOfBlock (id : BlockId)
    (processed : list (BlockId * Decoded * option string))
  : list BlockRecord :=
  map (fun x => blockRecordOf (snd (fst x)) (snd x))
    (filter (fun x => String.eqb (fst (fst x)) id) processed).
Definition firstPositiveSize (id : BlockId)
    (processed : list (BlockId * Decoded * option string)) : option Q :=
  hd_error
    (flat_map (fun x => match positiveSize (original_size (d_rec (snd (fst x))))
                        with Some o => [o] | None => [] end)
       (filter (fun x => String.eqb (fst (fst x)) id) processed)).
Definition blockMapReflects (blockMap : list (BlockId * BlockMeta))
    (processed : list (BlockId * Decoded * option string)) : Prop :=
  NoDup (map fst blockMap) /\
  forall id,
    match assocGet String.eqb id blockMap with
    | Some m =>
      bm_block_id m = id /\
      bm_records m = recordsOfBlock id processed /\
      bm_records m <> [] /\
      bm_size_bytes m = firstPositiveSize id processed
    | None => recordsOfBlock id processed = []
    end.

(** The decoded records of a payload in payload order, each with its block
    id and node id. *)
Definition decodedNodesOf (ts0 : Q) (recIdx sizeIdx : Dict nat)
    (payload : Payload) (nodeMap : list string) (blocks : list BlockEntry)
  : list (BlockId * Decoded * option string) :=
  flat_map (fun blockEntry =>
              flat_map (fun rec =>
                          match decodeRecord ts0 recIdx sizeIdx payload
                                  (be_size_map blockEntry) rec with
                          | Some d => [(be_block_id blockEntry, d,
                                        nodeIdOf recIdx nodeMap rec)]
                          | None => []
                          end)
                (be_records blockEntry))
    blocks.

(** What [signatureStats] holds after the records [seen]. *)
Definition signaturesReflect (signatureStats : Dict (Q * Q))
    (seen : list BlockRecord) : Prop :=
  NoDup (dictKeys signatureStats) /\
  forall k,
    match dictGet k signatureStats with
    | Some sig => spanOf (sigRecords k seen) (fst sig) (snd sig)
    | None => sigRecords k seen = []
    end.

(** ** Timeline: dragging the handles of the time window *)

(** The globals the timeline reads and writes, after the global range has
    been computed. *)
Record Timeline : Type := {
  tl_globalMinT : Q;
  tl_globalMaxT : Q;
  tl_rangeMinT : Q;
  tl_rangeMaxT : Q
}.

Inductive Handle : Type := HandleLeft | HandleRight.

(** [onMove(e)] while the handle [dragging] is held; [ratio] is [x /
    rect.width], the pointer's place along the track. *)
Definition onMove (dragging : Handle) (ratio : Q) (tl : Timeline)
  : Timeline :=
  let pct := numMax 0 (numMin 1 ratio) in
  let t := tl_globalMinT tl + pct * (tl_globalMaxT tl - tl_globalMinT tl) in
  match dragging with
  | HandleLeft =>
    {| tl_globalMinT := tl_globalMinT tl;
       tl_globalMaxT := tl_globalMaxT tl;
       tl_rangeMinT := numMin t (tl_rangeMaxT tl - 1);
       tl_rangeMaxT := tl_rangeMaxT tl |}
  | HandleRight =>
    {| tl_globalMinT := tl_globalMinT tl;
       tl_globalMaxT := tl_globalMaxT tl;
       tl_rangeMinT := tl_rangeMinT tl;
       tl_rangeMaxT := numMax t (tl_rangeMinT tl + 1) |}
  end.

(** The pixel positions [leftPx] and [rightPx] that
    [updateTimelineHandles] computes; [None] when it returns early. *)
Definition handlePositions (trackWidth : Q) (tl : Timeline)
  : option (Q * Q) :=
  let range := tl_globalMaxT tl - tl_globalMinT tl in
  if Qle_bool range 0 then None
  else
    let leftPct := (tl_rangeMinT tl - tl_globalMinT tl) / range in
    let rightPct := (tl_rangeMaxT tl - tl_globalMinT tl) / range in
    Some (leftPct * trackWidth, rightPct * trackWidth).

(** [pair.block_size_by_id || {}] for key [k] of an experiment, or [{}]
    when the experiment lacks the category. *)
Definition sizeTableFor (k : string) (exp : Experiment) : Dict Q :=
  match dictGet k (type_called_from_stats (exp_stats exp)) with
  | Some cat => block_size_by_id cat
  | None => []
  end.

(** ** Reading a property of an object literal *)

(** The property names an object created by [{}] inherits from
    [Object.prototype]. *)
Definition objectPrototypeNames : list string :=
  ["__proto__"; "constructor"; "hasOwnProperty"; "isPrototypeOf";
   "propertyIsEnumerable"; "toLocaleString"; "toString"; "valueOf";
   "__defineGetter__"; "__defineSetter__"; "__lookupGetter__";
   "__lookupSetter__"]%string.

(** What [o[k]] reads: an own property, else a value inherited from the
    prototype (a function, or the prototype itself), else [undefined]. *)
Inductive Property (V : Type) : Type :=
| OwnValue (v : V)
| InheritedValue
| NoValue.
Arguments OwnValue {V} v.
Arguments InheritedValue {V}.
Arguments NoValue {V}.

Definition objGet {V : Type} (k : string) (o : Dict V) : Property V :=
  match dictGet k o with
  | Some v => OwnValue v
  | None =>
    if existsb (String.eqb k) objectPrototypeNames then InheritedValue
    else NoValue
  end.

(** ** Labels *)

(** [str.slice(0, n)] and [str.slice(-n)] for a non-negative count. *)
Definition sliceHead (n : Z) (str : string) : string :=
  substring 0 (Z.to_nat n) str.
Definition sliceTail (n : Z) (str : string) : string :=
  substring (String.length str - Z.to_nat n) (Z.to_nat n) str.

(** [trimBlockId(id, maxLen)] for an id that is a string, [null] or
    [undefined], and an integer [maxLen]. *)
Definition trimBlockId (id : option string) (maxLen : Z) : string :=
  match id with
  | None => "--"
  | Some EmptyString => "--"
  | Some str =>
    if (Z.of_nat (String.length str) <=? maxLen)%Z then str
    else
      let head := Z.max 3 (Qceiling ((inject_Z maxLen - 3) / 2)) in
      let tail := Z.max 3 (Qfloor ((inject_Z maxLen - 3) / 2)) in
      (sliceHead head str ++ "..." ++ sliceTail tail str)%string
  end.

(** ** Plot traces *)

(** [p => [p[0], p[1] * valueScale, p[2]]]; a missing third element stays
    missing. *)
Definition scalePoint (valueScale : Q) (p : Point) : Point :=
  match p with
  | Point3 t v b => Point3 t (v * valueScale) b
  | Point2 t v => Point2 t (v * valueScale)
  end.

(** [secsToDate(s.base_ts, secs)] as milliseconds since the epoch, [None]
    for an invalid date. *)
Definition secsToDate `{JsHost} (baseTsStr : option string) (secs : Q)
  : option Q :=
  match baseTsStr with
  | None => Some (secs * 1000)
  | Some EmptyString => Some (secs * 1000)
  | Some ts =>
    match Date_parse ts with
    | Some baseMs => Some (baseMs + secs * 1000)
    | None => None
    end
  end.

(** A point on the x axis: seconds, or a date. *)
Inductive XValue : Type :=
| XSeconds (t : Q)
| XDate (ms : option Q).

(** The [x] and [y] arrays of the trace that [plotSeriesMulti] builds for
    the series [s] with the size table [blockSizeById]. *)
Definition traceOf `{JsHost} (fs : FilterState) (averagingWindowSec : Q)
    (useAbsoluteTime : bool) (valueScale : Q) (s : Series)
    (blockSizeById : Dict Q) : list XValue * list Q :=
  let ptsRaw := s_points s in
  let scaled := if Qeq_bool valueScale 1 then ptsRaw
                else map (scalePoint valueScale) ptsRaw in
  let pts := aggregatePoints fs scaled averagingWindowSec blockSizeById in
  let x := if useAbsoluteTime
           then map (fun p => XDate (secsToDate (s_base_ts s) (pointT p))) pts
           else map (fun p => XSeconds (pointT p)) pts in
  let y := map pointV pts in
  (x, y).

(** [traces] of [plotSeriesMulti], one per series. *)
Definition tracesOf `{JsHost} (fs : FilterState) (averagingWindowSec : Q)
    (useAbsoluteTime : bool) (valueScale : Q) (seriesList : list Series)
    (blockSizeByIdSeries : list (Dict Q))
  : list (string * (list XValue * list Q)) :=
  map (fun idx_s =>
         let blockSizeById :=
           match nth_error blockSizeByIdSeries (fst idx_s) with
           | Some sizes => sizes
           | None => []
           end in
         (s_name (snd idx_s),
          traceOf fs averagingWindowSec useAbsoluteTime valueScale
            (snd idx_s) blockSizeById))
    (combine (seq 0 (length seriesList)) seriesList).

(** A point against its counterpart for values scaled by [s]. *)
Definition pointScaled (s : Q) (p' p : Point) : Prop :=
  pointT p' = pointT p /\ pointV p' == pointV p * s.

(** [a % n] on numbers: the remainder has the sign of the dividend. *)
Definition jsRem (a n : Q) : Q :=
  a - n * inject_Z (if Qle_bool 0 (a / n) then Qfloor (a / n)
                    else Qceiling (a / n)).

(** The locals [h], [m] and [s] of [formatDuration(seconds)]. *)
Definition durationParts (seconds : Q) : Z * Z * Z :=
  (Qfloor (seconds / 3600),
   Qfloor (jsRem seconds 3600 / 60),
   Qfloor (jsRem seconds 60)).

(** An integer inside a template string. *)
Definition showInt (z : Z) : string :=
  DecimalString.NilZero.string_of_int (Z.to_int z).

(** [formatDuration(seconds)] *)
Definition formatDuration (seconds : Q) : string :=
  let h := fst (fst (durationParts seconds)) in
  let m := snd (fst (durationParts seconds)) in
  let s := snd (durationParts seconds) in
  if (0 <? h)%Z then
    (showInt h ++ "h " ++ showInt m ++ "m " ++ showInt s ++ "s")%string
  else if (0 <? m)%Z then
    (showInt m ++ "m " ++ showInt s ++ "s")%string
  else (showInt s ++ "s")%string.

(** ** Controls: the size threshold *)

(** [Number(text) || 0], where [None] is a text that [Number] turns into
    [NaN]. *)
Definition numberOrZero (n : option Q) : Q :=
  match n with Some q => q | None => 0 end.

(** [Math.round(x)] *)
Definition mathRound (x : Q) : Z := Qfloor (x + (1 # 2)).

(** [maxKb] of [initializeUI], the [max] given to the size slider. *)
Definition sliderMaxKb (plots : Dict PlotEntry) : Z :=
  Qceiling (snd (computeGlobalBlockSizeRange plots) / 1024).

(** [applyBlockSizeChange(val)]: the new filter state, [rangeMax] being
    [Number(blockSizeRange.max)] and [val] the number in the input. *)
Definition applyBlockSizeChange (rangeMax val : option Q) (fs : FilterState)
  : FilterState :=
  let maxKb := numMax 0 (numberOrZero rangeMax) in
  let v := numMax 0 (numMin maxKb (numberOrZero val)) in
  {| minBlockSizeBytes := inject_Z (mathRound (v * 1024));
     rangeMinT := rangeMinT fs;
     rangeMaxT := rangeMaxT fs;
     trimEdges := trimEdges fs |}.

(** ** Sample data *)

Section Samples.
Local Open Scope string_scope.

(** The entry of the specification's visibility sample: one experiment
  with a 500-byte block, another with a 2000-byte block. *)
Definition mixedSizesEntry : PlotEntry :=
{| pe_label := "T";
   block_size_by_id_series := [[("a", 500)]; [("b", 2000)]];
   block_size_series :=
     [ {| s_name := "A"; s_base_ts := None;
          s_points := [Point3 0 500 "a"] |};
       {| s_name := "B"; s_base_ts := None;
          s_points := [Point3 0 2000 "b"] |} ];
   compression_percent_series := [];
   broadcast_time_avg_series := [];
   broadcast_time_full_series := [];
   broadcast_time_66p_series := [];
   compression_time_series := [];
   decompression_time_series := [] |}.

Definition minSize1000 : FilterState :=
{| minBlockSizeBytes := 1000; rangeMinT := 0; rangeMaxT := 1;
   trimEdges := true |}.


(** A series spanning the times 0 to 1000, and the filter state with an
  open size filter over that window. *)
Definition span1000 : list Point :=
[Point3 0 1 "b0"; Point3 100 2 "b1"; Point3 300 3 "b2"; Point3 500 4 "b3";
 Point3 880 5 "b4"; Point3 900 6 "b5"; Point3 1000 7 "b6"].
Definition trimOnState : FilterState :=
{| minBlockSizeBytes := 0; rangeMinT := 0; rangeMaxT := 1000;
   trimEdges := true |}.
Definition trimOffState : FilterState :=
{| minBlockSizeBytes := 0; rangeMinT := 0; rangeMaxT := 1000;
   trimEdges := false |}.

(** A single block of 2000 bytes under a threshold of 1000 bytes, without
  edge trimming. *)
Definition oneBigBlock : list Point := [Point3 0 1 "a"].
Definition oneBigBlockSizes : Dict Q := [("a", 2000)].
Definition minSize1000Untrimmed : FilterState :=
{| minBlockSizeBytes := 1000; rangeMinT := 0; rangeMaxT := 1000;
   trimEdges := false |}.

(** Three blocks out of time order, one of them under the threshold. *)
Definition sizedPoints : list Point :=
[Point3 300 2 "b"; Point3 100 1 "a"; Point3 200 3 "c"].
Definition sizedTable : Dict Q := [("a", 500); ("b", 2000); ("c", 1500)].

(** A host whose [localeCompare] is the code-point order. *)
Definition sampleHost : JsHost :=
{| Date_parse := fun s =>
     if String.eqb s "1970-01-01T00:00:00Z" then Some 0 else None;
   formatLocalIso := fun _ => "1970-01-01T00:00:00.000";
   localeCompare := String.compare |}.

(** A host that collates as dictionaries do: letters are compared without
  regard to case first, and a lower-case letter goes before its upper-case
  form. *)
Definition foldCase (c : ascii) : ascii :=
  let n := nat_of_ascii c in
  if Nat.leb 65 n && Nat.leb n 90 then ascii_of_nat (n + 32) else c.
Fixpoint foldCaseString (s : string) : string :=
  match s with
  | EmptyString => EmptyString
  | String c rest => String (foldCase c) (foldCaseString rest)
  end.
Definition caseFirstCompare (a b : string) : comparison :=
  match String.compare (foldCaseString a) (foldCaseString b) with
  | Eq => String.compare b a
  | c => c
  end.
Definition collatingHost : JsHost :=
{| Date_parse := fun _ => None;
   formatLocalIso := fun _ => EmptyString;
   localeCompare := caseFirstCompare |}.

(** Experiment A has category X; experiment B has categories X and Y. *)
Definition statsOf (type : string) (points : list Point) : CategoryStats :=
{| cs_type := Some type; cs_called_from := None; num_blocks := 1;
   block_size_points := points; compression_percent_points := [];
   broadcast_time_avg_points := []; broadcast_time_full_points := [];
   broadcast_time_66p_points := []; compression_time_points := [];
   decompression_time_points := []; block_size_by_id := [] |}.
Definition experimentA : Experiment :=
{| exp_name := "A";
   exp_stats :=
     {| experiment_name := "A";
        earliest_ts_global := Some "2024-01-01T00:00:00.000";
        type_called_from_stats :=
          [("X__None", statsOf "X" [Point3 0 10 "a1"])] |} |}.
Definition experimentB : Experiment :=
{| exp_name := "B";
   exp_stats :=
     {| experiment_name := "B";
        earliest_ts_global := Some "2024-02-02T00:00:00.000";
        type_called_from_stats :=
          [("Y__None", statsOf "Y" [Point3 1 20 "b1"]);
           ("X__None", statsOf "X" [Point3 2 30 "b2"])] |} |}.

(** Two experiments with one category each, of types "a" and "B". *)
Definition experimentLower : Experiment :=
{| exp_name := "L";
   exp_stats :=
     {| experiment_name := "L"; earliest_ts_global := None;
        type_called_from_stats := [("a__None", statsOf "a" [])] |} |}.
Definition experimentUpper : Experiment :=
{| exp_name := "U";
   exp_stats :=
     {| experiment_name := "U"; earliest_ts_global := None;
        type_called_from_stats := [("B__None", statsOf "B" [])] |} |}.

(** The block of the specification: compress records starting at 10 and
  12, decompress records ending at 20, 25 and 30. *)
Definition stageRecord (name : string) (from to : Q) : GroupedRecord :=
{| start_sec := from; end_sec := to; duration_sec := to - from;
   stage := Some name; original_size := None; compressed_size := None |}.
Definition sampleBlockRecords : list GroupedRecord :=
[stageRecord "decompress" 19 20; stageRecord "compress" 12 13;
 stageRecord "decompress" 24 25; stageRecord "compress" 10 11;
 stageRecord "decompress" 29 30].

(** A payload whose records stop before [duration_us], and one with a
  complete block: compress from 0 s to 1 s, decompress from 2 s to 3 s,
  100 bytes compressed to 40. *)
Definition payloadWith (blocks : option (list BlockEntry)) : Payload :=
{| p_experiment_name := None;
   p_ts0 := Some "1970-01-01T00:00:00Z";
   p_record_fields := None;
   p_size_fields := None;
   p_maps_stage := ["compress"; "decompress"];
   p_maps_type := ["T"];
   p_maps_called_from := ["O"];
   p_blocks := blocks |}.
Definition shortRecordsBlock : BlockEntry :=
{| be_block_id := "b1";
   be_size_map := [[CNum 100; CNum 40]];
   be_records := [[CNum 0; CNum 0]; [CNum 0]] |}.
Definition completeBlock : BlockEntry :=
{| be_block_id := "b2";
   be_size_map := [[CNum 100; CNum 40]];
   be_records :=
     [[CNum 0; CNum 0; CNum 1000000; CNum 0; CNum 0; CNum 0; CNull; CNum 0];
      [CNum 1; CNum 2000000; CNum 1000000; CNum 1; CNum 0; CNum 0; CNull;
       CNum 0]] |}.
(** The same block under the id of the prototype accessor. *)
Definition protoBlock : BlockEntry :=
{| be_block_id := "__proto__";
   be_size_map := be_size_map completeBlock;
   be_records := be_records completeBlock |}.
(** The same payloads as parsed: records that stop before [duration_us],
  and a [null] after a complete block. *)
Definition parsedWith (blocks : option (list (option RawBlockEntry)))
  : RawPayload :=
{| rp_experiment_name := None;
   rp_ts0 := Some "1970-01-01T00:00:00Z";
   rp_record_fields := None;
   rp_size_fields := None;
   rp_maps_stage := ["compress"; "decompress"];
   rp_maps_type := ["T"];
   rp_maps_called_from := ["O"];
   rp_blocks := blocks |}.
Definition parsedEntry (blockEntry : BlockEntry) : RawBlockEntry :=
{| rbe_block_id := be_block_id blockEntry;
   rbe_size_map := be_size_map blockEntry;
   rbe_records := RecordsArray (map Some (be_records blockEntry)) |}.
(** A block with a compress record only. *)
Definition compressOnlyBlock : BlockEntry :=
{| be_block_id := "b3";
   be_size_map := [[CNum 100; CNum 40]];
   be_records :=
     [[CNum 0; CNum 500000; CNum 1000000; CNum 0; CNum 0; CNum 0; CNull;
       CNum 0]] |}.

(** The averages input of one experiment whose block-size points are the
  series spanning 0 to 1000. *)
Definition spanPairData : PairData :=
{| pd_block_size_points := span1000;
   pd_compression_percent_points := [];
   pd_broadcast_time_avg_points := [];
   pd_broadcast_time_full_points := [];
   pd_broadcast_time_66p_points := [];
   pd_compression_time_points := [];
   pd_decompression_time_points := [];
   pd_block_size_by_id := [] |}.

(** Three blocks of one experiment, lasting 1, 3 and 2 seconds. *)
Definition blockLasting (id : BlockId) (from to : Q) : UiBlock :=
{| ub_block :=
     {| bi_block_id := id; bi_size_bytes := Some 2000;
        bi_start_sec := from; bi_end_sec := to;
        bi_duration_sec := to - from; bi_records := [] |};
   ub_key := "A__" ++ id; ub_experiment := "A"; ub_base_ts := None;
   signature_durations := [] |}.
Definition threeBlocks : list UiBlock :=
[blockLasting "x" 0 1; blockLasting "y" 1 4; blockLasting "z" 2 4].

(** A block with two records of category T__O, from 1 to 2 and from 0 to
  5 seconds, and the experiment holding it. *)
Definition recordOfT (from to : Q) : BlockRecord :=
{| br_start_sec := from; br_end_sec := to; br_duration_sec := to - from;
   br_stage := Some "compress"; br_type := Some "T";
   br_called_from := Some "O"; br_node_id := None |}.
Definition twoRecordBlock : BlockInfo :=
{| bi_block_id := "b"; bi_size_bytes := Some 100;
   bi_start_sec := 0; bi_end_sec := 5; bi_duration_sec := 5;
   bi_records := [recordOfT 1 2; recordOfT 0 5] |}.
Definition blocksExperimentA : BlocksExperiment :=
{| bx_name := "A"; bx_base_ts := None; bx_blocks := Some [twoRecordBlock] |}.

(** The timeline over a global range of 0 to 1000 seconds with everything
  selected. *)
Definition fullTimeline : Timeline :=
{| tl_globalMinT := 0; tl_globalMaxT := 1000;
   tl_rangeMinT := 0; tl_rangeMaxT := 1000 |}.

(** A size threshold of 50 bytes over the whole time range. *)
Definition minSize50 : FilterState :=
{| minBlockSizeBytes := 50; rangeMinT := 0; rangeMaxT := 1000;
   trimEdges := false |}.

(** An experiment decoded from a payload whose only block is named
  "__proto__". *)
Definition protoExperiment : Experiment :=
{| exp_name := "P";
   exp_stats :=
     @computeStatsFromCompressed sampleHost
       (payloadWith (Some [protoBlock])) None |}.

(** An experiment decoded from the payload with one complete block. *)
Definition decodedExperiment : Experiment :=
{| exp_name := "A";
   exp_stats :=
     @computeStatsFromCompressed sampleHost
       (payloadWith (Some [completeBlock; compressOnlyBlock])) None |}.

(** * Properties *)

(** ** Facts about stable sorting *)

Section StableSortFacts.
Context {A : Type}.
Variable leb : A -> A -> bool.

Lemma insertSorted_perm x l : Permutation (insertSorted leb x l) (x :: l).
Proof.
  induction l as [|y l IH]; simpl; [reflexivity|].
  destruct (leb x y); [reflexivity|].
  rewrite IH. apply perm_swap.
Qed.

Lemma stableSort_perm l : Permutation (stableSort leb l) l.
Proof.
  induction l as [|x l IH]; simpl; [constructor|].
  rewrite insertSorted_perm. now constructor.
Qed.

Lemma stableSort_length l : length (stableSort leb l) = length l.
Proof. apply Permutation_length, stableSort_perm. Qed.

Lemma stableSort_In x l : In x (stableSort leb l) <-> In x l.
Proof.
  split; apply Permutation_in; [|symmetry]; apply stableSort_perm.
Qed.

(** Sorting an arrangement that is already in order changes nothing. *)
Lemma stableSort_sorted_id l :
  Sorted (fun a b => leb a b = true) l -> stableSort leb l = l.
Proof.
  induction 1 as [|x l Hs IH Hd]; simpl; [reflexivity|].
  rewrite IH. destruct Hd as [|y l Hxy]; simpl; [reflexivity|].
  now rewrite Hxy.
Qed.

Hypothesis leb_total : forall x y, leb x y = false -> leb y x = true.
Hypothesis leb_trans :
  forall x y z, leb x y = true -> leb y z = true -> leb x z = true.

Lemma insertSorted_sorted x l :
  StronglySorted (fun a b => leb a b = true) l ->
  StronglySorted (fun a b => leb a b = true) (insertSorted leb x l).
Proof.
  induction 1 as [|y l Hs IH Hall]; simpl.
  - repeat constructor.
  - destruct (leb x y) eqn:E.
    + constructor; [now constructor|].
      constructor; [exact E|].
      eapply Forall_impl; [|exact Hall]. intros z Hz. eauto.
    + constructor; [exact IH|].
      apply Forall_forall. intros z Hz.
      apply (Permutation_in _ (insertSorted_perm x l)) in Hz.
      destruct Hz as [<-|Hz]; [now apply leb_total|].
      rewrite Forall_forall in Hall. now apply Hall.
Qed.

Lemma stableSort_sorted l :
  StronglySorted (fun a b => leb a b = true) (stableSort leb l).
Proof.
  induction l as [|x l IH]; simpl; [constructor|].
  now apply insertSorted_sorted.
Qed.
End StableSortFacts.

Lemma Qle_bool_total x y : Qle_bool x y = false -> Qle_bool y x = true.
Proof.
  intros H. apply Qle_bool_iff.
  destruct (Qlt_le_dec y x) as [Hlt|Hle].
  - now apply Qlt_le_weak.
  - apply Qle_bool_iff in Hle. congruence.
Qed.

Lemma Qle_bool_trans x y z :
  Qle_bool x y = true -> Qle_bool y z = true -> Qle_bool x z = true.
Proof.
  rewrite !Qle_bool_iff. apply Qle_trans.
Qed.

Lemma Qltb_lt x y : Qltb x y = true <-> x < y.
Proof.
  unfold Qltb. rewrite negb_true_iff. split.
  - intros H. apply Qnot_le_lt. intros Hle.
    apply Qle_bool_iff in Hle. congruence.
  - intros H. destruct (Qle_bool y x) eqn:E; [|reflexivity].
    apply Qle_bool_iff in E. exfalso. revert H. now apply Qle_not_lt.
Qed.

Lemma Qltb_ge x y : Qltb x y = false <-> y <= x.
Proof.
  unfold Qltb. rewrite negb_false_iff. apply Qle_bool_iff.
Qed.

Lemma sortNumbers_sorted values : StronglySorted Qle (sortNumbers values).
Proof.
  pose proof (stableSort_sorted Qle_bool Qle_bool_total Qle_bool_trans values)
    as H.
  unfold sortNumbers. induction H; constructor; auto.
  eapply Forall_impl; [|eassumption]. intros b Hb. now apply Qle_bool_iff.
Qed.

Lemma sortNumbers_perm values : Permutation (sortNumbers values) values.
Proof. apply stableSort_perm. Qed.

End Samples.

(** ** Percentile estimator *)

Lemma jsIndex_Some {A : Type} (l : list A) (i : Z) :
  (0 <= i < Z.of_nat (length l))%Z -> exists x, jsIndex l i = Some x.
Proof.
  intros [H0 H1]. unfold jsIndex.
  destruct (Z.ltb_spec i 0) as [Hneg|_]; [lia|].
  destruct (nth_error l (Z.to_nat i)) eqn:E; [eauto|].
  apply nth_error_None in E. lia.
Qed.

Lemma inject_Z_pred (z : Z) : inject_Z (z - 1) == inject_Z z - 1.
Proof.
  unfold Z.sub. rewrite inject_Z_plus, inject_Z_opp. reflexivity.
Qed.

(** The fractional rank of an in-range [p] lies between the first and the
    last index. *)
Lemma rank_bounds (n : nat) (p : Q) :
  (1 <= n)%nat -> 0 <= p -> p <= 100 ->
  let pos := (p / 100) * (inject_Z (Z.of_nat n) - 1) in
  (0 <= Qfloor pos)%Z /\ (Qfloor pos <= Qceiling pos)%Z /\
  (Qceiling pos <= Z.of_nat n - 1)%Z.
Proof.
  intros Hn Hp0 Hp1 pos.
  assert (Hn' : 1 <= inject_Z (Z.of_nat n)).
  { change 1 with (inject_Z 1). rewrite <- Zle_Qle. lia. }
  assert (Hlo : 0 <= pos).
  { unfold pos. apply Qmult_le_0_compat; [|lra].
    apply Qle_shift_div_l; [reflexivity|lra]. }
  assert (Hhi : pos <= inject_Z (Z.of_nat n - 1)).
  { rewrite inject_Z_pred. unfold pos.
    assert (Hq : p / 100 <= 1)
      by (apply Qle_shift_div_r; [reflexivity|lra]).
    assert (Hq0 : 0 <= p / 100)
      by (apply Qle_shift_div_l; [reflexivity|lra]).
    nra. }
  split; [|split].
  - change 0%Z with (Qfloor 0). now apply Qfloor_resp_le.
  - rewrite Zle_Qle. apply Qle_floor_ceiling.
  - rewrite <- (Qceiling_Z (Z.of_nat n - 1)). now apply Qceiling_resp_le.
Qed.


(** On two or more values and an in-range [p], the code computes the
    interpolation rule of the specification. *)
Lemma percentile_interpolates (values : list Q) (p : Q) :
  (2 <= length values)%nat -> 0 <= p -> p <= 100 ->
  exists r, percentile values p = Some r /\
            interpolateSpec (sortNumbers values) p r.
Proof.
  intros Hlen2 Hp0 Hp1. unfold percentile, interpolateSpec.
  destruct values as [|v0 vs]; [simpl in Hlen2; lia|].
  remember (sortNumbers (v0 :: vs)) as sorted eqn:Es.
  assert (Hlen : length sorted = length (v0 :: vs)).
  { subst. unfold sortNumbers. now rewrite stableSort_length. }
  destruct sorted as [|s0 [|s1 ss]];
    [discriminate|simpl in *; lia|].
  unfold lengthNum.
  pose proof (rank_bounds (length (s0 :: s1 :: ss)) p) as Hb.
  cbv zeta in Hb. destruct Hb as (H0 & H1 & H2); [simpl; lia|auto|auto|].
  cbv zeta.
  set (pos := (p / 100) * (inject_Z (Z.of_nat (length (s0 :: s1 :: ss))) - 1))
    in *.
  destruct (jsIndex_Some (s0 :: s1 :: ss) (Qfloor pos)) as [lo Hlo]; [lia|].
  destruct (jsIndex_Some (s0 :: s1 :: ss) (Qceiling pos)) as [hi Hhi]; [lia|].
  rewrite Hlo, Hhi.
  destruct (Z.eqb_spec (Qfloor pos) (Qceiling pos)) as [E|_].
  - exists lo. split; [reflexivity|]. exists lo, hi.
    repeat split; try reflexivity.
    assert (hi = lo) by (rewrite <- E in Hhi; congruence). subst hi. ring.
  - eexists. split; [reflexivity|]. exists lo, hi.
    repeat split; reflexivity.
Qed.

Lemma StronglySorted_head_min (x : Q) (l : list Q) :
  StronglySorted Qle (x :: l) -> Forall (Qle x) (x :: l).
Proof.
  intros H. apply StronglySorted_inv in H as [_ H].
  constructor; [apply Qle_refl|exact H].
Qed.

Lemma StronglySorted_last_max (l : list Q) (d : Q) :
  StronglySorted Qle l -> l <> [] -> Forall (fun y => y <= last l d) l.
Proof.
  induction 1 as [|x l Hs IH Hall]; intros Hne; [congruence|].
  destruct l as [|y l'].
  - simpl. constructor; [apply Qle_refl|constructor].
  - assert (Hl : Forall (fun z => z <= last (y :: l') d) (y :: l'))
      by (apply IH; discriminate).
    change (last (x :: y :: l') d) with (last (y :: l') d).
    constructor; [|exact Hl].
    apply Qle_trans with y.
    + now inversion Hall.
    + now inversion Hl.
Qed.

Lemma last_nth_error {A : Type} (l : list A) (d : A) :
  l <> [] -> nth_error l (length l - 1) = Some (last l d).
Proof.
  induction l as [|x l IH]; intros Hne; [congruence|].
  destruct l as [|y l']; [reflexivity|].
  change (last (x :: y :: l') d) with (last (y :: l') d).
  rewrite <- IH by discriminate. simpl. now rewrite Nat.sub_0_r.
Qed.

Lemma last_In {A : Type} (l : list A) (d : A) : l <> [] -> In (last l d) l.
Proof.
  induction l as [|x l IH]; intros Hne; [congruence|].
  destruct l as [|y l']; [now left|].
  right. apply IH. discriminate.
Qed.

Lemma percentile_zero_is_min (values : list Q) :
  values <> [] ->
  exists m, percentile values 0 = Some m /\ In m values /\
            Forall (Qle m) values.
Proof.
  intros Hne. unfold percentile.
  destruct values as [|v0 vs]; [congruence|].
  pose proof (sortNumbers_sorted (v0 :: vs)) as Hs.
  pose proof (sortNumbers_perm (v0 :: vs)) as Hp.
  destruct (sortNumbers (v0 :: vs)) as [|s0 ss] eqn:Es.
  { apply Permutation_nil in Hp. discriminate. }
  assert (Hmin : In s0 (v0 :: vs) /\ Forall (Qle s0) (v0 :: vs)).
  { split.
    - apply (Permutation_in _ Hp). now left.
    - apply (Permutation_Forall Hp). now apply StronglySorted_head_min. }
  destruct ss as [|s1 ss]; [exists s0; tauto|].
  set (pos := (0 / 100) * (lengthNum (s0 :: s1 :: ss) - 1)).
  assert (E : pos == 0) by (unfold pos; field).
  rewrite (Qfloor_comp _ _ E).
  assert (Ec : Qceiling pos = 0%Z)
    by (rewrite (Qceiling_comp _ _ E); reflexivity).
  rewrite Ec. change (Qfloor 0) with 0%Z. simpl.
  exists s0. tauto.
Qed.

Lemma percentile_hundred_is_max (values : list Q) :
  values <> [] ->
  exists m, percentile values 100 = Some m /\ In m values /\
            Forall (fun x => x <= m) values.
Proof.
  intros Hne. unfold percentile.
  destruct values as [|v0 vs]; [congruence|].
  pose proof (sortNumbers_sorted (v0 :: vs)) as Hs.
  pose proof (sortNumbers_perm (v0 :: vs)) as Hp.
  destruct (sortNumbers (v0 :: vs)) as [|s0 ss] eqn:Es.
  { apply Permutation_nil in Hp. discriminate. }
  assert (Hmax : In (last (s0 :: ss) 0) (v0 :: vs) /\
                 Forall (fun x => x <= last (s0 :: ss) 0) (v0 :: vs)).
  { split.
    - apply (Permutation_in _ Hp). apply last_In. discriminate.
    - apply (Permutation_Forall Hp).
      apply StronglySorted_last_max; [exact Hs|discriminate]. }
  destruct ss as [|s1 ss]; [exists s0; split; [reflexivity|exact Hmax]|].
  set (sorted := s0 :: s1 :: ss) in *.
  set (pos := (100 / 100) * (lengthNum sorted - 1)).
  assert (E : pos == inject_Z (Z.of_nat (length sorted) - 1)).
  { rewrite inject_Z_pred. unfold pos, lengthNum. field. }
  rewrite (Qfloor_comp _ _ E), (Qceiling_comp _ _ E), Qfloor_Z, Qceiling_Z.
  rewrite Z.eqb_refl. unfold jsIndex.
  destruct (Z.ltb_spec (Z.of_nat (length sorted) - 1) 0) as [Hneg|_].
  { unfold sorted in Hneg. simpl length in Hneg. lia. }
  replace (Z.to_nat (Z.of_nat (length sorted) - 1))
    with (length sorted - 1)%nat by lia.
  rewrite (last_nth_error sorted 0) by discriminate.
  exists (last sorted 0). tauto.
Qed.

(** C4.  [percentile] returns 0 on the empty sequence and the element of a
    one-element sequence whatever [p] is; on longer sequences and [p] in
    [0, 100] it is the linear interpolation between the floor- and
    ceiling-ranked elements of the ascending arrangement at rank
    [(p/100)*(n-1)]; on every non-empty sequence [p = 0] gives the minimum
    and [p = 100] the maximum. *)
Theorem percentile_contract :
  (forall p, percentile [] p = Some 0) /\
  (forall x p, percentile [x] p = Some x) /\
  (forall values p,
      (2 <= length values)%nat -> 0 <= p -> p <= 100 ->
      Permutation (sortNumbers values) values /\
      StronglySorted Qle (sortNumbers values) /\
      exists r, percentile values p = Some r /\
                interpolateSpec (sortNumbers values) p r) /\
  (forall values,
      values <> [] ->
      exists m, percentile values 0 = Some m /\ In m values /\
                Forall (Qle m) values) /\
  (forall values,
      values <> [] ->
      exists m, percentile values 100 = Some m /\ In m values /\
                Forall (fun x => x <= m) values).
Proof.
  split; [reflexivity|].
  split; [reflexivity|].
  split.
  { intros values p Hlen Hp0 Hp1.
    split; [apply sortNumbers_perm|].
    split; [apply sortNumbers_sorted|].
    now apply percentile_interpolates. }
  split; [apply percentile_zero_is_min|apply percentile_hundred_is_max].
Qed.

Lemma percentile_contract_witness :
  exists r, percentile [10; 15; 20] 66 = Some r /\
            interpolateSpec (sortNumbers [10; 15; 20]) 66 r.
Proof.
  destruct percentile_contract as (_ & _ & H & _).
  destruct (H [10; 15; 20] 66) as (_ & _ & Hr);
    [simpl; lia|discriminate|discriminate|exact Hr].
Defined.

(** The sample of the specification: the 66th percentile of
    [10, 15, 20] is 16.6. *)
Example percentile_sample :
  exists r, percentile [10; 15; 20] 66 = Some r /\ r == 16.6.
Proof. eexists. split; [reflexivity|reflexivity]. Qed.

(** ** Visibility of categories *)

Lemma filter_nil_existsb {A : Type} (f : A -> bool) (l : list A) :
  filter f l = [] <-> existsb f l = false.
Proof.
  induction l as [|x l IH]; simpl; [tauto|].
  destruct (f x); simpl; [split; discriminate|exact IH].
Qed.

Lemma sizeSurvivors_nonempty (fs : FilterState) (s : Series) :
  sizeSurvivors fs s <> [] <->
  (if sizeFilterOff fs then negb (Nat.eqb (length (s_points s)) 0)
   else existsb (fun p => Qle_bool (minBlockSizeBytes fs) (pointV p))
          (s_points s)) = true.
Proof.
  unfold sizeSurvivors. destruct (sizeFilterOff fs).
  - destruct (s_points s); simpl; split; congruence.
  - rewrite filter_nil_existsb.
    destruct (existsb _ (s_points s)); split; congruence.
Qed.

Lemma hasBlocks_iff (fs : FilterState) (it : PlotEntry) :
  hasBlocksAfterSizeFilter fs (Some it) = true <->
  Exists (fun s => sizeSurvivors fs s <> []) (block_size_series it).
Proof.
  rewrite Exists_exists. unfold hasBlocksAfterSizeFilter.
  destruct (sizeFilterOff fs) eqn:Eoff; rewrite existsb_exists;
    split; intros (s & Hin & Hs); exists s; (split; [exact Hin|]);
    pose proof (sizeSurvivors_nonempty fs s) as Hn;
    rewrite Eoff in Hn; tauto.
Qed.

(** C1, as the code has it.  A key is visible exactly when it is a union
    key whose entry has, for at least one experiment, a block-size point
    surviving the size filter; so a category is hidden only when every
    experiment's block-size series has no surviving point.  The time window
    and the trim flag play no part. *)
Theorem visible_keys_by_size_filter_alone :
  forall (fs : FilterState) (keys : list string) (plots : Dict PlotEntry),
    (forall k,
        In k (getVisibleUnionKeys fs keys plots) <->
        In k keys /\
        exists it, dictGet k plots = Some it /\
                   Exists (fun s => sizeSurvivors fs s <> [])
                     (block_size_series it)) /\
    (forall lo hi trim,
        getVisibleUnionKeys
          {| minBlockSizeBytes := minBlockSizeBytes fs;
             rangeMinT := lo; rangeMaxT := hi; trimEdges := trim |}
          keys plots
        = getVisibleUnionKeys fs keys plots).
Proof.
  intros fs keys plots. split.
  - intros k. unfold getVisibleUnionKeys. rewrite filter_In.
    split; intros [Hin H]; (split; [exact Hin|]).
    + destruct (dictGet k plots) as [it|]; [|discriminate].
      exists it. split; [reflexivity|]. now apply hasBlocks_iff.
    + destruct H as (it & -> & Hex). now apply hasBlocks_iff.
  - intros lo hi trim. unfold getVisibleUnionKeys.
    apply filter_ext. intros k. reflexivity.
Qed.

(** C1, as stated, fails: with a threshold of 1000 bytes the first
    experiment of [mixedSizesEntry] has no surviving block-size point, and
    yet the category stays visible because the second one has. *)
Lemma hidden_when_one_experiment_is_empty_fails :
  ~ (forall (fs : FilterState) (keys : list string) (plots : Dict PlotEntry)
            (k : string) (it : PlotEntry),
        dictGet k plots = Some it ->
        Exists (fun s => sizeSurvivors fs s = []) (block_size_series it) ->
        ~ In k (getVisibleUnionKeys fs keys plots)).
Proof.
  intros H.
  apply (H minSize1000 ["T__None"%string]
           [("T__None"%string, mixedSizesEntry)] "T__None"%string
           mixedSizesEntry).
  - reflexivity.
  - apply Exists_cons_hd. reflexivity.
  - left. reflexivity.
Qed.

(** ** Facts about insertion-ordered maps *)

Section AssocFacts.
Context {K V : Type}.
Variable eqb : K -> K -> bool.
Hypothesis eqb_eq : forall a b, eqb a b = true <-> a = b.

Lemma eqb_refl_true k : eqb k k = true.
Proof. now apply eqb_eq. Qed.

Lemma eqb_neq_false a b : a <> b -> eqb a b = false.
Proof.
  intros H. destruct (eqb a b) eqn:E; [|reflexivity].
  apply eqb_eq in E. contradiction.
Qed.

Lemma assocGet_set_same k (v : V) m :
  assocGet eqb k (assocSet eqb k v m) = Some v.
Proof.
  induction m as [|[k' v'] m IH]; simpl.
  - now rewrite eqb_refl_true.
  - destruct (eqb k k') eqn:E; simpl.
    + now rewrite eqb_refl_true.
    + now rewrite E.
Qed.

Lemma assocGet_set_other k k' (v : V) m :
  k <> k' -> assocGet eqb k (assocSet eqb k' v m) = assocGet eqb k m.
Proof.
  intros Hne. induction m as [|[k2 v2] m IH]; simpl.
  - now rewrite eqb_neq_false.
  - destruct (eqb k' k2) eqn:E; simpl.
    + apply eqb_eq in E. subst k2. now rewrite eqb_neq_false.
    + destruct (eqb k k2); [reflexivity|exact IH].
Qed.

Lemma assocGet_None k (m : list (K * V)) :
  assocGet eqb k m = None <-> ~ In k (map fst m).
Proof.
  induction m as [|[k' v'] m IH]; simpl; [tauto|].
  destruct (eqb k k') eqn:E.
  - apply eqb_eq in E. subst. split; [discriminate|tauto].
  - rewrite IH. split; [|tauto].
    intros Hn [Heq|Hin]; [|tauto].
    subst. rewrite eqb_refl_true in E. discriminate.
Qed.

Lemma assocGet_Some_In k (v : V) m :
  assocGet eqb k m = Some v -> In (k, v) m.
Proof.
  induction m as [|[k' v'] m IH]; simpl; [discriminate|].
  destruct (eqb k k') eqn:E.
  - apply eqb_eq in E. intros [= ->]. subst. now left.
  - intros H. right. now apply IH.
Qed.

Lemma assocGet_In_keys k (m : list (K * V)) :
  In k (map fst m) -> exists v, assocGet eqb k m = Some v.
Proof.
  intros Hin. destruct (assocGet eqb k m) eqn:E; [eauto|].
  apply assocGet_None in E. contradiction.
Qed.

Lemma assocSet_absent k (v : V) m :
  assocGet eqb k m = None -> assocSet eqb k v m = m ++ [(k, v)].
Proof.
  induction m as [|[k' v'] m IH]; simpl; [reflexivity|].
  destruct (eqb k k'); [discriminate|].
  intros H. now rewrite IH.
Qed.

Lemma assocSet_keys_present k (v v0 : V) m :
  assocGet eqb k m = Some v0 ->
  map fst (assocSet eqb k v m) = map fst m.
Proof.
  induction m as [|[k' v'] m IH]; simpl; [discriminate|].
  destruct (eqb k k') eqn:E; simpl.
  - apply eqb_eq in E. now subst.
  - intros H. now rewrite IH.
Qed.

Lemma assocSet_keys_In k (v : V) m x :
  In x (map fst (assocSet eqb k v m)) <-> x = k \/ In x (map fst m).
Proof.
  destruct (assocGet eqb k m) as [v0|] eqn:E.
  - rewrite (assocSet_keys_present _ _ _ _ E).
    apply assocGet_Some_In in E.
    apply (in_map fst) in E. simpl in E.
    split; [tauto|]. intros [->|H]; assumption.
  - rewrite (assocSet_absent _ _ _ E), map_app, in_app_iff. simpl.
    intuition.
Qed.

Lemma assocSet_keys_NoDup k (v : V) m :
  NoDup (map fst m) -> NoDup (map fst (assocSet eqb k v m)).
Proof.
  intros Hnd. destruct (assocGet eqb k m) as [v0|] eqn:E.
  - now rewrite (assocSet_keys_present _ _ _ _ E).
  - rewrite (assocSet_absent _ _ _ E), map_app. simpl.
    apply assocGet_None in E.
    apply NoDup_app; [exact Hnd|repeat constructor; tauto|].
    intros x Hx [<-|[]]. contradiction.
Qed.

Lemma assocGet_of_In k (v : V) m :
  NoDup (map fst m) -> In (k, v) m -> assocGet eqb k m = Some v.
Proof.
  induction m as [|[k' v'] m IH]; simpl; [tauto|].
  intros Hnd [Heq|Hin].
  - injection Heq as -> ->. now rewrite eqb_refl_true.
  - inversion Hnd as [|? ? Hnotin Hnd']; subst.
    destruct (eqb k k') eqn:E.
    + apply eqb_eq in E. subst.
      exfalso. apply Hnotin. now apply (in_map fst) in Hin.
    + now apply IH.
Qed.
End AssocFacts.

Lemma Seqb_eq a b : String.eqb a b = true <-> a = b.
Proof. apply String.eqb_eq. Qed.

(** Reading an own property back after an assignment to an object. *)
Lemma objSet_get {V : Type} (k k' : string) (v : V) (o : Dict V) :
  dictGet k (objSet k' v o) =
  if String.eqb k' "__proto__" then dictGet k o
  else if String.eqb k k' then Some v else dictGet k o.
Proof.
  unfold objSet. destruct (String.eqb k' "__proto__"); [reflexivity|].
  unfold dictGet, dictSet. destruct (String.eqb k k') eqn:E.
  - apply Seqb_eq in E. subst.
    apply (assocGet_set_same String.eqb Seqb_eq).
  - apply (assocGet_set_other String.eqb Seqb_eq).
    intros ->. now rewrite String.eqb_refl in E.
Qed.

Lemma objSet_no_proto {V : Type} (k : string) (v : V) (o : Dict V) :
  dictGet "__proto__" o = None ->
  dictGet "__proto__" (objSet k v o) = None.
Proof.
  intros Ho. rewrite objSet_get.
  destruct (String.eqb k "__proto__") eqn:E; [exact Ho|].
  rewrite String.eqb_sym, E. exact Ho.
Qed.

(** ** Window/filter aggregator: structure of the result *)

Lemma pointLeb_total a b : pointLeb a b = false -> pointLeb b a = true.
Proof. apply Qle_bool_total. Qed.

Lemma pointLeb_trans a b c :
  pointLeb a b = true -> pointLeb b c = true -> pointLeb a c = true.
Proof. apply Qle_bool_trans. Qed.

Lemma sortPoints_sorted points :
  StronglySorted (fun a b => pointLeb a b = true) (sortPoints points).
Proof. apply stableSort_sorted; [apply pointLeb_total|apply pointLeb_trans]. Qed.

Lemma StronglySorted_filter {A : Type} (R : A -> A -> Prop) (f : A -> bool)
    (l : list A) :
  StronglySorted R l -> StronglySorted R (filter f l).
Proof.
  induction 1 as [|x l Hs IH Hall]; simpl; [constructor|].
  destruct (f x); [|exact IH].
  constructor; [exact IH|].
  rewrite Forall_forall in *. intros y Hy.
  apply filter_In in Hy. now apply Hall.
Qed.

Lemma survivors_sorted fs points bs :
  StronglySorted (fun a b => pointLeb a b = true) (survivors fs points bs).
Proof. apply StronglySorted_filter, sortPoints_sorted. Qed.

Lemma survivors_In fs points bs p :
  In p (survivors fs points bs) -> In p points.
Proof.
  unfold survivors. intros H. apply filter_In in H as [H _].
  apply stableSort_In in H. unfold filterByBlockSize in H.
  destruct (sizeFilterOff fs); [exact H|].
  now apply filter_In in H.
Qed.

Lemma sorted_last_latest (l : list Point) (d p : Point) :
  StronglySorted (fun a b => pointLeb a b = true) l ->
  In p l -> pointT p <= pointT (last l d).
Proof.
  intros Hs. revert p.
  induction Hs as [|x l Hs IH Hall]; intros p Hp; [destruct Hp|].
  destruct l as [|y l'].
  - destruct Hp as [<-|[]]. apply Qle_refl.
  - change (last (x :: y :: l') d) with (last (y :: l') d).
    destruct Hp as [<-|Hp]; [|now apply IH].
    apply Qle_trans with (pointT y).
    + inversion Hall; subst. now apply Qle_bool_iff.
    + apply IH. now left.
Qed.

(** In a time-ordered arrangement the first point is the earliest and the
    last one the latest. *)
Lemma sorted_first_last (first : Point) (rest : list Point) :
  StronglySorted (fun a b => pointLeb a b = true) (first :: rest) ->
  Forall (fun p => pointT first <= pointT p /\
                   pointT p <= pointT (last (first :: rest) first))
    (first :: rest).
Proof.
  intros Hs. apply Forall_forall. intros p Hp. split.
  - apply StronglySorted_inv in Hs as [_ Hall].
    destruct Hp as [<-|Hp]; [apply Qle_refl|].
    rewrite Forall_forall in Hall. now apply Qle_bool_iff, Hall.
  - now apply sorted_last_latest.
Qed.

Lemma filter_all {A : Type} (f : A -> bool) (l : list A) :
  Forall (fun x => f x = true) l -> filter f l = l.
Proof.
  induction 1 as [|x l Hx Hl IH]; simpl; [reflexivity|].
  now rewrite Hx, IH.
Qed.

Lemma emitWith_nil w : emitWith w [] = [].
Proof. unfold emitWith. now destruct (Qle_bool w 0). Qed.

(** The bucketing loop skips exactly the points outside the allowed
    interval. *)
Lemma bucketStep_fold lo hi w (l : list Point) (acc : list (Z * Bucket)) :
  fold_left (bucketStep lo hi w) l acc
  = fold_left (bucketAdd w) (filter (within lo hi) l) acc.
Proof.
  revert acc. induction l as [|p l IH]; intros acc; simpl; [reflexivity|].
  rewrite IH. unfold bucketStep, within, Qltb.
  destruct (Qle_bool lo (pointT p)), (Qle_bool (pointT p) hi);
    reflexivity.
Qed.

Lemma filterByBlockSize_nil fs bs : filterByBlockSize fs [] bs = [].
Proof. unfold filterByBlockSize. now destruct (sizeFilterOff fs). Qed.

(** [aggregatePoints] is: size filter, time order, window filter, edge
    trim, output stage. *)
Lemma aggregatePoints_stages fs points w bs :
  aggregatePoints fs points w bs =
  match survivors fs points bs with
  | [] => []
  | first :: rest =>
    let lo := allowedMinOf fs (pointT first) in
    let hi := allowedMaxOf fs (pointT (last (first :: rest) first)) in
    if Qltb hi lo then []
    else emitWith w (filter (within lo hi) (first :: rest))
  end.
Proof.
  unfold aggregatePoints, survivors.
  destruct points as [|p0 ps].
  { now rewrite filterByBlockSize_nil. }
  destruct (filterByBlockSize fs (p0 :: ps) bs) as [|q0 qs] eqn:Ef;
    [reflexivity|].
  destruct (filter _ (sortPoints (q0 :: qs))) as [|first rest];
    [reflexivity|].
  cbv zeta. unfold allowedMinOf, allowedMaxOf.
  destruct (Qltb _ _); [reflexivity|].
  unfold emitWith. destruct (Qle_bool w 0); [reflexivity|].
  now rewrite bucketStep_fold.
Qed.

Lemma within_iff lo hi p :
  within lo hi p = true <-> lo <= pointT p /\ pointT p <= hi.
Proof.
  unfold within. now rewrite andb_true_iff, !Qle_bool_iff.
Qed.

Lemma filter_within_crossed lo hi (l : list Point) :
  hi < lo -> filter (within lo hi) l = [].
Proof.
  intros Hlt. induction l as [|p l IH]; simpl; [reflexivity|].
  destruct (within lo hi p) eqn:E; [|exact IH].
  apply within_iff in E. exfalso. lra.
Qed.

(** With trimming disabled nothing is removed after the window filter. *)
Lemma aggregatePoints_untrimmed fs points w bs :
  trimEdges fs = false ->
  aggregatePoints fs points w bs = emitWith w (survivors fs points bs).
Proof.
  intros Htrim. rewrite aggregatePoints_stages.
  pose proof (survivors_sorted fs points bs) as Hs.
  destruct (survivors fs points bs) as [|first rest];
    [now rewrite emitWith_nil|].
  cbv zeta. unfold allowedMinOf, allowedMaxOf. rewrite Htrim.
  pose proof (sorted_first_last first rest Hs) as Hall.
  assert (Hle : pointT first <= pointT (last (first :: rest) first)).
  { rewrite Forall_forall in Hall. apply (Hall first). now left. }
  apply Qltb_ge in Hle. rewrite Hle.
  rewrite filter_all; [reflexivity|].
  eapply Forall_impl; [|exact Hall].
  intros p Hp. now apply within_iff.
Qed.

(** C6.  When some point survives the size and window filters, let
    [localMin] and [localMax] be the earliest and latest surviving times.
    With edge trimming on, the output stage receives exactly the survivors
    in [localMin + 300, localMax - 120], and nothing when that interval is
    empty; with edge trimming off it receives all survivors. *)
Theorem edge_trim_interval :
  forall (fs : FilterState) (points : list Point) (w : Q) (bs : Dict Q),
    let kept := survivors fs points bs in
    kept <> [] ->
    exists localMin localMax,
      (exists p, In p kept /\ pointT p = localMin) /\
      (exists p, In p kept /\ pointT p = localMax) /\
      Forall (fun p => localMin <= pointT p /\ pointT p <= localMax) kept /\
      (trimEdges fs = true ->
       aggregatePoints fs points w bs
       = emitWith w (filter (within (localMin + 300) (localMax - 120)) kept)
       /\ (localMax - 120 < localMin + 300 ->
           aggregatePoints fs points w bs = [])) /\
      (trimEdges fs = false ->
       aggregatePoints fs points w bs = emitWith w kept).
Proof.
  intros fs points w bs kept Hne.
  pose proof (survivors_sorted fs points bs) as Hs.
  pose proof (aggregatePoints_stages fs points w bs) as Hst.
  pose proof (aggregatePoints_untrimmed fs points w bs) as Hoff.
  fold kept in Hs, Hst, Hoff.
  destruct kept as [|first rest] eqn:Ek; [congruence|].
  exists (pointT first), (pointT (last (first :: rest) first)).
  split; [exists first; split; [now left|reflexivity]|].
  split.
  { exists (last (first :: rest) first).
    split; [apply last_In; discriminate|reflexivity]. }
  split; [now apply sorted_first_last|].
  split; [|exact Hoff].
  intros Htrim. cbv zeta in Hst.
  unfold allowedMinOf, allowedMaxOf in Hst. rewrite Htrim in Hst.
  destruct (Qltb _ _) eqn:Ecross in Hst.
  - apply Qltb_lt in Ecross.
    rewrite (filter_within_crossed _ _ _ Ecross), emitWith_nil.
    split; [exact Hst|intros _; exact Hst].
  - split; [exact Hst|].
    intros Hlt. apply Qltb_ge in Ecross. exfalso. lra.
Qed.

Lemma edge_trim_interval_witness :
  survivors trimOnState span1000 [] <> [] /\
  exists localMin localMax,
    aggregatePoints trimOnState span1000 0 []
    = emitWith 0 (filter (within (localMin + 300) (localMax - 120))
                    (survivors trimOnState span1000 [])).
Proof.
  split; [discriminate|].
  destruct (edge_trim_interval trimOnState span1000 0 [])
    as (mn & mx & _ & _ & _ & Hon & _); [discriminate|].
  exists mn, mx. now apply Hon.
Defined.

(** The sample of the specification: of a series spanning [0, 1000] only
    the points in [300, 880] are kept with trimming, all without. *)
Example edge_trim_sample :
  aggregatePoints trimOnState span1000 0 []
  = [Point3 300 3 "b2"; Point3 500 4 "b3"; Point3 880 5 "b4"]%string /\
  aggregatePoints trimOffState span1000 0 [] = span1000.
Proof. split; reflexivity. Qed.

(** ** Bucketing *)

Lemma Zeqb_eq a b : Z.eqb a b = true <-> a = b.
Proof. apply Z.eqb_eq. Qed.

Lemma bucketAdd_eq w buckets p :
  bucketAdd w buckets p =
  assocSet Z.eqb (bucketOf w p)
    (match assocGet Z.eqb (bucketOf w p) buckets with
     | None => singleBucket p
     | Some cur => extendBucket cur p
     end) buckets.
Proof.
  unfold bucketAdd, bucketOf, singleBucket, extendBucket.
  now destruct (assocGet _ _ buckets).
Qed.

(** What the loop has accumulated under key [b]. *)
Lemma fold_bucketAdd_get w (l : list Point) :
  forall (acc : list (Z * Bucket)) (b : Z),
    assocGet Z.eqb b (fold_left (bucketAdd w) l acc) =
    match assocGet Z.eqb b acc, bucketMembers w b l with
    | Some c, ms => Some (fold_left extendBucket ms c)
    | None, [] => None
    | None, m :: ms => Some (fold_left extendBucket ms (singleBucket m))
    end.
Proof.
  induction l as [|p l IH]; intros acc b; simpl.
  - now destruct (assocGet Z.eqb b acc).
  - rewrite IH, bucketAdd_eq. unfold bucketMembers. simpl.
    fold (bucketMembers w b l).
    destruct (Z.eqb_spec (bucketOf w p) b) as [->|Hne].
    + rewrite (assocGet_set_same Z.eqb Zeqb_eq).
      now destruct (assocGet Z.eqb b acc).
    + rewrite (assocGet_set_other Z.eqb Zeqb_eq)
        by (intros E; apply Hne; now symmetry).
      reflexivity.
Qed.

Lemma fold_bucketAdd_NoDup w (l : list Point) :
  forall acc, NoDup (map fst acc) ->
              NoDup (map fst (fold_left (bucketAdd w) l acc)).
Proof.
  induction l as [|p l IH]; intros acc Hnd; simpl; [exact Hnd|].
  apply IH. rewrite bucketAdd_eq.
  apply assocSet_keys_NoDup; [apply Zeqb_eq|exact Hnd].
Qed.

Lemma sumNumbers_from (xs : list Q) (a : Q) :
  fold_left Qplus xs a == a + sumNumbers xs.
Proof.
  unfold sumNumbers. revert a.
  induction xs as [|x xs IH]; intros a; simpl; [ring|].
  rewrite (IH (a + x)), (IH (0 + x)). ring.
Qed.

Lemma sumNumbers_cons (x : Q) (xs : list Q) :
  sumNumbers (x :: xs) == x + sumNumbers xs.
Proof.
  unfold sumNumbers at 1. simpl. rewrite sumNumbers_from. ring.
Qed.

Lemma lengthNum_cons {A : Type} (x : A) (xs : list A) :
  lengthNum (x :: xs) == 1 + lengthNum xs.
Proof.
  unfold lengthNum. simpl length. rewrite Nat2Z.inj_succ.
  unfold Z.succ. rewrite inject_Z_plus. change (inject_Z 1) with 1. ring.
Qed.

(** The three fields of a bucket are the count and the sums of its
    members. *)
Lemma fold_extendBucket_fields (ms : list Point) :
  forall c,
    b_count (fold_left extendBucket ms c) == b_count c + lengthNum ms /\
    b_sumT (fold_left extendBucket ms c)
      == b_sumT c + sumNumbers (map pointT ms) /\
    b_sum (fold_left extendBucket ms c)
      == b_sum c + sumNumbers (map pointV ms).
Proof.
  induction ms as [|m ms IH]; intros c; simpl.
  - unfold lengthNum, sumNumbers. simpl. repeat split; ring.
  - destruct (IH (extendBucket c m)) as (Hc & Ht & Hv).
    rewrite Hc, Ht, Hv. simpl.
    rewrite lengthNum_cons, !sumNumbers_cons. repeat split; ring.
Qed.

Lemma bucket_of_members_means (m : Point) (ms : list Point) :
  let c := fold_left extendBucket ms (singleBucket m) in
  b_sumT c / b_count c == meanOf (map pointT (m :: ms)) /\
  b_sum c / b_count c == meanOf (map pointV (m :: ms)).
Proof.
  cbv zeta. destruct (fold_extendBucket_fields ms (singleBucket m))
    as (Hc & Ht & Hv).
  unfold meanOf. simpl map.
  rewrite Hc, Ht, Hv, !sumNumbers_cons. simpl.
  assert (Hl : forall f : Point -> Q,
             lengthNum (f m :: map f ms) == 1 + lengthNum ms).
  { intros f. rewrite lengthNum_cons. unfold lengthNum.
    now rewrite length_map. }
  rewrite !Hl. split; reflexivity.
Qed.

(** Every emitted point is the pair of a bucket of the map. *)
Lemma emitBuckets_In (buckets : list (Z * Bucket)) (p : Point) :
  In p (emitBuckets buckets) ->
  exists b c, assocGet Z.eqb b buckets = Some c /\ p = bucketPoint c.
Proof.
  unfold emitBuckets. rewrite in_flat_map. intros (k & _ & Hp).
  destruct (assocGet Z.eqb k buckets) as [c|] eqn:E; [|destruct Hp].
  destruct Hp as [<-|[]]. now exists k, c.
Qed.

Lemma Qfloor_unique (x : Q) (b : Z) :
  inject_Z b <= x -> x < inject_Z b + 1 -> Qfloor x = b.
Proof.
  intros Hlo Hhi.
  assert (H1 : (b <= Qfloor x)%Z).
  { rewrite <- (Qfloor_Z b). now apply Qfloor_resp_le. }
  assert (H2 : (Qfloor x < b + 1)%Z).
  { rewrite Zlt_Qlt, inject_Z_plus. change (inject_Z 1) with 1.
    apply Qle_lt_trans with x; [apply Qfloor_le|exact Hhi]. }
  lia.
Qed.

Lemma StronglySorted_strict (l : list Z) :
  StronglySorted (fun a b => Z.leb a b = true) l -> NoDup l ->
  StronglySorted Z.lt l.
Proof.
  induction 1 as [|x l Hs IH Hall]; intros Hnd; [constructor|].
  inversion Hnd as [|? ? Hnotin Hnd']; subst.
  constructor; [now apply IH|].
  rewrite Forall_forall in *. intros y Hy.
  specialize (Hall y Hy). apply Z.leb_le in Hall.
  assert (x <> y) by (intros ->; contradiction). lia.
Qed.

Lemma Zleb_total x y : Z.leb x y = false -> Z.leb y x = true.
Proof. rewrite Z.leb_gt, Z.leb_le. lia. Qed.

Lemma Zleb_trans x y z :
  Z.leb x y = true -> Z.leb y z = true -> Z.leb x z = true.
Proof. rewrite !Z.leb_le. lia. Qed.

Lemma positive_width w : 0 < w -> Qle_bool w 0 = false.
Proof.
  intros Hw. destruct (Qle_bool w 0) eqn:E; [|reflexivity].
  apply Qle_bool_iff in E. exfalso. lra.
Qed.

(** With a positive bucket width the output stage emits exactly one pair
    per non-empty bucket, by increasing bucket index. *)
Lemma emitWith_buckets_exact w (kept : list Point) :
  Qle_bool w 0 = false ->
  exists keys,
    StronglySorted Z.lt keys /\
    (forall b, In b keys <-> bucketMembers w b kept <> []) /\
    Forall2 (fun b p =>
               pointId p = None /\
               exists t v,
                 p = Point2 t v /\
                 t == meanOf (map pointT (bucketMembers w b kept)) /\
                 v == meanOf (map pointV (bucketMembers w b kept)))
      keys (emitWith w kept).
Proof.
  intros Hw. unfold emitWith. rewrite Hw. unfold emitBuckets.
  set (buckets := fold_left (bucketAdd w) kept []).
  assert (Hget : forall b,
             assocGet Z.eqb b buckets =
             match bucketMembers w b kept with
             | [] => None
             | m :: ms => Some (fold_left extendBucket ms (singleBucket m))
             end).
  { intros b. unfold buckets. now rewrite fold_bucketAdd_get. }
  exists (stableSort Z.leb (map fst buckets)).
  assert (Hin : forall b, In b (stableSort Z.leb (map fst buckets)) <->
                          bucketMembers w b kept <> []).
  { intros b. rewrite stableSort_In. split.
    - intros Hb. apply (assocGet_In_keys Z.eqb Zeqb_eq) in Hb as [c Hc].
      rewrite Hget in Hc. intros E. rewrite E in Hc. discriminate Hc.
    - intros Hne.
      destruct (in_dec Z.eq_dec b (map fst buckets)) as [Hb|Hb];
        [exact Hb|].
      apply (assocGet_None Z.eqb Zeqb_eq) in Hb. rewrite Hget in Hb.
      destruct (bucketMembers w b kept); [contradiction|discriminate]. }
  split; [|split; [exact Hin|]].
  - apply StronglySorted_strict.
    + apply stableSort_sorted; [apply Zleb_total|apply Zleb_trans].
    + apply (Permutation_NoDup
               (Permutation_sym (stableSort_perm Z.leb (map fst buckets)))).
      apply fold_bucketAdd_NoDup. constructor.
  - assert (Hsub : forall b, In b (stableSort Z.leb (map fst buckets)) ->
                             bucketMembers w b kept <> [])
      by (intros b; apply Hin).
    clear Hin. induction (stableSort Z.leb (map fst buckets)) as [|k keys IH];
      cbn [flat_map]; [constructor|].
    assert (Hk : bucketMembers w k kept <> []) by (apply Hsub; now left).
    rewrite Hget.
    destruct (bucketMembers w k kept) as [|m ms] eqn:Em; [contradiction|].
    cbn [app]. constructor.
    + split; [reflexivity|].
      eexists _, _. split; [reflexivity|].
      rewrite Em. apply bucket_of_members_means.
    + apply IH. intros b Hb. apply Hsub. now right.
Qed.

Lemma filterByBlockSize_pairs fs bs (out : list Point) :
  sizeFilterOff fs = false ->
  dictGet "undefined" bs = None ->
  Forall (fun p => pointId p = None) out ->
  filterByBlockSize fs out bs = [].
Proof.
  intros Hoff Hund Hall. unfold filterByBlockSize. rewrite Hoff.
  induction Hall as [|p out Hp Hall IH]; simpl; [reflexivity|].
  unfold passesSize at 1. rewrite Hp. simpl. now rewrite Hund.
Qed.

Lemma keptPoints_In fs points bs p :
  In p (keptPoints fs points bs) -> In p points.
Proof.
  unfold keptPoints. intros Hp.
  pose proof (survivors_In fs points bs) as Hsub.
  destruct (survivors fs points bs) as [|first rest]; [destruct Hp|].
  apply filter_In in Hp as [Hp _]. now apply Hsub.
Qed.

Lemma aggregatePoints_kept fs points w bs :
  aggregatePoints fs points w bs = emitWith w (keptPoints fs points bs).
Proof.
  rewrite aggregatePoints_stages. unfold keptPoints.
  destruct (survivors fs points bs) as [|first rest];
    [now rewrite emitWith_nil|].
  cbv zeta.
  destruct (Qltb _ _) eqn:Ecross; [|reflexivity].
  apply Qltb_lt in Ecross.
  rewrite filter_within_crossed by exact Ecross.
  now rewrite emitWith_nil.
Qed.

(** C10.  The shape of the output depends on the bucket width.  Let
    [kept] be the time-ordered survivors of the size and window filters
    that lie in the interval left by edge trimming; they are points of the
    input.  With a width of zero or less the result is [kept] itself, each
    point with its block id.  With a positive width the result has exactly
    one element per non-empty bucket of [kept], by increasing bucket
    index: the two-element pair of the mean time and the mean value of the
    bucket's members, without block id.  A size filter applied to that
    result again keeps nothing (no block being named "undefined"). *)
Theorem output_shape_by_bucket_width :
  forall (fs : FilterState) (points : list Point) (w : Q) (bs : Dict Q),
    let out := aggregatePoints fs points w bs in
    let kept := keptPoints fs points bs in
    (forall p, In p kept -> In p points) /\
    (w <= 0 -> out = kept) /\
    (0 < w ->
     exists keys,
       StronglySorted Z.lt keys /\
       (forall b, In b keys <-> bucketMembers w b kept <> []) /\
       Forall2 (fun b p =>
                  pointId p = None /\
                  exists t v,
                    p = Point2 t v /\
                    t == meanOf (map pointT (bucketMembers w b kept)) /\
                    v == meanOf (map pointV (bucketMembers w b kept)))
         keys out /\
       (sizeFilterOff fs = false -> dictGet "undefined" bs = None ->
        filterByBlockSize fs out bs = [])).
Proof.
  intros fs points w bs out kept. subst out kept.
  rewrite aggregatePoints_kept.
  split; [intros p; apply keptPoints_In|]. split.
  - intros Hw. apply Qle_bool_iff in Hw. unfold emitWith. now rewrite Hw.
  - intros Hw. apply positive_width in Hw.
    destruct (emitWith_buckets_exact w (keptPoints fs points bs) Hw)
      as (keys & Hsorted & Hkeys & Hpairs).
    exists keys. split; [exact Hsorted|]. split; [exact Hkeys|].
    split; [exact Hpairs|].
    intros Hoff Hund. apply filterByBlockSize_pairs; auto.
    clear - Hpairs. induction Hpairs as [|b p keys out Hp _ IH];
      constructor; [apply Hp|exact IH].
Qed.

Lemma output_shape_by_bucket_width_witness :
  aggregatePoints minSize1000Untrimmed sizedPoints 0 sizedTable
  = [Point3 200 3 "c"%string; Point3 300 2 "b"%string] /\
  exists p rest,
    aggregatePoints minSize1000Untrimmed sizedPoints 1000 sizedTable
    = p :: rest.
Proof.
  destruct (output_shape_by_bucket_width minSize1000Untrimmed sizedPoints 0
              sizedTable) as (_ & H0 & _).
  destruct (output_shape_by_bucket_width minSize1000Untrimmed sizedPoints
              1000 sizedTable) as (_ & _ & H1).
  split.
  - rewrite H0 by (vm_compute; discriminate). reflexivity.
  - destruct H1 as (keys & _ & Hkeys & Hpairs & _); [reflexivity|].
    assert (Hin : In 0%Z keys) by (apply Hkeys; vm_compute; discriminate).
    destruct Hpairs as [|b p keys out _ _]; [destruct Hin|].
    now exists p, out.
Defined.

(** ** Re-applying the aggregation *)

Lemma emitWith_off w (kept : list Point) :
  Qle_bool w 0 = true -> emitWith w kept = kept.
Proof. intros H. unfold emitWith. now rewrite H. Qed.

Lemma survivors_pass_size fs points bs :
  sizeFilterOff fs = false ->
  Forall (fun p => passesSize fs bs p = true) (survivors fs points bs).
Proof.
  intros Hoff. apply Forall_forall. intros p Hp.
  unfold survivors in Hp. apply filter_In in Hp as [Hp _].
  apply stableSort_In in Hp. unfold filterByBlockSize in Hp.
  rewrite Hoff in Hp. now apply filter_In in Hp.
Qed.

(** C2, as the code has it.  With edge trimming disabled and no bucketing
    (bucket width zero or negative), aggregating the output again under the
    same size threshold and any time window that contains the output
    returns the output unchanged.  Only comparisons are involved, no
    arithmetic on the points. *)
Theorem aggregate_idempotent_untrimmed :
  forall (fs fs' : FilterState) (points : list Point) (w : Q) (bs : Dict Q),
    trimEdges fs = false ->
    w <= 0 ->
    minBlockSizeBytes fs' = minBlockSizeBytes fs ->
    trimEdges fs' = false ->
    Forall (fun p => rangeMinT fs' <= pointT p /\ pointT p <= rangeMaxT fs')
      (aggregatePoints fs points w bs) ->
    aggregatePoints fs' (aggregatePoints fs points w bs) w bs
    = aggregatePoints fs points w bs.
Proof.
  intros fs fs' points w bs Htrim Hle Hmin Htrim' Hwin.
  rewrite (aggregatePoints_untrimmed fs' _ w bs Htrim').
  rewrite (aggregatePoints_untrimmed fs points w bs Htrim) in *.
  set (kept := survivors fs points bs) in *.
  assert (Hoff' : sizeFilterOff fs' = sizeFilterOff fs)
    by (unfold sizeFilterOff; now rewrite Hmin).
  assert (Hw : Qle_bool w 0 = true) by now apply Qle_bool_iff.
  rewrite !(emitWith_off w _ Hw) in *.
  assert (Hwindow : filter (within (rangeMinT fs') (rangeMaxT fs')) kept = kept).
  { apply filter_all.
    eapply Forall_impl; [|exact Hwin]. intros p Hp. now apply within_iff. }
  assert (Hsize : filterByBlockSize fs' kept bs = kept).
  { unfold filterByBlockSize. rewrite Hoff'.
    destruct (sizeFilterOff fs) eqn:Hoff; [reflexivity|].
    apply filter_all.
    eapply Forall_impl; [|exact (survivors_pass_size fs points bs Hoff)].
    intros p Hp. unfold passesSize in *. now rewrite Hmin. }
  unfold survivors at 1. rewrite Hsize.
  unfold sortPoints. rewrite stableSort_sorted_id.
  - exact Hwindow.
  - apply StronglySorted_Sorted, survivors_sorted.
Qed.

Lemma aggregate_idempotent_untrimmed_witness :
  aggregatePoints minSize1000Untrimmed
    (aggregatePoints minSize1000Untrimmed sizedPoints 0 sizedTable)
    0 sizedTable
  = [Point3 200 3 "c"%string; Point3 300 2 "b"%string].
Proof.
  rewrite (aggregate_idempotent_untrimmed minSize1000Untrimmed
             minSize1000Untrimmed sizedPoints 0 sizedTable).
  - reflexivity.
  - reflexivity.
  - vm_compute. discriminate.
  - reflexivity.
  - reflexivity.
  - apply Forall_forall. intros p Hp. vm_compute in Hp.
    destruct Hp as [<-|[<-|[]]]; split; vm_compute; discriminate.
Defined.

(** C2, as stated, fails: with edge trimming on, the second pass trims
    again around the already trimmed points. *)
Lemma aggregate_idempotent_fails_with_trim :
  ~ (forall (fs : FilterState) (points : list Point) (w : Q) (bs : Dict Q),
        Forall (fun p => rangeMinT fs <= pointT p /\ pointT p <= rangeMaxT fs)
          (aggregatePoints fs points w bs) ->
        aggregatePoints fs (aggregatePoints fs points w bs) w bs
        = aggregatePoints fs points w bs).
Proof.
  intros H. specialize (H trimOnState span1000 0 []).
  assert (Hpre : Forall (fun p => rangeMinT trimOnState <= pointT p /\
                                  pointT p <= rangeMaxT trimOnState)
                   (aggregatePoints trimOnState span1000 0 [])).
  { apply Forall_forall. intros p Hp. vm_compute in Hp.
    destruct Hp as [<-|[<-|[<-|[]]]]; split; vm_compute; discriminate. }
  specialize (H Hpre). vm_compute in H. discriminate H.
Qed.

(** Nor does it hold when the size filter meets bucketing: the averaged
    pairs carry no block id and the second pass filters them all out. *)
Example aggregate_twice_size_filter_bucketed :
  aggregatePoints minSize1000Untrimmed oneBigBlock 10 oneBigBlockSizes
  = [Point2 0 1] /\
  aggregatePoints minSize1000Untrimmed
    (aggregatePoints minSize1000Untrimmed oneBigBlock 10 oneBigBlockSizes)
    10 oneBigBlockSizes
  = [].
Proof. split; reflexivity. Qed.

(** ** Best-value selection *)

Section BestLoop.
Variable admissible : Q -> bool.
Variable better : Q -> Q -> bool.
(** [good b u]: [b] is at least as good as [u]. *)
Variable good : Q -> Q -> Prop.
Hypothesis good_refl : forall b, good b b.
Hypothesis good_trans : forall a b c, good a b -> good b c -> good a c.
Hypothesis better_good : forall v b, better v b = true -> good v b.
Hypothesis not_better_good : forall v b, better v b = false -> good b v.

Lemma bestLoop_spec (groupVals : list (option Q)) :
  forall (seen : list (option Q)) (bestVal : option Q)
         (bestIdx : option nat),
    bestSoFar admissible good seen bestVal bestIdx ->
    bestOf admissible good (seen ++ groupVals)
      (bestLoop admissible better (length seen) groupVals bestVal bestIdx).
Proof.
  induction groupVals as [|g rest IH]; intros seen bestVal bestIdx Hinv.
  - simpl. rewrite app_nil_r. unfold bestSoFar in Hinv. unfold bestOf.
    destruct bestVal as [b|], bestIdx as [j|]; try contradiction.
    + exists b. exact Hinv.
    + exact Hinv.
  - assert (Hlen : S (length seen) = length (seen ++ [g]))
      by (rewrite length_app; simpl; lia).
    assert (Happ : seen ++ g :: rest = (seen ++ [g]) ++ rest)
      by (now rewrite <- app_assoc).
    assert (Hkeep : g = None \/
                    (exists v, g = Some v /\
                               (admissible v = false \/
                                exists b, bestVal = Some b /\
                                          better v b = false)) ->
                    bestSoFar admissible good (seen ++ [g]) bestVal bestIdx).
    { intros Hg. unfold bestSoFar in *.
      destruct bestVal as [b|], bestIdx as [j|]; try contradiction.
      - destruct Hinv as (Hnth & Hadm & Hbest).
        split; [rewrite nth_error_app1; [exact Hnth|]|].
        { apply nth_error_Some. congruence. }
        split; [exact Hadm|].
        intros u Hu Hau. apply in_app_iff in Hu as [Hu|[Hu|[]]];
          [now apply Hbest|].
        destruct Hg as [->|(v & -> & [Hv|(b' & Hb' & Hnb)])];
          [discriminate| |].
        + injection Hu as ->. congruence.
        + injection Hu as ->. injection Hb' as ->.
          now apply not_better_good.
      - intros u Hu. apply in_app_iff in Hu as [Hu|[Hu|[]]];
          [now apply Hinv|].
        destruct Hg as [->|(v & -> & [Hv|(b' & Hb' & _)])];
          [discriminate| |discriminate].
        now injection Hu as ->. }
    simpl. rewrite Happ, Hlen.
    destruct g as [v|]; [|apply IH, Hkeep; now left].
    destruct (admissible v) eqn:Hadm; simpl;
      [|apply IH, Hkeep; right; exists v; split; [reflexivity|now left]].
    destruct bestVal as [b|].
    + destruct (better v b) eqn:Hb.
      * apply IH. unfold bestSoFar in *.
        destruct bestIdx as [j|]; [|contradiction].
        destruct Hinv as (_ & _ & Hbest).
        split; [now rewrite nth_error_app2, Nat.sub_diag|].
        split; [exact Hadm|].
        intros u Hu Hau. apply in_app_iff in Hu as [Hu|[Hu|[]]].
        -- apply good_trans with b; [now apply better_good|].
           now apply Hbest.
        -- injection Hu as ->. apply good_refl.
      * apply IH, Hkeep. right. exists v. split; [reflexivity|].
        right. now exists b.
    + apply IH. unfold bestSoFar in *.
      destruct bestIdx as [j|]; [contradiction|].
      split; [now rewrite nth_error_app2, Nat.sub_diag|].
      split; [exact Hadm|].
      intros u Hu Hau. apply in_app_iff in Hu as [Hu|[Hu|[]]].
      * rewrite (Hinv u Hu) in Hau. discriminate.
      * injection Hu as ->. apply good_refl.
Qed.
End BestLoop.

Lemma bestIdx_compression (groupVals : list (option Q)) :
  bestOf (fun _ => true) (fun b u => u <= b) groupVals
    (bestIdxOf "avg_compression_percent" groupVals).
Proof.
  unfold bestIdxOf. simpl.
  apply (bestLoop_spec (fun _ => true) (fun v b => Qltb b v)
           (fun b u => u <= b)) with (seen := []).
  - intros b. apply Qle_refl.
  - intros a b c Hab Hbc. now apply Qle_trans with b.
  - intros v b H. apply Qltb_lt in H. now apply Qlt_le_weak.
  - intros v b H. now apply Qltb_ge in H.
  - simpl. intros u [].
Qed.

Lemma bestIdx_broadcast (keyName : string) (groupVals : list (option Q)) :
  In keyName broadcastRows ->
  bestOf (fun v => Qltb 0 v) (fun b u => b <= u) groupVals
    (bestIdxOf keyName groupVals).
Proof.
  intros Hin. unfold bestIdxOf.
  assert (Hk : String.eqb keyName "avg_compression_percent" = false /\
               existsb (String.eqb keyName) broadcastRows = true).
  { simpl in Hin. destruct Hin as [<-|[<-|[<-|[]]]]; split; reflexivity. }
  destruct Hk as [-> ->].
  apply (bestLoop_spec (fun v => Qltb 0 v) (fun v b => Qltb v b)
           (fun b u => b <= u)) with (seen := []).
  - intros b. apply Qle_refl.
  - intros a b c Hab Hbc. now apply Qle_trans with b.
  - intros v b H. apply Qltb_lt in H. now apply Qlt_le_weak.
  - intros v b H. now apply Qltb_ge in H.
  - simpl. intros u [].
Qed.

Lemma bestIdx_other (keyName : string) (groupVals : list (option Q)) :
  keyName <> "avg_compression_percent"%string ->
  ~ In keyName broadcastRows ->
  bestIdxOf keyName groupVals = None.
Proof.
  intros Hc Hb. unfold bestIdxOf.
  destruct (String.eqb_spec keyName "avg_compression_percent");
    [contradiction|].
  destruct (existsb (String.eqb keyName) broadcastRows) eqn:E;
    [|reflexivity].
  apply existsb_exists in E as (k & Hk & Heq).
  apply String.eqb_eq in Heq. subst k. contradiction.
Qed.

Lemma bestIdx_points_at_value (keyName : string)
    (groupVals : list (option Q)) (i : nat) :
  bestIdxOf keyName groupVals = Some i ->
  keyName <> "num_blocks"%string /\
  exists v, nth_error groupVals i = Some (Some v).
Proof.
  intros H. split.
  - intros ->. discriminate H.
  - destruct (String.eqb_spec keyName "avg_compression_percent") as [->|Hc].
    + pose proof (bestIdx_compression groupVals) as Hb.
      rewrite H in Hb. destruct Hb as (b & Hb & _). eauto.
    + destruct (in_dec string_dec keyName broadcastRows) as [Hin|Hnin].
      * pose proof (bestIdx_broadcast keyName groupVals Hin) as Hb.
        rewrite H in Hb. destruct Hb as (b & Hb & _). eauto.
      * rewrite (bestIdx_other keyName groupVals Hc Hnin) in H.
        discriminate.
Qed.

(** C8.  For the row of average compression percent the index chosen as
    best holds the maximum of the non-null values; for each of the three
    rows of average broadcast time it holds the minimum of the non-null
    strictly positive values; every other row chooses none; and the cell
    marked best is the cell of the chosen index. *)
Theorem best_value_selection :
  forall (groupVals : list (option Q)),
    (forall i, bestIdxOf "avg_compression_percent" groupVals = Some i ->
               exists v, nth_error groupVals i = Some (Some v) /\
                         forall u, In (Some u) groupVals -> u <= v) /\
    (bestIdxOf "avg_compression_percent" groupVals = None ->
     forall u, ~ In (Some u) groupVals) /\
    (forall keyName i,
        In keyName broadcastRows ->
        bestIdxOf keyName groupVals = Some i ->
        exists v, nth_error groupVals i = Some (Some v) /\ 0 < v /\
                  forall u, In (Some u) groupVals -> 0 < u -> v <= u) /\
    (forall keyName,
        In keyName broadcastRows ->
        bestIdxOf keyName groupVals = None ->
        forall u, In (Some u) groupVals -> u <= 0) /\
    (forall keyName,
        keyName <> "avg_compression_percent"%string ->
        ~ In keyName broadcastRows ->
        bestIdxOf keyName groupVals = None) /\
    (forall keyName i,
        cellClass keyName groupVals i = Some "best-cell"%string <->
        bestIdxOf keyName groupVals = Some i).
Proof.
  intros groupVals.
  split; [|split; [|split; [|split; [|split]]]].
  - intros i Hi. pose proof (bestIdx_compression groupVals) as H.
    rewrite Hi in H. destruct H as (b & Hnth & _ & Hbest).
    exists b. split; [exact Hnth|]. intros u Hu. now apply Hbest.
  - intros Hn u Hu. pose proof (bestIdx_compression groupVals) as H.
    rewrite Hn in H. specialize (H u Hu). discriminate.
  - intros keyName i Hin Hi.
    pose proof (bestIdx_broadcast keyName groupVals Hin) as H.
    rewrite Hi in H. destruct H as (b & Hnth & Hpos & Hbest).
    exists b. split; [exact Hnth|]. split; [now apply Qltb_lt|].
    intros u Hu Hu0. apply Hbest; [exact Hu|now apply Qltb_lt].
  - intros keyName Hin Hn u Hu.
    pose proof (bestIdx_broadcast keyName groupVals Hin) as H.
    rewrite Hn in H. specialize (H u Hu). now apply Qltb_ge.
  - intros keyName. apply bestIdx_other.
  - intros keyName i. split.
    + unfold cellClass.
      destruct (nth_error groupVals i) as [[val|]|]; try discriminate.
      destruct (_ && _); [discriminate|].
      destruct (bestIdxOf keyName groupVals) as [b|]; [|discriminate].
      destruct (Nat.eqb_spec i b) as [->|_]; [reflexivity|discriminate].
    + intros Hi.
      destruct (bestIdx_points_at_value keyName groupVals i Hi)
        as (Hk & v & Hnth).
      unfold cellClass. rewrite Hnth, Hi, Nat.eqb_refl.
      destruct (String.eqb_spec keyName "num_blocks"); [contradiction|].
      reflexivity.
Qed.

Lemma best_value_selection_witness :
  exists v, nth_error [Some 0; Some 5; Some 3] 2 = Some (Some v) /\ 0 < v /\
            forall u, In (Some u) [Some 0; Some 5; Some 3] -> 0 < u -> v <= u.
Proof.
  destruct (best_value_selection [Some 0; Some 5; Some 3])
    as (_ & _ & H & _).
  apply (H "avg_broadcast_time_full_s"%string 2%nat).
  - right. left. reflexivity.
  - reflexivity.
Defined.

(** The samples of the specification: among the compression percents
    0.10, 0.25 and null the second is best; among the broadcast times 0,
    5.0 and 3.0 the third is. *)
Example best_value_samples :
  bestIdxOf "avg_compression_percent" [Some 0.10; Some 0.25; None]
  = Some 1%nat /\
  bestIdxOf "avg_broadcast_time_avg_s" [Some 0; Some 5.0; Some 3.0]
  = Some 2%nat /\
  cellClass "avg_broadcast_time_avg_s" [Some 0; Some 5.0; Some 3.0] 0
  = Some "other-cell"%string /\
  bestIdxOf "num_blocks" [Some 4; Some 7] = None.
Proof. repeat split; reflexivity. Qed.

(** ** Cross-experiment union builder *)


Lemma unionMapStep_fold_keys (tos : Dict CategoryStats) :
  forall (um : Dict UnionMeta) (k : string),
    In k (dictKeys (fold_left unionMapStep tos um)) <->
    In k (dictKeys um) \/ In k (dictKeys tos).
Proof.
  induction tos as [|[k0 cs] tos IH]; intros um k; simpl; [tauto|].
  rewrite IH. unfold unionMapStep at 1, dictKeys, dictSet. simpl.
  rewrite (assocSet_keys_In String.eqb Seqb_eq). intuition.
Qed.

Lemma unionMapStep_fold_NoDup (tos : Dict CategoryStats) :
  forall um, NoDup (dictKeys um) ->
             NoDup (dictKeys (fold_left unionMapStep tos um)).
Proof.
  induction tos as [|[k0 cs] tos IH]; intros um Hnd; simpl; [exact Hnd|].
  apply IH. unfold unionMapStep, dictKeys, dictSet.
  now apply (assocSet_keys_NoDup String.eqb Seqb_eq).
Qed.

Lemma unionMap_fold_keys (experiments : list Experiment) :
  forall (um : Dict UnionMeta) (k : string),
    In k (dictKeys
            (fold_left (fun um exp =>
                          fold_left unionMapStep
                            (type_called_from_stats (exp_stats exp)) um)
               experiments um)) <->
    In k (dictKeys um) \/
    exists exp, In exp experiments /\
                In k (dictKeys (type_called_from_stats (exp_stats exp))).
Proof.
  induction experiments as [|e es IH]; intros um k; simpl.
  - split; [tauto|]. intros [H|(exp & [] & _)]. exact H.
  - rewrite IH, unionMapStep_fold_keys. split.
    + intros [[H|H]|(exp & He & Hk)]; [tauto| |].
      * right. exists e. tauto.
      * right. exists exp. tauto.
    + intros [H|(exp & [<-|He] & Hk)]; [tauto|tauto|].
      right. exists exp. tauto.
Qed.

Lemma unionMap_fold_NoDup (experiments : list Experiment) :
  forall um, NoDup (dictKeys um) ->
             NoDup (dictKeys
                      (fold_left (fun um exp =>
                                    fold_left unionMapStep
                                      (type_called_from_stats (exp_stats exp))
                                      um)
                         experiments um)).
Proof.
  induction experiments as [|e es IH]; intros um Hnd; simpl; [exact Hnd|].
  apply IH. now apply unionMapStep_fold_NoDup.
Qed.

(** The keys of [unionMap] are the union of the category keys. *)
Lemma buildUnionMap_keys (experiments : list Experiment) (k : string) :
  In k (dictKeys (buildUnionMap experiments)) <->
  exists exp, In exp experiments /\
              In k (dictKeys (type_called_from_stats (exp_stats exp))).
Proof.
  unfold buildUnionMap. rewrite unionMap_fold_keys. simpl. tauto.
Qed.

Lemma buildUnionMap_NoDup (experiments : list Experiment) :
  NoDup (dictKeys (buildUnionMap experiments)).
Proof. apply unionMap_fold_NoDup. constructor. Qed.

(** Every entry of [unionMap] is what the first loop stores for a
    category that some experiment has under that key. *)
Lemma unionMapStep_fold_meta (tos : Dict CategoryStats) :
  forall (um : Dict UnionMeta) (k : string) (m : UnionMeta),
    dictGet k (fold_left unionMapStep tos um) = Some m ->
    dictGet k um = Some m \/ exists cs, In (k, cs) tos /\ m = metaOf cs.
Proof.
  induction tos as [|[k0 cs0] tos IH]; intros um k m Hget; simpl in *;
    [now left|].
  destruct (IH _ _ _ Hget) as [Hum|(cs & Hin & Hm)].
  - unfold unionMapStep, dictGet, dictSet in Hum. cbn [fst snd] in Hum.
    destruct (string_dec k k0) as [->|Hne].
    + rewrite (assocGet_set_same String.eqb Seqb_eq) in Hum.
      injection Hum as <-. right. exists cs0. split; [now left|reflexivity].
    + rewrite (assocGet_set_other String.eqb Seqb_eq) in Hum by exact Hne.
      now left.
  - right. exists cs. split; [now right|exact Hm].
Qed.

Lemma unionMap_fold_meta (experiments : list Experiment) :
  forall (um : Dict UnionMeta) (k : string) (m : UnionMeta),
    dictGet k
      (fold_left (fun um exp =>
                    fold_left unionMapStep
                      (type_called_from_stats (exp_stats exp)) um)
         experiments um) = Some m ->
    dictGet k um = Some m \/
    exists exp cs,
      In exp experiments /\
      In (k, cs) (type_called_from_stats (exp_stats exp)) /\ m = metaOf cs.
Proof.
  induction experiments as [|e es IH]; intros um k m Hget; simpl in *;
    [now left|].
  destruct (IH _ _ _ Hget) as [Hum|(exp & cs & He & Hin & Hm)].
  - destruct (unionMapStep_fold_meta _ _ _ _ Hum) as [H0|(cs & Hin & Hm)];
      [now left|].
    right. exists e, cs. split; [now left|now split].
  - right. exists exp, cs. split; [now right|now split].
Qed.

Lemma buildUnionMap_meta (experiments : list Experiment) (k : string)
    (m : UnionMeta) :
  dictGet k (buildUnionMap experiments) = Some m ->
  exists exp cs,
    In exp experiments /\
    In (k, cs) (type_called_from_stats (exp_stats exp)) /\ m = metaOf cs.
Proof.
  intros Hget. destruct (unionMap_fold_meta _ _ _ _ Hget) as [H0|H];
    [discriminate H0|exact H].
Qed.

(** Stable sorting under a comparison that is total and transitive on the
    elements at hand. *)
Section StableSortOn.
Context {A : Type}.
Variable leb : A -> A -> bool.
Variable P : A -> Prop.
Hypothesis leb_total_on :
  forall x y, P x -> P y -> leb x y = false -> leb y x = true.
Hypothesis leb_trans_on :
  forall x y z, P x -> P y -> P z ->
                leb x y = true -> leb y z = true -> leb x z = true.

Lemma insertSorted_sorted_on x l :
  P x -> Forall P l ->
  StronglySorted (fun a b => leb a b = true) l ->
  StronglySorted (fun a b => leb a b = true) (insertSorted leb x l).
Proof.
  intros Hx HP Hs. induction Hs as [|y l Hs IH Hall]; simpl.
  - repeat constructor.
  - inversion HP as [|? ? Hy HPl]; subst.
    rewrite Forall_forall in HPl.
    destruct (leb x y) eqn:E.
    + constructor; [now constructor|].
      constructor; [exact E|].
      apply Forall_forall. intros z Hz.
      apply (leb_trans_on x y z); auto.
      rewrite Forall_forall in Hall. now apply Hall.
    + constructor; [apply IH; now apply Forall_forall|].
      apply Forall_forall. intros z Hz.
      apply (Permutation_in _ (insertSorted_perm leb x l)) in Hz.
      destruct Hz as [<-|Hz]; [now apply leb_total_on|].
      rewrite Forall_forall in Hall. now apply Hall.
Qed.

Lemma stableSort_sorted_on l :
  Forall P l ->
  StronglySorted (fun a b => leb a b = true) (stableSort leb l).
Proof.
  induction l as [|x l IH]; intros HP; simpl; [constructor|].
  inversion HP as [|? ? Hx HPl]; subst.
  apply insertSorted_sorted_on; [exact Hx| |now apply IH].
  apply Forall_forall. intros y Hy. apply stableSort_In in Hy.
  rewrite Forall_forall in HPl. now apply HPl.
Qed.
End StableSortOn.

(** Consequences of the two laws of a collation. *)
Lemma coll_refl `{Collation} (a : string) : localeCompare a a = Eq.
Proof.
  pose proof (coll_opp a a) as Ha.
  destruct (localeCompare a a); [reflexivity|discriminate|discriminate].
Qed.

Lemma coll_lt_trans `{Collation} (a b c : string) :
  localeCompare a b = Lt -> localeCompare b c = Lt -> localeCompare a c = Lt.
Proof.
  intros Hab Hbc.
  assert (Hac : localeCompare a c <> Gt)
    by (apply (coll_trans a b c); congruence).
  destruct (localeCompare a c) eqn:E; [|reflexivity|congruence].
  exfalso.
  assert (Hca : localeCompare c a <> Gt)
    by (rewrite (coll_opp a c), E; discriminate).
  assert (Hcb : localeCompare c b <> Gt)
    by (apply (coll_trans c a b); [exact Hca|congruence]).
  apply Hcb. now rewrite (coll_opp b c), Hbc.
Qed.

Lemma metaOrder_trans `{Collation} (ma mb mc : UnionMeta) :
  metaOrder localeCompare ma mb -> metaOrder localeCompare mb mc ->
  metaOrder localeCompare ma mc.
Proof.
  unfold metaOrder. intros [Hab|[Eab Hab]] [Hbc|[Ebc Hbc]].
  - left. now apply coll_lt_trans with (strOr (um_type mb) EmptyString).
  - left. now rewrite <- Ebc.
  - left. now rewrite Eab.
  - right. split; [congruence|].
    now apply coll_trans with (strOr (um_called_from mb) EmptyString).
Qed.

(** On entries whose types the collation tells apart, the comparator of
    the sort decides the order by type, then origin. *)
Lemma unionKeyLeb_order `{Collation} (um : Dict UnionMeta) (a b : string)
    (ma mb : UnionMeta) :
  dictGet a um = Some ma -> dictGet b um = Some mb ->
  (localeCompare (strOr (um_type ma) EmptyString)
                 (strOr (um_type mb) EmptyString) = Eq ->
   strOr (um_type ma) EmptyString = strOr (um_type mb) EmptyString) ->
  unionKeyLeb um a b = true <-> metaOrder localeCompare ma mb.
Proof.
  intros Ha Hb Hapart.
  unfold unionKeyLeb, unionKeyCompare, sortType, sortOrigin, metaOrder.
  rewrite Ha, Hb. cbv zeta.
  destruct (String.eqb_spec (strOr (um_type ma) EmptyString)
              (strOr (um_type mb) EmptyString)) as [E|E]; simpl.
  - rewrite E, coll_refl.
    destruct (localeCompare (strOr (um_called_from ma) EmptyString)
                (strOr (um_called_from mb) EmptyString));
      split; try discriminate; try reflexivity.
    + intros _. right. split; [reflexivity|discriminate].
    + intros _. right. split; [reflexivity|discriminate].
    + intros [Hd|[_ Hd]]; [discriminate|congruence].
  - destruct (localeCompare (strOr (um_type ma) EmptyString)
                (strOr (um_type mb) EmptyString)) eqn:Ec.
    + exfalso. apply E. now apply Hapart.
    + split; [now left|reflexivity].
    + split; [discriminate|]. intros [Hd|[Hd _]]; [discriminate|].
      contradiction.
Qed.

Lemma unionKeyLeb_total `{Collation} (um : Dict UnionMeta) (a b : string)
    (ma mb : UnionMeta) :
  dictGet a um = Some ma -> dictGet b um = Some mb ->
  unionKeyLeb um a b = false -> unionKeyLeb um b a = true.
Proof.
  intros Ha Hb.
  unfold unionKeyLeb, unionKeyCompare, sortType, sortOrigin.
  rewrite Ha, Hb. cbv zeta.
  rewrite (String.eqb_sym (strOr (um_type mb) EmptyString)).
  destruct (String.eqb (strOr (um_type ma) EmptyString)
              (strOr (um_type mb) EmptyString)); simpl.
  - rewrite (coll_opp (strOr (um_called_from ma) EmptyString)).
    now destruct (localeCompare (strOr (um_called_from ma) EmptyString)
                    (strOr (um_called_from mb) EmptyString)).
  - rewrite (coll_opp (strOr (um_type ma) EmptyString)).
    now destruct (localeCompare (strOr (um_type ma) EmptyString)
                    (strOr (um_type mb) EmptyString)).
Qed.

Lemma unionKeys_sorted `{Collation} (um : Dict UnionMeta) :
  (forall a b ma mb,
      dictGet a um = Some ma -> dictGet b um = Some mb ->
      localeCompare (strOr (um_type ma) EmptyString)
                    (strOr (um_type mb) EmptyString) = Eq ->
      strOr (um_type ma) EmptyString = strOr (um_type mb) EmptyString) ->
  StronglySorted (keysOrdered localeCompare um)
    (stableSort (unionKeyLeb um) (dictKeys um)).
Proof.
  intros Hapart.
  assert (Hentry : forall k, In k (dictKeys um) ->
                             exists m, dictGet k um = Some m)
    by (intros k; apply (assocGet_In_keys String.eqb Seqb_eq)).
  assert (Hs : StronglySorted (fun a b => unionKeyLeb um a b = true)
                 (stableSort (unionKeyLeb um) (dictKeys um))).
  { apply (stableSort_sorted_on (unionKeyLeb um)
             (fun k => In k (dictKeys um))).
    - intros x y Hx Hy.
      destruct (Hentry x Hx) as [mx Hmx], (Hentry y Hy) as [my Hmy].
      now apply (unionKeyLeb_total um x y mx my).
    - intros x y z Hx Hy Hz Hxy Hyz.
      destruct (Hentry x Hx) as [mx Hmx], (Hentry y Hy) as [my Hmy],
               (Hentry z Hz) as [mz Hmz].
      apply (unionKeyLeb_order um x y mx my Hmx Hmy) in Hxy;
        [|now apply (Hapart x y)].
      apply (unionKeyLeb_order um y z my mz Hmy Hmz) in Hyz;
        [|now apply (Hapart y z)].
      apply (unionKeyLeb_order um x z mx mz Hmx Hmz);
        [now apply (Hapart x z)|].
      now apply metaOrder_trans with my.
    - apply Forall_forall. auto. }
  assert (Hin : forall k, In k (stableSort (unionKeyLeb um) (dictKeys um)) ->
                          In k (dictKeys um))
    by (intros k; apply stableSort_In).
  induction Hs as [|x l Hs IH Hall]; constructor.
  - apply IH. intros k Hk. apply Hin. now right.
  - apply Forall_forall. intros y Hy.
    rewrite Forall_forall in Hall. specialize (Hall y Hy).
    destruct (Hentry x (Hin x (or_introl eq_refl))) as [mx Hmx].
    destruct (Hentry y (Hin y (or_intror Hy))) as [my Hmy].
    exists mx, my. split; [exact Hmx|]. split; [exact Hmy|].
    apply (unionKeyLeb_order um x y mx my Hmx Hmy); [|exact Hall].
    now apply (Hapart x y).
Qed.

Lemma fold_dictSet_get {V : Type} (f : string -> V) (keys : list string) :
  forall (acc : Dict V) (k : string),
    In k keys ->
    dictGet k (fold_left (fun pd k' => dictSet k' (f k') pd) keys acc)
    = Some (f k).
Proof.
  induction keys as [|k0 keys IH]; intros acc k Hin; [destruct Hin|].
  simpl. destruct (in_dec string_dec k keys) as [Hk|Hk]; [now apply IH|].
  destruct Hin as [->|Hin]; [|contradiction].
  clear IH. revert acc.
  assert (Hkeep : forall acc,
             dictGet k acc = Some (f k) ->
             dictGet k (fold_left (fun pd k' => dictSet k' (f k') pd)
                          keys acc) = Some (f k)).
  { induction keys as [|k1 keys IH]; intros acc Hacc; [exact Hacc|].
    simpl. apply IH; [intros Hin; apply Hk; now right|].
    unfold dictGet, dictSet.
    rewrite (assocGet_set_other String.eqb Seqb_eq); [exact Hacc|].
    intros ->. apply Hk. now left. }
  intros acc. apply Hkeep. unfold dictGet, dictSet.
  apply (assocGet_set_same String.eqb Seqb_eq).
Qed.

(** Each series list of an entry has one series per experiment, in the
    order of the experiments. *)
Lemma buildEntry_series (um : Dict UnionMeta) (experiments : list Experiment)
    (k : string) (kind : SeriesKind) :
  seriesOf kind (buildEntry um experiments k)
  = map (seriesFor k kind) experiments.
Proof.
  unfold buildEntry.
  set (e0 := {| pe_label := _ |}).
  replace (map (seriesFor k kind) experiments)
    with (seriesOf kind e0 ++ map (seriesFor k kind) experiments)
    by now destruct kind.
  generalize e0. clear e0.
  induction experiments as [|exp exps IH]; intros e0; simpl.
  - now rewrite app_nil_r.
  - rewrite IH. destruct kind; simpl; now rewrite <- app_assoc.
Qed.

(** C7, as the code has it.  The union keys are exactly the category keys
    found in some experiment, each once.  The union map holds for each of
    them the type, origin and label of a category that an experiment has
    under that key.  The keys are put in order by type and then origin (an
    absent label compared as the empty string) under the host's
    [localeCompare], whenever that is a collation that tells the type
    labels of the categories apart.  For every union key and every one of
    the seven series kinds the entry holds one series per experiment in
    experiment order, carrying the experiment's name and time origin, with
    the category's points or, when the experiment lacks the category, no
    points. *)
Theorem union_of_categories :
  forall (host : JsHost) (experiments : list Experiment),
    let r := buildPlotsData experiments in
    (forall k,
        In k (unionKeys r) <->
        exists exp, In exp experiments /\
                    In k (dictKeys (type_called_from_stats (exp_stats exp))))
    /\ NoDup (unionKeys r)
    /\ (forall k,
           In k (unionKeys r) ->
           exists exp cs,
             In exp experiments /\
             In (k, cs) (type_called_from_stats (exp_stats exp)) /\
             dictGet k (unionMap r)
             = Some {| um_type := cs_type cs;
                       um_called_from := cs_called_from cs;
                       um_label :=
                         labelOf (cs_type cs) (cs_called_from cs) |})
    /\ (Collation -> typesToldApart experiments ->
        StronglySorted (keysOrdered localeCompare (unionMap r))
          (unionKeys r))
    /\ (forall k,
           In k (unionKeys r) ->
           exists entry,
             dictGet k (plotsData r) = Some entry /\
             forall kind,
               In kind allSeriesKinds ->
               length (seriesOf kind entry) = length experiments /\
               forall i exp,
                 nth_error experiments i = Some exp ->
                 exists s,
                   nth_error (seriesOf kind entry) i = Some s /\
                   s_name s = exp_name exp /\
                   s_base_ts s = baseTsOf exp /\
                   s_points s =
                   match dictGet k (type_called_from_stats (exp_stats exp))
                   with
                   | Some cat => pointsOf kind cat
                   | None => []
                   end).
Proof.
  intros host experiments r. subst r. unfold buildPlotsData. simpl.
  split; [|split; [|split; [|split]]].
  - intros k. rewrite stableSort_In. apply buildUnionMap_keys.
  - apply (Permutation_NoDup
             (Permutation_sym (stableSort_perm _ _))).
    apply buildUnionMap_NoDup.
  - intros k Hk. apply stableSort_In in Hk.
    destruct (assocGet_In_keys String.eqb Seqb_eq k _ Hk) as [m Hm].
    destruct (buildUnionMap_meta experiments k m Hm)
      as (exp & cs & Hexp & Hin & ->).
    now exists exp, cs.
  - intros Hcoll Hapart. apply unionKeys_sorted.
    intros a b ma mb Ha Hb.
    destruct (buildUnionMap_meta experiments a ma Ha)
      as (e1 & c1 & He1 & Hc1 & ->).
    destruct (buildUnionMap_meta experiments b mb Hb)
      as (e2 & c2 & He2 & Hc2 & ->).
    exact (Hapart e1 e2 a b c1 c2 He1 He2 Hc1 Hc2).
  - intros k Hk.
    exists (buildEntry (buildUnionMap experiments) experiments k).
    split; [now apply fold_dictSet_get|].
    intros kind _. rewrite buildEntry_series.
    split; [apply length_map|].
    intros i exp Hi. exists (seriesFor k kind exp).
    split; [now apply map_nth_error|]. repeat split.
Qed.

Lemma ascii_compare_lt_trans (a b c : ascii) :
  Ascii.compare a b = Lt -> Ascii.compare b c = Lt -> Ascii.compare a c = Lt.
Proof.
  unfold Ascii.compare. rewrite !N.compare_lt_iff. apply N.lt_trans.
Qed.

Lemma string_compare_lt_trans (a : string) :
  forall b c, String.compare a b = Lt -> String.compare b c = Lt ->
              String.compare a c = Lt.
Proof.
  induction a as [|x a IH]; intros [|y b] [|z c]; simpl;
    try discriminate; try reflexivity.
  destruct (Ascii.compare x y) eqn:Exy; try discriminate;
    destruct (Ascii.compare y z) eqn:Eyz; try discriminate; intros Hab Hbc.
  - apply Ascii.compare_eq_iff in Exy, Eyz. subst.
    assert (Hzz : Ascii.compare z z = Eq)
      by (unfold Ascii.compare; apply N.compare_refl).
    rewrite Hzz. now apply IH with b.
  - apply Ascii.compare_eq_iff in Exy. subst. now rewrite Eyz.
  - apply Ascii.compare_eq_iff in Eyz. subst. now rewrite Exy.
  - now rewrite (ascii_compare_lt_trans x y z Exy Eyz).
Qed.

Lemma string_compare_refl (a : string) : String.compare a a = Eq.
Proof.
  pose proof (String.compare_antisym a a) as Ha.
  destruct (String.compare a a); [reflexivity|discriminate|discriminate].
Qed.

Lemma string_compare_le_trans (a b c : string) :
  String.compare a b <> Gt -> String.compare b c <> Gt ->
  String.compare a c <> Gt.
Proof.
  intros Hab Hbc.
  destruct (String.compare a b) eqn:Eab; [| |congruence].
  - apply String.compare_eq_iff in Eab. now subst.
  - destruct (String.compare b c) eqn:Ebc; [| |congruence].
    + apply String.compare_eq_iff in Ebc. subst. rewrite Eab. discriminate.
    + rewrite (string_compare_lt_trans a b c Eab Ebc). discriminate.
Qed.

(** The code-point order is a collation that tells all strings apart. *)
Lemma sampleHost_collation : @Collation sampleHost.
Proof.
  constructor; simpl.
  - intros a b. apply String.compare_antisym.
  - apply string_compare_le_trans.
Qed.

(** So is the order that compares without regard to case first. *)
Lemma collatingHost_collation : @Collation collatingHost.
Proof.
  constructor; simpl; unfold caseFirstCompare.
  - intros a b.
    rewrite (String.compare_antisym (foldCaseString a) (foldCaseString b)).
    destruct (String.compare (foldCaseString b) (foldCaseString a));
      simpl; [|reflexivity|reflexivity].
    apply String.compare_antisym.
  - intros a b c.
    destruct (String.compare (foldCaseString a) (foldCaseString b)) eqn:Eab;
      [| |congruence];
      destruct (String.compare (foldCaseString b) (foldCaseString c))
        eqn:Ebc; try congruence.
    + apply String.compare_eq_iff in Eab, Ebc.
      rewrite Eab, Ebc, string_compare_refl.
      intros Hba Hcb. now apply string_compare_le_trans with b.
    + apply String.compare_eq_iff in Eab. rewrite Eab, Ebc. discriminate.
    + apply String.compare_eq_iff in Ebc. rewrite <- Ebc, Eab. discriminate.
    + rewrite (string_compare_lt_trans _ _ _ Eab Ebc). discriminate.
Qed.

Lemma union_of_categories_witness :
  StronglySorted
    (keysOrdered String.compare
       (unionMap (@buildPlotsData sampleHost [experimentA; experimentB])))
    (unionKeys (@buildPlotsData sampleHost [experimentA; experimentB])) /\
  exists entry s,
    dictGet "Y__None"
      (plotsData (@buildPlotsData sampleHost [experimentA; experimentB]))
    = Some entry /\
    length (block_size_series entry) = 2%nat /\
    nth_error (block_size_series entry) 0 = Some s /\
    s_name s = "A"%string /\
    s_base_ts s = Some "2024-01-01T00:00:00.000"%string /\
    s_points s = [].
Proof.
  destruct (union_of_categories sampleHost [experimentA; experimentB])
    as (_ & _ & _ & Hsorted & Hentries).
  split.
  - apply (Hsorted sampleHost_collation).
    intros e1 e2 k1 k2 c1 c2 _ _ _ _. apply String.compare_eq_iff.
  - destruct (Hentries "Y__None"%string) as (entry & Hget & Hkinds).
    { right. left. reflexivity. }
    destruct (Hkinds BlockSize) as (Hlen & Hslots); [now left|].
    destruct (Hslots 0%nat experimentA) as (s & Hs & Hname & Hts & Hpts);
      [reflexivity|].
    exists entry, s. repeat split; assumption.
Defined.

(** C7, as stated, fails: the order of the keys is that of the host's
    [localeCompare], not the lexicographic order of the strings.  Under a
    collation that compares without regard to case first, type "a" goes
    before type "B", which the lexicographic order puts first. *)
Lemma union_keys_not_lexicographic :
  ~ (forall (host : JsHost) (experiments : list Experiment),
        @Collation host -> @typesToldApart host experiments ->
        StronglySorted
          (keysOrdered String.compare
             (unionMap (@buildPlotsData host experiments)))
          (unionKeys (@buildPlotsData host experiments))).
Proof.
  intros H.
  specialize (H collatingHost [experimentUpper; experimentLower]
                collatingHost_collation).
  assert (Hapart : @typesToldApart collatingHost
                     [experimentUpper; experimentLower]).
  { intros e1 e2 k1 k2 c1 c2 He1 He2 Hc1 Hc2.
    destruct He1 as [<-|[<-|[]]]; destruct He2 as [<-|[<-|[]]];
      destruct Hc1 as [[= <- <-]|[]]; destruct Hc2 as [[= <- <-]|[]];
      vm_compute; congruence. }
  specialize (H Hapart).
  change (unionKeys (@buildPlotsData collatingHost
                       [experimentUpper; experimentLower]))
    with ["a__None"; "B__None"]%string in H.
  apply StronglySorted_inv in H as [_ Hall].
  apply Forall_inv in Hall.
  destruct Hall as (ma & mb & Ha & Hb & Hord).
  vm_compute in Ha, Hb. injection Ha as <-. injection Hb as <-.
  destruct Hord as [Hlt|[Heq _]]; vm_compute in Hlt || vm_compute in Heq;
    discriminate.
Qed.

(** The sample of the specification: the union of A = {X} and B = {X, Y}
    has the keys X and Y in that order; and the keys of the two
    experiments of types "B" and "a" under the two hosts. *)
Example union_sample :
  unionKeys (@buildPlotsData sampleHost [experimentA; experimentB])
  = ["X__None"; "Y__None"]%string /\
  unionKeys (@buildPlotsData sampleHost [experimentUpper; experimentLower])
  = ["B__None"; "a__None"]%string /\
  unionKeys (@buildPlotsData collatingHost [experimentUpper; experimentLower])
  = ["a__None"; "B__None"]%string.
Proof. repeat split. Qed.

(** ** Block grouper *)

Lemma Permutation_filter_same {A : Type} (f : A -> bool) (l l' : list A) :
  Permutation l l' -> Permutation (filter f l) (filter f l').
Proof.
  induction 1 as [|x l l' Hp IH|x y l|l l' l'' H1 IH1 H2 IH2]; simpl.
  - constructor.
  - destruct (f x); [now constructor|exact IH].
  - destruct (f x), (f y); try reflexivity. apply perm_swap.
  - now transitivity (filter f l').
Qed.



Lemma mathMin_least (xs : list Q) :
  forall x, (mathMin x xs = x \/ In (mathMin x xs) xs) /\
            mathMin x xs <= x /\ Forall (Qle (mathMin x xs)) xs.
Proof.
  unfold mathMin.
  induction xs as [|y ys IH]; intros x; simpl.
  - split; [now left|]. split; [apply Qle_refl|constructor].
  - destruct (IH (numMin x y)) as (Hin & Hle & Hall).
    assert (Hm : numMin x y <= x /\ numMin x y <= y /\
                 (numMin x y = x \/ numMin x y = y)).
    { unfold numMin. destruct (Qle_bool x y) eqn:E.
      - apply Qle_bool_iff in E. repeat split; auto using Qle_refl.
      - apply Qle_bool_total, Qle_bool_iff in E.
        repeat split; auto using Qle_refl. }
    destruct Hm as (Hx & Hy & Hsel).
    split; [|split].
    + destruct Hin as [Hin|Hin]; [|now right; right].
      rewrite Hin. destruct Hsel as [->| ->]; [now left|right; now left].
    + now apply Qle_trans with (numMin x y).
    + constructor; [now apply Qle_trans with (numMin x y)|exact Hall].
Qed.

Lemma mathMax_greatest (xs : list Q) :
  forall x, (mathMax x xs = x \/ In (mathMax x xs) xs) /\
            x <= mathMax x xs /\ Forall (fun y => y <= mathMax x xs) xs.
Proof.
  unfold mathMax.
  induction xs as [|y ys IH]; intros x; simpl.
  - split; [now left|]. split; [apply Qle_refl|constructor].
  - destruct (IH (numMax x y)) as (Hin & Hle & Hall).
    assert (Hm : x <= numMax x y /\ y <= numMax x y /\
                 (numMax x y = x \/ numMax x y = y)).
    { unfold numMax. destruct (Qle_bool x y) eqn:E.
      - apply Qle_bool_iff in E. repeat split; auto using Qle_refl.
      - apply Qle_bool_total, Qle_bool_iff in E.
        repeat split; auto using Qle_refl. }
    destruct Hm as (Hx & Hy & Hsel).
    split; [|split].
    + destruct Hin as [Hin|Hin]; [|now right; right].
      rewrite Hin. destruct Hsel as [->| ->]; [now left|right; now left].
    + now apply Qle_trans with (numMax x y).
    + constructor; [now apply Qle_trans with (numMax x y)|exact Hall].
Qed.

(** The first loop over a block's records fills the two stage-time arrays
    only. *)
Lemma stageTime_fold_keeps (blockId : BlockId) (recs : list GroupedRecord) :
  forall acc,
    let acc1 := fold_left (stageTimeStep blockId) recs acc in
    blockSizePointsDt acc1 = blockSizePointsDt acc /\
    compressionPercentPointsDt acc1 = compressionPercentPointsDt acc /\
    broadcastTimeAvgPointsDt acc1 = broadcastTimeAvgPointsDt acc /\
    broadcastTimeFullPointsDt acc1 = broadcastTimeFullPointsDt acc /\
    broadcastTime66pPointsDt acc1 = broadcastTime66pPointsDt acc /\
    blockSizeById acc1 = blockSizeById acc.
Proof.
  induction recs as [|r recs IH]; intros acc; simpl; [repeat split|].
  destruct (IH (stageTimeStep blockId acc r)) as (H1 & H2 & H3 & H4 & H5 & H6).
  rewrite H1, H2, H3, H4, H5, H6. unfold stageTimeStep.
  destruct (stageIs "compress" r); [repeat split|].
  destruct (stageIs "decompress" r); repeat split.
Qed.



(** The sample of the specification: full = 30 - 10 = 20,
    avg = (20 + 25 + 30) / 3 - 10 = 15, and the 66th percentile of
    [10, 15, 20], all anchored at 10. *)
Example broadcast_sample :
  let acc := blockStep emptyAcc ("blk"%string, sampleBlockRecords) in
  broadcastTimeFullPointsDt acc = [Point3 10 20 "blk"%string] /\
  (exists v, broadcastTimeAvgPointsDt acc = [Point3 10 v "blk"%string] /\ v == 15) /\
  (exists v, broadcastTime66pPointsDt acc = [Point3 10 v "blk"%string] /\
             v == 16.6) /\
  blockSizePointsDt acc = [].
Proof.
  cbv zeta. split; [reflexivity|].
  split; [eexists; split; [reflexivity|reflexivity]|].
  split; [eexists; split; [reflexivity|reflexivity]|reflexivity].
Qed.

(** ** Payload decoder *)

Lemma blockEntryStep_decoded ts0 recIdx sizeIdx payload
    (blockEntry : BlockEntry) :
  forall st,
    blockEntryStep ts0 recIdx sizeIdx payload st blockEntry
    = fold_left fileDecoded
        (decodedOf ts0 recIdx sizeIdx payload [blockEntry]) st.
Proof.
  unfold blockEntryStep, decodedOf. simpl. rewrite app_nil_r.
  induction (be_records blockEntry) as [|rec recs IH]; intros st; simpl;
    [reflexivity|].
  rewrite fold_left_app, IH. f_equal.
  unfold recordStep.
  now destruct (decodeRecord ts0 recIdx sizeIdx payload
                  (be_size_map blockEntry) rec).
Qed.

(** The two loops of the decoder file the decoded records one by one. *)
Lemma decodeBlocks_decoded ts0 recIdx sizeIdx payload
    (blocks : list BlockEntry) :
  decodeBlocks ts0 recIdx sizeIdx payload blocks
  = fold_left fileDecoded (decodedOf ts0 recIdx sizeIdx payload blocks)
      {| grouped := []; earliestSec := None |}.
Proof.
  unfold decodeBlocks. generalize {| grouped := []; earliestSec := None |}.
  induction blocks as [|be blocks IH]; intros st; [reflexivity|].
  simpl fold_left at 1. rewrite IH, blockEntryStep_decoded.
  replace (decodedOf ts0 recIdx sizeIdx payload (be :: blocks))
    with (decodedOf ts0 recIdx sizeIdx payload [be]
          ++ decodedOf ts0 recIdx sizeIdx payload blocks)
    by (unfold decodedOf; simpl; now rewrite app_nil_r).
  now rewrite fold_left_app.
Qed.

Lemma decodedOf_all_skipped ts0 recIdx sizeIdx payload
    (blocks : list BlockEntry) :
  (forall blockEntry rec,
      In blockEntry blocks -> In rec (be_records blockEntry) ->
      fieldOf recIdx "start_us" rec = None \/
      fieldOf recIdx "duration_us" rec = None) ->
  decodedOf ts0 recIdx sizeIdx payload blocks = [].
Proof.
  intros Hskip. unfold decodedOf.
  induction blocks as [|be blocks IH]; simpl; [reflexivity|].
  rewrite IH by (intros b r Hb; apply Hskip; now right).
  rewrite app_nil_r.
  assert (Hrecs : forall rec, In rec (be_records be) ->
                    fieldOf recIdx "start_us" rec = None \/
                    fieldOf recIdx "duration_us" rec = None)
    by (intros rec; apply Hskip; now left).
  induction (be_records be) as [|rec recs IHr]; simpl; [reflexivity|].
  rewrite IHr by (intros r Hr; apply Hrecs; now right).
  unfold decodeRecord.
  destruct (Hrecs rec (or_introl eq_refl)) as [-> | ->];
    [reflexivity|].
  now destruct (fieldOf recIdx "start_us" rec).
Qed.

(** The decoding loops read the payload's maps and field lists only, not
    its blocks. *)
Lemma decodeBlocks_header ts0 (raw : RawPayload)
    (given : option (list BlockEntry)) (blocks : list BlockEntry) :
  decodeBlocks ts0 (recIdxOf (payloadOf raw given))
    (sizeIdxOf (payloadOf raw given)) (payloadOf raw given) blocks
  = decodeBlocks ts0 (recIdxOf (headerOf raw)) (sizeIdxOf (headerOf raw))
      (headerOf raw) blocks.
Proof. reflexivity. Qed.

Lemma rawRecordsLoop_spec ts0 recIdx sizeIdx payload
    (blockEntry : BlockEntry) (recs : list (option (list Cell))) :
  forall st,
    rawRecordsLoop ts0 recIdx sizeIdx payload blockEntry recs st
    = if existsb (fun r => match r with None => true | Some _ => false end)
           recs
      then Threw TypeError
      else Returned
             (fold_left (recordStep ts0 recIdx sizeIdx payload blockEntry)
                (typedRecords (RecordsArray recs)) st).
Proof.
  induction recs as [|[rec|] recs IH]; intros st; cbn [rawRecordsLoop existsb];
    [reflexivity| |reflexivity].
  rewrite IH. cbn [orb]. reflexivity.
Qed.

Lemma rawBlockEntryStep_spec ts0 recIdx sizeIdx payload st
    (blockEntry : option RawBlockEntry) :
  rawBlockEntryStep ts0 recIdx sizeIdx payload st blockEntry
  = if entryRaises blockEntry then Threw TypeError
    else Returned
           (fold_left (blockEntryStep ts0 recIdx sizeIdx payload)
              (typedBlocks [blockEntry]) st).
Proof.
  destruct blockEntry as [e|]; [|reflexivity].
  unfold rawBlockEntryStep, entryRaises, typedBlocks. cbn [flat_map app].
  cbn [fold_left]. unfold blockEntryStep.
  destruct e as [id sizeMap records]. unfold typedEntry at 2.
  cbn [rbe_records be_records rbe_block_id rbe_size_map].
  destruct records as [|recs|]; [reflexivity| |reflexivity].
  apply rawRecordsLoop_spec.
Qed.

Lemma rawBlocksLoop_spec ts0 recIdx sizeIdx payload
    (blocks : list (option RawBlockEntry)) :
  forall st,
    rawBlocksLoop ts0 recIdx sizeIdx payload blocks st
    = if existsb entryRaises blocks then Threw TypeError
      else Returned
             (fold_left (blockEntryStep ts0 recIdx sizeIdx payload)
                (typedBlocks blocks) st).
Proof.
  induction blocks as [|b blocks IH]; intros st; cbn [rawBlocksLoop existsb];
    [reflexivity|].
  rewrite rawBlockEntryStep_spec.
  destruct (entryRaises b); [reflexivity|]. cbn [orb].
  rewrite IH. destruct (existsb entryRaises blocks); [reflexivity|].
  f_equal. unfold typedBlocks. cbn [flat_map].
  now rewrite app_nil_r, fold_left_app.
Qed.

(** When no entry raises, the call returns what the decoder computes from
    the entries and records that are there. *)
Lemma computeStatsFromParsed_returns `{JsHost} (raw : RawPayload)
    (fallbackName : option string)
    (blocks : list (option RawBlockEntry)) (ts0 : Q) :
  rp_blocks raw = Some blocks -> parseTs0 (headerOf raw) = Some ts0 ->
  computeStatsFromParsed (Some raw) fallbackName
  = if existsb entryRaises blocks then Threw TypeError
    else Returned
           (computeStatsFromCompressed
              (payloadOf raw (Some (typedBlocks blocks))) fallbackName).
Proof.
  intros Hb Ht. unfold computeStatsFromParsed. cbv zeta.
  rewrite Hb, Ht, rawBlocksLoop_spec.
  destruct (existsb entryRaises blocks); [reflexivity|].
  unfold computeStatsFromCompressed. cbv zeta.
  cbn [p_blocks payloadOf].
  change (parseTs0 (payloadOf raw (Some (typedBlocks blocks))))
    with (parseTs0 (headerOf raw)).
  rewrite Ht, decodeBlocks_header. unfold decodeBlocks.
  now destruct (earliestSec _).
Qed.

(** C5, as the code has it.  On a payload as parsed the decoder returns
    the empty result (the resolved experiment name, no time origin, no
    category), without raising, when [blocks] is not a list and when [ts0]
    is missing, empty or does not parse.  With a list and a parsed [ts0]
    it raises a [TypeError] when an element of [blocks] is [null], holds
    records that cannot be iterated, or holds a [null] record.  Otherwise
    it returns what it computes from the entries and records present, and
    that is the empty result when no record is decoded, in particular when
    every record lacks [start_us] or [duration_us].  A payload that is
    [null] raises as well. *)
Theorem decoder_fails_soft :
  forall (host : JsHost) (raw : RawPayload) (fallbackName : option string),
    let payload := headerOf raw in
    let sentinel :=
      {| experiment_name :=
           strOr (rp_experiment_name raw) (strOr fallbackName EmptyString);
         earliest_ts_global := None;
         type_called_from_stats := [] |} in
    let result := computeStatsFromParsed (Some raw) fallbackName in
    computeStatsFromParsed None fallbackName = Threw TypeError /\
    (rp_blocks raw = None -> result = Returned sentinel) /\
    (rp_ts0 raw = None \/ rp_ts0 raw = Some EmptyString \/
     (exists s, rp_ts0 raw = Some s /\ Date_parse s = None) ->
     result = Returned sentinel) /\
    (forall blocks ts0,
        rp_blocks raw = Some blocks -> parseTs0 payload = Some ts0 ->
        (existsb entryRaises blocks = true -> result = Threw TypeError) /\
        (existsb entryRaises blocks = false ->
         result
         = Returned
             (computeStatsFromCompressed
                (payloadOf raw (Some (typedBlocks blocks))) fallbackName) /\
         (decodedOf ts0 (recIdxOf payload) (sizeIdxOf payload) payload
            (typedBlocks blocks) = [] ->
          result = Returned sentinel) /\
         ((forall blockEntry rec,
              In blockEntry (typedBlocks blocks) ->
              In rec (be_records blockEntry) ->
              fieldOf (recIdxOf payload) "start_us" rec = None \/
              fieldOf (recIdxOf payload) "duration_us" rec = None) ->
          result = Returned sentinel))).
Proof.
  intros host raw fallbackName payload sentinel result.
  subst payload result.
  split; [reflexivity|]. split; [|split].
  - intros Hb. unfold computeStatsFromParsed. now rewrite Hb.
  - intros Hts.
    assert (Hp : parseTs0 (headerOf raw) = None).
    { unfold parseTs0. cbn [p_ts0 headerOf payloadOf].
      destruct Hts as [-> | [-> | (s & -> & Hs)]];
        [reflexivity|reflexivity|].
      now destruct s. }
    unfold computeStatsFromParsed. cbv zeta. rewrite Hp.
    now destruct (rp_blocks raw).
  - intros blocks ts0 Hb Ht.
    rewrite (computeStatsFromParsed_returns raw fallbackName blocks ts0 Hb Ht).
    split; [now intros ->|]. intros ->.
    assert (Hnodec :
              decodedOf ts0 (recIdxOf (headerOf raw))
                (sizeIdxOf (headerOf raw)) (headerOf raw)
                (typedBlocks blocks) = [] ->
              Returned
                (computeStatsFromCompressed
                   (payloadOf raw (Some (typedBlocks blocks))) fallbackName)
              = Returned sentinel).
    { intros Hd. f_equal. unfold computeStatsFromCompressed. cbv zeta.
      cbn [p_blocks payloadOf].
      change (parseTs0 (payloadOf raw (Some (typedBlocks blocks))))
        with (parseTs0 (headerOf raw)).
      rewrite Ht, decodeBlocks_header, decodeBlocks_decoded, Hd.
      reflexivity. }
    split; [reflexivity|]. split; [exact Hnodec|].
    intros Hskip. apply Hnodec. now apply decodedOf_all_skipped.
Qed.

Lemma decoder_fails_soft_witness :
  @computeStatsFromParsed sampleHost
    (Some (parsedWith (Some [Some (parsedEntry shortRecordsBlock)])))
    (Some "fallback"%string)
  = Returned {| experiment_name := "fallback";
                earliest_ts_global := None;
                type_called_from_stats := [] |}.
Proof.
  destruct (decoder_fails_soft sampleHost
              (parsedWith (Some [Some (parsedEntry shortRecordsBlock)]))
              (Some "fallback"%string)) as (_ & _ & _ & H).
  destruct (H [Some (parsedEntry shortRecordsBlock)] 0 eq_refl eq_refl)
    as [_ Hret].
  destruct (Hret eq_refl) as (_ & _ & Hskip).
  apply Hskip.
  intros blockEntry rec [<-|[]] [<-|[<-|[]]]; [right|left]; reflexivity.
Defined.

(** C5, as stated, fails: the decoder raises on a payload whose [blocks]
    holds a [null] after a complete block, and on one whose only block
    entry is [null], where no record is decoded. *)
Lemma decoder_raises_on_null_entry :
  ~ (forall (host : JsHost) (parsed : option RawPayload)
            (fallbackName : option string),
        exists stats,
          computeStatsFromParsed parsed fallbackName = Returned stats).
Proof.
  intros H.
  destruct (H sampleHost (Some (parsedWith (Some [None]))) None)
    as [stats Hstats].
  vm_compute in Hstats. discriminate Hstats.
Qed.

(** Non-list [blocks], an unparseable [ts0], and a [null] after a
    complete block, on concrete payloads. *)
Example decoder_sentinel_samples :
  @computeStatsFromParsed sampleHost (Some (parsedWith None)) None
  = Returned {| experiment_name := EmptyString; earliest_ts_global := None;
                type_called_from_stats := [] |} /\
  @computeStatsFromParsed sampleHost
    (Some {| rp_experiment_name := Some "run"%string;
             rp_ts0 := Some "yesterday"%string;
             rp_record_fields := None; rp_size_fields := None;
             rp_maps_stage := []; rp_maps_type := [];
             rp_maps_called_from := [];
             rp_blocks := Some [None] |}) None
  = Returned {| experiment_name := "run"; earliest_ts_global := None;
                type_called_from_stats := [] |} /\
  @computeStatsFromParsed sampleHost
    (Some (parsedWith (Some [Some (parsedEntry completeBlock); None]))) None
  = Threw TypeError.
Proof. repeat split. Qed.

(** ** Block counts *)

Lemma addToGroup_reflects (grouped : list (string * Group))
    (processed : list (BlockId * Decoded)) (id0 : BlockId) (d0 : Decoded) :
  groupedReflects grouped processed ->
  groupedReflects (addToGroup id0 d0 grouped) (processed ++ [(id0, d0)]).
Proof.
  intros [Hnd Hinv]. unfold addToGroup.
  set (group := match assocGet String.eqb (d_key d0) grouped with
                | Some g => g
                | None => {| g_type := d_type d0;
                             g_called_from := d_called_from d0;
                             g_blocks := [] |}
                end).
  set (blockRecs := match assocGet String.eqb id0 (g_blocks group) with
                    | Some recs => recs
                    | None => []
                    end).
  split; [now apply (assocSet_keys_NoDup String.eqb Seqb_eq)|].
  intros key.
  destruct (string_dec key (d_key d0)) as [->|Hne].
  - rewrite (assocGet_set_same String.eqb Seqb_eq). cbn [g_blocks].
    specialize (Hinv (d_key d0)). subst group.
    destruct (assocGet String.eqb (d_key d0) grouped) as [g|].
    + destruct Hinv as [Hndb Hids]. split.
      * now apply (assocSet_keys_NoDup String.eqb Seqb_eq).
      * intros id. rewrite (assocSet_keys_In String.eqb Seqb_eq), Hids.
        split.
        -- intros [->|(d & Hin & Hk)].
           ++ exists d0. split; [apply in_or_app; right; now left|reflexivity].
           ++ exists d. split; [apply in_or_app; now left|exact Hk].
        -- intros (d & Hin & Hk).
           apply in_app_iff in Hin as [Hin|[Heq|[]]].
           ++ right. now exists d.
           ++ left. now injection Heq.
    + cbn [g_blocks]. split.
      * now apply (assocSet_keys_NoDup String.eqb Seqb_eq); constructor.
      * intros id. rewrite (assocSet_keys_In String.eqb Seqb_eq). simpl.
        split.
        -- intros [->|[]].
           exists d0. split; [apply in_or_app; right; now left|reflexivity].
        -- intros (d & Hin & Hk).
           apply in_app_iff in Hin as [Hin|[Heq|[]]].
           ++ exfalso. now apply (Hinv id d).
           ++ left. now injection Heq.
  - rewrite (assocGet_set_other String.eqb Seqb_eq) by exact Hne.
    specialize (Hinv key).
    destruct (assocGet String.eqb key grouped) as [g|].
    + destruct Hinv as [Hndb Hids]. split; [exact Hndb|].
      intros id. rewrite Hids. split.
      * intros (d & Hin & Hk). exists d.
        split; [apply in_or_app; now left|exact Hk].
      * intros (d & Hin & Hk).
        apply in_app_iff in Hin as [Hin|[Heq|[]]]; [now exists d|].
        injection Heq as <- <-. congruence.
    + intros id d Hin.
      apply in_app_iff in Hin as [Hin|[Heq|[]]]; [now apply (Hinv id d)|].
      injection Heq as <- <-. congruence.
Qed.

Lemma fold_fileDecoded_reflects (rest : list (BlockId * Decoded)) :
  forall (processed : list (BlockId * Decoded)) (st : DecodeState),
    groupedReflects (grouped st) processed ->
    groupedReflects (grouped (fold_left fileDecoded rest st))
      (processed ++ rest).
Proof.
  induction rest as [|[id0 d0] rest IH]; intros processed st Hinv; simpl.
  - now rewrite app_nil_r.
  - replace (processed ++ (id0, d0) :: rest)
      with ((processed ++ [(id0, d0)]) ++ rest)
      by now rewrite <- app_assoc.
    apply IH. simpl. now apply addToGroup_reflects.
Qed.

Lemma decodeBlocks_reflects ts0 recIdx sizeIdx payload blocks :
  groupedReflects
    (grouped (decodeBlocks ts0 recIdx sizeIdx payload blocks))
    (decodedOf ts0 recIdx sizeIdx payload blocks).
Proof.
  rewrite decodeBlocks_decoded.
  apply (fold_fileDecoded_reflects _ []). simpl.
  split; [constructor|]. intros key id d [].
Qed.

Lemma statsByKeyOf_get (earliest : Q) (grouped : list (string * Group))
    (key : string) :
  NoDup (map fst grouped) ->
  dictGet key (statsByKeyOf earliest grouped)
  = option_map (categoryStats earliest)
      (assocGet String.eqb key grouped).
Proof.
  unfold statsByKeyOf. intros Hnd.
  assert (Hgen : forall acc,
             dictGet key
               (fold_left (fun statsByKey kg =>
                             dictSet (fst kg)
                               (categoryStats earliest (snd kg)) statsByKey)
                  grouped acc)
             = match assocGet String.eqb key grouped with
               | Some g => Some (categoryStats earliest g)
               | None => dictGet key acc
               end).
  { induction grouped as [|[k1 g1] rest IH]; intros acc; [reflexivity|].
    inversion Hnd as [|? ? Hnotin Hnd']; subst.
    simpl. rewrite (IH Hnd').
    destruct (String.eqb_spec key k1) as [->|Hne].
    - assert (Hnone : assocGet String.eqb k1 rest = None)
        by now apply (assocGet_None String.eqb Seqb_eq).
      rewrite Hnone. unfold dictGet, dictSet.
      apply (assocGet_set_same String.eqb Seqb_eq).
    - destruct (assocGet String.eqb key rest); [reflexivity|].
      unfold dictGet, dictSet.
      now apply (assocGet_set_other String.eqb Seqb_eq). }
  rewrite Hgen. now destruct (assocGet String.eqb key grouped).
Qed.

Lemma shiftPoints_length (earliest : Q) (points : list Point) :
  length (shiftPoints earliest points) = length points.
Proof.
  unfold shiftPoints, sortPoints. now rewrite stableSort_length, length_map.
Qed.

(** A block adds at most one point to the block-size array. *)
Lemma blockStep_blockSize_length (acc : CategoryAcc)
    (entry : BlockId * list GroupedRecord) :
  (length (blockSizePointsDt (blockStep acc entry))
   <= S (length (blockSizePointsDt acc)))%nat.
Proof.
  destruct (stageTime_fold_keeps (fst entry) (sortRecords (snd entry)) acc)
    as (K1 & _).
  unfold blockStep.
  destruct (compressTsOf (sortRecords (snd entry))); [rewrite K1; lia|].
  destruct (decompressTsOf (sortRecords (snd entry))); [rewrite K1; lia|].
  destruct (positiveSizes original_size (sortRecords (snd entry))),
           (positiveSizes compressed_size (sortRecords (snd entry)));
    cbn [blockSizePointsDt]; rewrite ?length_app, K1; simpl; lia.
Qed.

Lemma fold_blockStep_blockSize_length
    (byBlock : list (BlockId * list GroupedRecord)) :
  forall acc,
    (length (blockSizePointsDt (fold_left blockStep byBlock acc))
     <= length (blockSizePointsDt acc) + length byBlock)%nat.
Proof.
  induction byBlock as [|entry rest IH]; intros acc; simpl; [lia|].
  specialize (IH (blockStep acc entry)).
  pose proof (blockStep_blockSize_length acc entry). lia.
Qed.

(** C9.  For every category of a decoded payload, [num_blocks] is the
    number of distinct block ids with at least one decoded record in that
    category, whether or not the block contributes points, and it is at
    least the number of points of the category's block-size series. *)
Theorem num_blocks_counts_block_ids :
  forall (host : JsHost) (payload : Payload) (fallbackName : option string)
         (key : string) (cs : CategoryStats),
    dictGet key
      (type_called_from_stats
         (computeStatsFromCompressed payload fallbackName)) = Some cs ->
    exists blocks ts0 ids,
      p_blocks payload = Some blocks /\
      parseTs0 payload = Some ts0 /\
      NoDup ids /\
      (forall id,
          In id ids <->
          exists d,
            In (id, d)
              (decodedOf ts0 (recIdxOf payload) (sizeIdxOf payload)
                 payload blocks) /\
            d_key d = key) /\
      num_blocks cs = length ids /\
      (length (block_size_points cs) <= num_blocks cs)%nat.
Proof.
  intros host payload fallbackName key cs Hget.
  unfold computeStatsFromCompressed in Hget. cbv zeta in Hget.
  destruct (p_blocks payload) as [blocks|]; [|discriminate].
  destruct (parseTs0 payload) as [ts0|]; [|discriminate].
  pose proof (decodeBlocks_reflects ts0 (recIdxOf payload)
                (sizeIdxOf payload) payload blocks) as [Hnd Hinv].
  destruct (earliestSec _) as [earliest|]; [|discriminate].
  cbn [type_called_from_stats] in Hget.
  rewrite (statsByKeyOf_get _ _ _ Hnd) in Hget.
  specialize (Hinv key).
  destruct (assocGet String.eqb key _) as [g|]; [|discriminate].
  injection Hget as <-. destruct Hinv as [Hndb Hids].
  exists blocks, ts0, (map fst (g_blocks g)).
  repeat split; auto.
  - now apply Hids.
  - now apply Hids.
  - cbn [num_blocks categoryStats]. now rewrite length_map.
  - cbn [num_blocks block_size_points categoryStats].
    rewrite shiftPoints_length.
    apply (fold_blockStep_blockSize_length (g_blocks g) emptyAcc).
Qed.

Lemma num_blocks_counts_block_ids_witness :
  exists (cs : CategoryStats) (ids : list BlockId),
    dictGet "T__O"
      (type_called_from_stats
         (@computeStatsFromCompressed sampleHost
            (payloadWith (Some [completeBlock; compressOnlyBlock])) None))
    = Some cs /\
    NoDup ids /\ num_blocks cs = length ids /\
    (length (block_size_points cs) <= num_blocks cs)%nat.
Proof.
  destruct (dictGet "T__O"
              (type_called_from_stats
                 (@computeStatsFromCompressed sampleHost
                    (payloadWith (Some [completeBlock; compressOnlyBlock]))
                    None))) as [cs|] eqn:E;
    [|vm_compute in E; discriminate E].
  destruct (num_blocks_counts_block_ids sampleHost
              (payloadWith (Some [completeBlock; compressOnlyBlock])) None
              "T__O"%string cs E)
    as (blocks & ts0 & ids & _ & _ & Hnd & _ & Hn & Hle).
  exists cs, ids. repeat split; assumption.
Defined.

(** Two blocks are filed under the category, but only the one with both a
    compress and a decompress record has a block-size point. *)
Example num_blocks_sample :
  option_map (fun cs => (num_blocks cs, length (block_size_points cs)))
    (dictGet "T__O"
       (type_called_from_stats
          (@computeStatsFromCompressed sampleHost
             (payloadWith (Some [completeBlock; compressOnlyBlock])) None)))
  = Some (2%nat, 1%nat).
Proof. vm_compute. reflexivity. Qed.

(** * Further properties *)

(** ** Payload decoder: time origin *)

Lemma lowerEarliest_Some (x : Q) (e : option Q) :
  exists m, lowerEarliest x e = Some m /\ m <= x /\
            (m = x \/ e = Some m) /\
            (forall e0, e = Some e0 -> m <= e0).
Proof.
  unfold lowerEarliest. destruct e as [e0|].
  - destruct (Qltb x e0) eqn:E.
    + apply Qltb_lt in E. exists x. repeat split; auto using Qle_refl.
      intros ? [= <-]. now apply Qlt_le_weak.
    + apply Qltb_ge in E. exists e0. repeat split; auto using Qle_refl.
      intros ? [= <-]. apply Qle_refl.
  - exists x. repeat split; auto using Qle_refl. discriminate.
Qed.

Lemma fileDecoded_origin (st : DecodeState)
    (processed : list (BlockId * Decoded)) (bd : BlockId * Decoded) :
  match earliestSec st with
  | Some e => isTimeOrigin e processed
  | None => processed = []
  end ->
  exists e, earliestSec (fileDecoded st bd) = Some e /\
            isTimeOrigin e (processed ++ [bd]).
Proof.
  intros Hinv. unfold fileDecoded. cbn [earliestSec].
  destruct (lowerEarliest_Some (start_sec (d_rec (snd bd))) (earliestSec st))
    as (m1 & E1 & Hm1 & Hsel1 & Hold1).
  rewrite E1.
  destruct (lowerEarliest_Some (end_sec (d_rec (snd bd))) (Some m1))
    as (m2 & E2 & Hm2 & Hsel2 & Hold2).
  exists m2. split; [exact E2|].
  assert (Hm21 : m2 <= m1) by now apply Hold2.
  split.
  - intros x Hx. apply in_app_iff in Hx as [Hx|[<-|[]]].
    + destruct (earliestSec st) as [e0|]; [|subst; destruct Hx].
      destruct Hinv as [Hall _]. destruct (Hall x Hx) as [Hs He].
      specialize (Hold1 e0 eq_refl). split; lra.
    + split; lra.
  - destruct Hsel2 as [->|[= ->]].
    + exists bd. split; [apply in_or_app; right; now left|now right].
    + destruct Hsel1 as [->|Hst].
      * exists bd. split; [apply in_or_app; right; now left|now left].
      * rewrite Hst in Hinv. destruct Hinv as [_ (x & Hx & Hsel)].
        exists x. split; [apply in_or_app; now left|exact Hsel].
Qed.

Lemma fold_fileDecoded_origin (rest : list (BlockId * Decoded)) :
  forall (processed : list (BlockId * Decoded)) (st : DecodeState),
    match earliestSec st with
    | Some e => isTimeOrigin e processed
    | None => processed = []
    end ->
    match earliestSec (fold_left fileDecoded rest st) with
    | Some e => isTimeOrigin e (processed ++ rest)
    | None => processed ++ rest = []
    end.
Proof.
  induction rest as [|bd rest IH]; intros processed st Hinv; simpl.
  - now rewrite app_nil_r.
  - replace (processed ++ bd :: rest) with ((processed ++ [bd]) ++ rest)
      by now rewrite <- app_assoc.
    apply IH.
    destruct (fileDecoded_origin st processed bd Hinv) as (e & -> & He).
    exact He.
Qed.

Lemma decodeBlocks_origin ts0 recIdx sizeIdx payload blocks :
  match earliestSec (decodeBlocks ts0 recIdx sizeIdx payload blocks) with
  | Some e => isTimeOrigin e (decodedOf ts0 recIdx sizeIdx payload blocks)
  | None => decodedOf ts0 recIdx sizeIdx payload blocks = []
  end.
Proof.
  rewrite decodeBlocks_decoded.
  apply (fold_fileDecoded_origin _ []). reflexivity.
Qed.

Lemma statsByKeyOf_keys (earliest : Q) (grouped : list (string * Group)) :
  NoDup (map fst grouped) ->
  dictKeys (statsByKeyOf earliest grouped) = map fst grouped.
Proof.
  unfold statsByKeyOf. intros Hnd.
  assert (Hgen : forall acc : Dict CategoryStats,
             (forall k, In k (map fst grouped) -> ~ In k (dictKeys acc)) ->
             dictKeys
               (fold_left (fun statsByKey kg =>
                             dictSet (fst kg)
                               (categoryStats earliest (snd kg)) statsByKey)
                  grouped acc)
             = dictKeys acc ++ map fst grouped).
  { induction grouped as [|[k1 g1] rest IH]; intros acc Hfresh; simpl.
    - now rewrite app_nil_r.
    - inversion Hnd as [|? ? Hnotin Hnd']; subst.
      assert (Hnone : dictGet k1 acc = None).
      { apply (assocGet_None String.eqb Seqb_eq). apply Hfresh. now left. }
      rewrite IH; [| exact Hnd' |].
      + unfold dictSet, dictKeys.
        rewrite (assocSet_absent String.eqb _ _ _ Hnone), map_app.
        simpl. now rewrite <- app_assoc.
      + intros k Hk Hin. unfold dictSet, dictKeys in Hin.
        rewrite (assocSet_absent String.eqb _ _ _ Hnone), map_app in Hin.
        apply in_app_iff in Hin as [Hin|[<-|[]]].
        * apply (Hfresh k); [now right|exact Hin].
        * contradiction.
  }
  rewrite Hgen; [reflexivity|]. intros k _ [].
Qed.

Lemma recordsFiled_app key id processed bd :
  recordsFiled key id (processed ++ [bd])
  = recordsFiled key id processed
    ++ (if String.eqb (fst bd) id && ofCategory key bd
        then [d_rec (snd bd)] else []).
Proof.
  unfold recordsFiled, ofCategory. rewrite filter_app, map_app.
  destruct bd as [i d]. simpl.
  destruct (String.eqb i id), (String.eqb (d_key d) key); reflexivity.
Qed.

Lemma addToGroup_exact (grouped : list (string * Group))
    (processed : list (BlockId * Decoded)) (id0 : BlockId) (d0 : Decoded) :
  groupedExactly grouped processed ->
  groupedExactly (addToGroup id0 d0 grouped) (processed ++ [(id0, d0)]).
Proof.
  intros Hinv key. unfold addToGroup.
  set (group := match assocGet String.eqb (d_key d0) grouped with
                | Some g => g
                | None => {| g_type := d_type d0;
                             g_called_from := d_called_from d0;
                             g_blocks := [] |}
                end).
  set (blockRecs := match assocGet String.eqb id0 (g_blocks group) with
                    | Some recs => recs
                    | None => []
                    end).
  assert (Hrecs : forall id,
             assocGet String.eqb id (g_blocks group)
             = match recordsFiled (d_key d0) id processed with
               | [] => None
               | r :: rs => Some (r :: rs)
               end).
  { intros id. specialize (Hinv (d_key d0)). subst group.
    destruct (assocGet String.eqb (d_key d0) grouped) as [g|].
    - apply Hinv.
    - cbn [g_blocks assocGet]. unfold recordsFiled.
      rewrite (proj2 (filter_nil_existsb _ processed)); [reflexivity|].
      destruct (existsb _ processed) eqn:E; [|reflexivity].
      apply existsb_exists in E as (bd & Hbd & Hm).
      apply andb_true_iff in Hm as [_ Hm].
      rewrite (Hinv bd Hbd) in Hm. discriminate. }
  assert (Hblock : blockRecs = recordsFiled (d_key d0) id0 processed).
  { subst blockRecs. rewrite (Hrecs id0).
    now destruct (recordsFiled (d_key d0) id0 processed). }
  destruct (string_dec key (d_key d0)) as [->|Hne].
  - rewrite (assocGet_set_same String.eqb Seqb_eq). cbn [g_blocks]. split.
    + exists (id0, d0). split; [apply in_or_app; right; now left|].
      unfold ofCategory. apply String.eqb_refl.
    + intros id. rewrite recordsFiled_app. cbn [fst snd].
      unfold ofCategory at 1. cbn [snd]. rewrite String.eqb_refl, andb_true_r.
      destruct (String.eqb_spec id0 id) as [<-|Hid].
      * rewrite (assocGet_set_same String.eqb Seqb_eq), Hblock.
        now destruct (recordsFiled (d_key d0) id0 processed).
      * rewrite (assocGet_set_other String.eqb Seqb_eq)
          by (intros E; apply Hid; now symmetry).
        now rewrite app_nil_r.
  - rewrite (assocGet_set_other String.eqb Seqb_eq) by exact Hne.
    specialize (Hinv key).
    assert (Hoff : ofCategory key (id0, d0) = false).
    { unfold ofCategory. cbn [snd]. apply String.eqb_neq.
      intros E. apply Hne. now symmetry. }
    destruct (assocGet String.eqb key grouped) as [g|].
    + destruct Hinv as [(bd & Hbd & Hm) Hids]. split.
      * exists bd. split; [apply in_or_app; now left|exact Hm].
      * intros id. rewrite recordsFiled_app, Hoff, andb_false_r, app_nil_r.
        apply Hids.
    + intros bd Hbd. apply in_app_iff in Hbd as [Hbd|[<-|[]]];
        [now apply Hinv|exact Hoff].
Qed.

Lemma fold_fileDecoded_exact (rest : list (BlockId * Decoded)) :
  forall (processed : list (BlockId * Decoded)) (st : DecodeState),
    groupedExactly (grouped st) processed ->
    groupedExactly (grouped (fold_left fileDecoded rest st))
      (processed ++ rest).
Proof.
  induction rest as [|[id0 d0] rest IH]; intros processed st Hinv; simpl.
  - now rewrite app_nil_r.
  - replace (processed ++ (id0, d0) :: rest)
      with ((processed ++ [(id0, d0)]) ++ rest)
      by now rewrite <- app_assoc.
    apply IH. simpl. now apply addToGroup_exact.
Qed.

Lemma decodeBlocks_exact ts0 recIdx sizeIdx payload blocks :
  groupedExactly
    (grouped (decodeBlocks ts0 recIdx sizeIdx payload blocks))
    (decodedOf ts0 recIdx sizeIdx payload blocks).
Proof.
  rewrite decodeBlocks_decoded.
  apply (fold_fileDecoded_exact _ []). intros key bd [].
Qed.

(** When a record is decoded, the result is not the empty one: its time
    origin is the earliest start or end instant of the decoded records,
    and its categories are exactly the category keys of those records,
    each once. *)
Theorem decoder_origin_and_categories :
  forall (host : JsHost) (payload : Payload) (fallbackName : option string)
         (blocks : list BlockEntry) (ts0 : Q),
    p_blocks payload = Some blocks -> parseTs0 payload = Some ts0 ->
    let decoded :=
      decodedOf ts0 (recIdxOf payload) (sizeIdxOf payload) payload blocks in
    let stats := computeStatsFromCompressed payload fallbackName in
    decoded <> [] ->
    (exists e, isTimeOrigin e decoded /\
               earliest_ts_global stats = Some (formatLocalIso (e * 1000))) /\
    NoDup (dictKeys (type_called_from_stats stats)) /\
    (forall key,
        In key (dictKeys (type_called_from_stats stats)) <->
        exists bd, In bd decoded /\ d_key (snd bd) = key).
Proof.
  intros host payload fallbackName blocks ts0 Hb Ht decoded stats Hne.
  subst stats. unfold computeStatsFromCompressed. rewrite Hb, Ht. cbv zeta.
  pose proof (decodeBlocks_origin ts0 (recIdxOf payload) (sizeIdxOf payload)
                payload blocks) as Horigin.
  pose proof (decodeBlocks_reflects ts0 (recIdxOf payload)
                (sizeIdxOf payload) payload blocks) as [Hnd _].
  pose proof (decodeBlocks_exact ts0 (recIdxOf payload)
                (sizeIdxOf payload) payload blocks) as Hexact.
  fold decoded in Horigin, Hexact.
  destruct (earliestSec _) as [e|]; [|contradiction].
  cbn [earliest_ts_global type_called_from_stats].
  rewrite (statsByKeyOf_keys _ _ Hnd).
  split; [exists e; split; [exact Horigin|reflexivity]|].
  split; [exact Hnd|].
  intros key. specialize (Hexact key). split.
  - intros Hin.
    destruct (assocGet_In_keys String.eqb Seqb_eq key _ Hin) as [g Hg].
    rewrite Hg in Hexact. destruct Hexact as [(bd & Hbd & Hm) _].
    exists bd. split; [exact Hbd|]. now apply String.eqb_eq.
  - intros (bd & Hbd & Hk).
    destruct (assocGet String.eqb key _) as [g|] eqn:Hg.
    + apply (assocGet_Some_In String.eqb Seqb_eq) in Hg.
      apply (in_map fst) in Hg. exact Hg.
    + exfalso. specialize (Hexact bd Hbd). unfold ofCategory in Hexact.
      apply String.eqb_neq in Hexact. contradiction.
Qed.

Lemma decoder_origin_and_categories_witness :
  NoDup (dictKeys
           (type_called_from_stats
              (@computeStatsFromCompressed sampleHost
                 (payloadWith (Some [completeBlock; compressOnlyBlock]))
                 None))) /\
  exists e,
    earliest_ts_global
      (@computeStatsFromCompressed sampleHost
         (payloadWith (Some [completeBlock; compressOnlyBlock])) None)
    = Some (@formatLocalIso sampleHost (e * 1000)).
Proof.
  destruct (decoder_origin_and_categories sampleHost
              (payloadWith (Some [completeBlock; compressOnlyBlock])) None
              [completeBlock; compressOnlyBlock] 0)
    as ((e & _ & He) & Hnd & _).
  - reflexivity.
  - reflexivity.
  - intros E. vm_compute in E. discriminate E.
  - split; [exact Hnd|]. exists e. exact He.
Defined.

(** ** Payload decoder: the stage-time series are complete *)

Lemma filedPairs_set (m : list (BlockId * list GroupedRecord))
    (id0 : BlockId) (r0 : GroupedRecord) :
  Permutation
    (filedPairs
       (assocSet String.eqb id0
          (match assocGet String.eqb id0 m with
           | Some recs => recs
           | None => []
           end ++ [r0]) m))
    (filedPairs m ++ [(id0, r0)]).
Proof.
  induction m as [|[k v] m IH]; [reflexivity|].
  cbn [assocGet assocSet].
  destruct (String.eqb_spec id0 k) as [->|Hne].
  - unfold filedPairs. cbn [flat_map fst snd].
    rewrite map_app, <- !app_assoc. apply Permutation_app_head.
    apply Permutation_app_comm.
  - unfold filedPairs in *. cbn [flat_map fst snd].
    rewrite <- app_assoc. apply Permutation_app_head. exact IH.
Qed.

Lemma categoryPairs_app key processed bd :
  categoryPairs key (processed ++ [bd])
  = categoryPairs key processed
    ++ (if ofCategory key bd then [(fst bd, d_rec (snd bd))] else []).
Proof.
  unfold categoryPairs. rewrite filter_app, map_app. cbn [filter].
  destruct (ofCategory key bd); reflexivity.
Qed.

Lemma addToGroup_pairs (grouped : list (string * Group))
    (processed : list (BlockId * Decoded)) (id0 : BlockId) (d0 : Decoded) :
  (forall key,
      match assocGet String.eqb key grouped with
      | Some g => Permutation (filedPairs (g_blocks g))
                    (categoryPairs key processed)
      | None => categoryPairs key processed = []
      end) ->
  forall key,
    match assocGet String.eqb key (addToGroup id0 d0 grouped) with
    | Some g => Permutation (filedPairs (g_blocks g))
                  (categoryPairs key (processed ++ [(id0, d0)]))
    | None => categoryPairs key (processed ++ [(id0, d0)]) = []
    end.
Proof.
  intros Hinv key. unfold addToGroup. rewrite categoryPairs_app.
  unfold ofCategory. cbn [fst snd].
  destruct (String.eqb_spec (d_key d0) key) as [<-|Hne].
  - rewrite (assocGet_set_same String.eqb Seqb_eq). cbn [g_blocks].
    rewrite filedPairs_set. apply Permutation_app_tail.
    specialize (Hinv (d_key d0)).
    destruct (assocGet String.eqb (d_key d0) grouped) as [g|];
      [exact Hinv|].
    rewrite Hinv. reflexivity.
  - rewrite (assocGet_set_other String.eqb Seqb_eq)
      by (intros E; apply Hne; now symmetry).
    rewrite app_nil_r. apply Hinv.
Qed.

Lemma decodeBlocks_pairs ts0 recIdx sizeIdx payload blocks key g :
  assocGet String.eqb key
    (grouped (decodeBlocks ts0 recIdx sizeIdx payload blocks)) = Some g ->
  Permutation (filedPairs (g_blocks g))
    (categoryPairs key (decodedOf ts0 recIdx sizeIdx payload blocks)).
Proof.
  rewrite decodeBlocks_decoded.
  assert (Hgen : forall rest processed st,
             (forall key,
                 match assocGet String.eqb key (grouped st) with
                 | Some g => Permutation (filedPairs (g_blocks g))
                               (categoryPairs key processed)
                 | None => categoryPairs key processed = []
                 end) ->
             forall key,
               match assocGet String.eqb key
                       (grouped (fold_left fileDecoded rest st)) with
               | Some g => Permutation (filedPairs (g_blocks g))
                             (categoryPairs key (processed ++ rest))
               | None => categoryPairs key (processed ++ rest) = []
               end).
  { induction rest as [|[id0 d0] rest IH]; intros processed st Hinv k;
      simpl.
    - rewrite app_nil_r. apply Hinv.
    - replace (processed ++ (id0, d0) :: rest)
        with ((processed ++ [(id0, d0)]) ++ rest)
        by now rewrite <- app_assoc.
      apply IH. simpl. now apply addToGroup_pairs. }
  intros Hg.
  specialize (Hgen (decodedOf ts0 recIdx sizeIdx payload blocks) []
                {| grouped := []; earliestSec := None |}
                (fun _ => eq_refl) key).
  simpl app in Hgen. now rewrite Hg in Hgen.
Qed.

Lemma stageIs_exclusive (r : GroupedRecord) :
  stageIs "compress" r = true -> stageIs "decompress" r = false.
Proof.
  unfold stageIs. destruct (stage r) as [s|]; [|discriminate].
  intros H. apply String.eqb_eq in H. now subst.
Qed.

Lemma stageTime_fold_times (blockId : BlockId) (recs : list GroupedRecord) :
  forall acc,
    let acc1 := fold_left (stageTimeStep blockId) recs acc in
    compressionTimePointsDt acc1
    = compressionTimePointsDt acc
      ++ map (fun r => stageTimePoint (blockId, r))
           (filter (stageIs "compress") recs) /\
    decompressionTimePointsDt acc1
    = decompressionTimePointsDt acc
      ++ map (fun r => stageTimePoint (blockId, r))
           (filter (stageIs "decompress") recs).
Proof.
  induction recs as [|r recs IH]; intros acc; cbn [fold_left filter].
  - cbn [map]. now rewrite !app_nil_r.
  - destruct (IH (stageTimeStep blockId acc r)) as [Hc Hd].
    cbv zeta. rewrite Hc, Hd. unfold stageTimeStep.
    destruct (stageIs "compress" r) eqn:Ec.
    + rewrite (stageIs_exclusive r Ec).
      cbn [compressionTimePointsDt decompressionTimePointsDt map].
      rewrite <- app_assoc. split; reflexivity.
    + destruct (stageIs "decompress" r);
        cbn [compressionTimePointsDt decompressionTimePointsDt map];
        rewrite <- ?app_assoc; split; reflexivity.
Qed.

Lemma blockStep_times (acc : CategoryAcc)
    (entry : BlockId * list GroupedRecord) :
  compressionTimePointsDt (blockStep acc entry)
  = compressionTimePointsDt acc
    ++ map (fun r => stageTimePoint (fst entry, r))
         (filter (stageIs "compress") (sortRecords (snd entry))) /\
  decompressionTimePointsDt (blockStep acc entry)
  = decompressionTimePointsDt acc
    ++ map (fun r => stageTimePoint (fst entry, r))
         (filter (stageIs "decompress") (sortRecords (snd entry))).
Proof.
  destruct (stageTime_fold_times (fst entry) (sortRecords (snd entry)) acc)
    as [Hc Hd].
  unfold blockStep.
  destruct (compressTsOf (sortRecords (snd entry))); [now split|].
  destruct (decompressTsOf (sortRecords (snd entry))); [now split|].
  destruct (positiveSizes original_size (sortRecords (snd entry))),
           (positiveSizes compressed_size (sortRecords (snd entry)));
    cbn [compressionTimePointsDt decompressionTimePointsDt]; now split.
Qed.

Lemma fold_blockStep_times (byBlock : list (BlockId * list GroupedRecord)) :
  forall acc,
    Permutation
      (compressionTimePointsDt (fold_left blockStep byBlock acc))
      (compressionTimePointsDt acc
       ++ map stageTimePoint
            (filter (fun pr => stageIs "compress" (snd pr))
               (filedPairs byBlock))) /\
    Permutation
      (decompressionTimePointsDt (fold_left blockStep byBlock acc))
      (decompressionTimePointsDt acc
       ++ map stageTimePoint
            (filter (fun pr => stageIs "decompress" (snd pr))
               (filedPairs byBlock))).
Proof.
  assert (Hblock : forall (name : string) (id : BlockId)
                          (recs : list GroupedRecord),
             Permutation
               (map (fun r => stageTimePoint (id, r))
                  (filter (stageIs name) (sortRecords recs)))
               (map stageTimePoint
                  (filter (fun pr => stageIs name (snd pr))
                     (map (fun r => (id, r)) recs)))).
  { intros name id recs.
    transitivity (map (fun r => stageTimePoint (id, r))
                    (filter (stageIs name) recs)).
    - apply Permutation_map, Permutation_filter_same, stableSort_perm.
    - induction recs as [|r recs IH]; [reflexivity|].
      cbn [filter map snd]. destruct (stageIs name r); cbn [map];
        [now constructor|exact IH]. }
  induction byBlock as [|entry rest IH]; intros acc.
  - cbn [fold_left filedPairs flat_map filter map]. now rewrite !app_nil_r.
  - cbn [fold_left]. destruct (IH (blockStep acc entry)) as [Hc Hd].
    destruct (blockStep_times acc entry) as [Ec Ed].
    unfold filedPairs in *. cbn [flat_map].
    rewrite !filter_app, !map_app. split.
    + rewrite Hc, Ec, <- app_assoc. apply Permutation_app_head.
      apply Permutation_app_tail. apply Hblock.
    + rewrite Hd, Ed, <- app_assoc. apply Permutation_app_head.
      apply Permutation_app_tail. apply Hblock.
Qed.

Lemma shiftPoints_perm (e : Q) (points : list Point) :
  Permutation (shiftPoints e points) (map (shiftPoint e) points).
Proof. apply stableSort_perm. Qed.

(** Every decoded compress record of a category gives exactly one point
    [end - origin, duration, block id] to the category's compression-time
    series, every decompress record one to its decompression-time series,
    and the two series hold nothing else. *)
Theorem stage_time_series_complete :
  forall (host : JsHost) (payload : Payload) (fallbackName : option string)
         (key : string) (cs : CategoryStats),
    dictGet key
      (type_called_from_stats
         (computeStatsFromCompressed payload fallbackName)) = Some cs ->
    exists blocks ts0 e,
      p_blocks payload = Some blocks /\
      parseTs0 payload = Some ts0 /\
      let decoded :=
        decodedOf ts0 (recIdxOf payload) (sizeIdxOf payload) payload blocks
      in
      isTimeOrigin e decoded /\
      Permutation (compression_time_points cs)
        (map (shiftedStagePoint e)
           (filter (fun pr => stageIs "compress" (snd pr))
              (categoryPairs key decoded))) /\
      Permutation (decompression_time_points cs)
        (map (shiftedStagePoint e)
           (filter (fun pr => stageIs "decompress" (snd pr))
              (categoryPairs key decoded))).
Proof.
  intros host payload fallbackName key cs Hget.
  unfold computeStatsFromCompressed in Hget. cbv zeta in Hget.
  destruct (p_blocks payload) as [blocks|]; [|discriminate].
  destruct (parseTs0 payload) as [ts0|]; [|discriminate].
  pose proof (decodeBlocks_reflects ts0 (recIdxOf payload)
                (sizeIdxOf payload) payload blocks) as [Hnd _].
  pose proof (decodeBlocks_origin ts0 (recIdxOf payload)
                (sizeIdxOf payload) payload blocks) as Horigin.
  pose proof (decodeBlocks_pairs ts0 (recIdxOf payload)
                (sizeIdxOf payload) payload blocks key) as Hpairs.
  destruct (earliestSec _) as [e|]; [|discriminate].
  cbn [type_called_from_stats] in Hget.
  rewrite (statsByKeyOf_get _ _ _ Hnd) in Hget.
  destruct (assocGet String.eqb key _) as [g|]; [|discriminate].
  injection Hget as <-. specialize (Hpairs g eq_refl).
  exists blocks, ts0, e.
  split; [reflexivity|]. split; [reflexivity|].
  cbv zeta. split; [exact Horigin|].
  destruct (fold_blockStep_times (g_blocks g) emptyAcc)
    as [Hc Hd].
  cbn [compression_time_points decompression_time_points categoryStats].
  assert (Hshift : forall l,
             map (shiftPoint e) (map stageTimePoint l)
             = map (shiftedStagePoint e) l).
  { intros l. rewrite map_map. reflexivity. }
  split.
  - rewrite shiftPoints_perm, Hc. cbn [compressionTimePointsDt emptyAcc app].
    rewrite Hshift. apply Permutation_map, Permutation_filter_same, Hpairs.
  - rewrite shiftPoints_perm, Hd.
    cbn [decompressionTimePointsDt emptyAcc app].
    rewrite Hshift. apply Permutation_map, Permutation_filter_same, Hpairs.
Qed.

Lemma stage_time_series_complete_witness :
  exists cs e,
    dictGet "T__O"
      (type_called_from_stats
         (@computeStatsFromCompressed sampleHost
            (payloadWith (Some [completeBlock; compressOnlyBlock])) None))
    = Some cs /\
    Permutation (compression_time_points cs)
      (map (shiftedStagePoint e)
         (filter (fun pr => stageIs "compress" (snd pr))
            (categoryPairs "T__O"
               (decodedOf 0
                  (recIdxOf
                     (payloadWith (Some [completeBlock; compressOnlyBlock])))
                  (sizeIdxOf
                     (payloadWith (Some [completeBlock; compressOnlyBlock])))
                  (payloadWith (Some [completeBlock; compressOnlyBlock]))
                  [completeBlock; compressOnlyBlock])))).
Proof.
  destruct (dictGet "T__O"
              (type_called_from_stats
                 (@computeStatsFromCompressed sampleHost
                    (payloadWith (Some [completeBlock; compressOnlyBlock]))
                    None))) as [cs|] eqn:E;
    [|vm_compute in E; discriminate E].
  destruct (stage_time_series_complete sampleHost
              (payloadWith (Some [completeBlock; compressOnlyBlock])) None
              "T__O"%string cs E)
    as (blocks & ts0 & e & Hb & Ht & _ & Hc & _).
  injection Hb as <-. injection Ht as <-.
  exists cs, e. split; [reflexivity|exact Hc].
Defined.

(** ** Payload decoder: every series is shifted to the time origin *)

Lemma In_sortRecords (r : GroupedRecord) (recs : list GroupedRecord) :
  In r (sortRecords recs) <-> In r recs.
Proof. apply stableSort_In. Qed.

Lemma blockStep_accAll (P : Point -> Prop) (acc : CategoryAcc)
    (entry : BlockId * list GroupedRecord) :
  accAll P acc ->
  (forall t v r,
      In r (snd entry) -> t = start_sec r \/ t = end_sec r ->
      P (Point3 t v (fst entry))) ->
  accAll P (blockStep acc entry).
Proof.
  intros (A1 & A2 & A3 & A4 & A5 & A6 & A7) Hnew.
  destruct (stageTime_fold_keeps (fst entry) (sortRecords (snd entry)) acc)
    as (K1 & K2 & K3 & K4 & K5 & K6).
  destruct (stageTime_fold_times (fst entry) (sortRecords (snd entry)) acc)
    as [Tc Td].
  assert (Hstage : forall name,
             Forall P (map (fun r => stageTimePoint (fst entry, r))
                         (filter (stageIs name)
                            (sortRecords (snd entry))))).
  { intros name. apply Forall_forall. intros p Hp.
    apply in_map_iff in Hp as (r & <- & Hr).
    apply filter_In in Hr as [Hr _]. apply (proj1 (In_sortRecords _ _)) in Hr.
    unfold stageTimePoint. cbn [fst snd].
    apply (Hnew _ _ r Hr). now right. }
  unfold blockStep.
  set (acc1 := fold_left (stageTimeStep (fst entry))
                 (sortRecords (snd entry)) acc) in *.
  assert (B : accAll P acc1).
  { unfold accAll. rewrite K1, K2, K3, K4, K5, Tc, Td.
    repeat split; try assumption; apply Forall_app; auto. }
  destruct (compressTsOf (sortRecords (snd entry))) as [|c0 cs] eqn:Ec;
    [exact B|].
  destruct (decompressTsOf (sortRecords (snd entry))) as [|d0 ds];
    [exact B|].
  assert (Hanchor : forall v, P (Point3 (mathMin c0 cs) v (fst entry))).
  { intros v.
    assert (Hin : In (mathMin c0 cs) (compressTsOf (sortRecords (snd entry)))).
    { rewrite Ec. destruct (mathMin_least cs c0) as ([->|H] & _);
        [now left|now right]. }
    unfold compressTsOf in Hin. apply in_map_iff in Hin as (r & Hr & Hin).
    apply filter_In in Hin as [Hin _]. apply (proj1 (In_sortRecords _ _)) in Hin.
    apply (Hnew _ _ r Hin). left. now symmetry. }
  assert (Happ : forall arr v,
             Forall P arr ->
             Forall P (arr ++ [Point3 (mathMin c0 cs) v (fst entry)])).
  { intros arr v Harr. apply Forall_app. split; [exact Harr|].
    constructor; [apply Hanchor|constructor]. }
  destruct B as (B1 & B2 & B3 & B4 & B5 & B6 & B7).
  destruct (positiveSizes original_size (sortRecords (snd entry))),
           (positiveSizes compressed_size (sortRecords (snd entry)));
    unfold accAll;
    cbn [blockSizePointsDt compressionPercentPointsDt
         broadcastTimeAvgPointsDt broadcastTimeFullPointsDt
         broadcastTime66pPointsDt compressionTimePointsDt
         decompressionTimePointsDt];
    repeat split; auto.
Qed.

Lemma fold_blockStep_accAll (P : Point -> Prop)
    (byBlock : list (BlockId * list GroupedRecord)) :
  forall acc,
    accAll P acc ->
    (forall entry t v r,
        In entry byBlock -> In r (snd entry) ->
        t = start_sec r \/ t = end_sec r ->
        P (Point3 t v (fst entry))) ->
    accAll P (fold_left blockStep byBlock acc).
Proof.
  induction byBlock as [|entry rest IH]; intros acc Hacc Hnew; [exact Hacc|].
  cbn [fold_left]. apply IH.
  - apply blockStep_accAll; [exact Hacc|].
    intros t v r. apply Hnew. now left.
  - intros e t v r He. apply Hnew. now right.
Qed.

Lemma accAll_pointsOf (P : Point -> Prop) (e : Q) (g : Group)
    (kind : SeriesKind) :
  accAll P (fold_left blockStep (g_blocks g) emptyAcc) ->
  forall p, In p (pointsOf kind (categoryStats e g)) ->
            exists q, P q /\ p = shiftPoint e q.
Proof.
  intros (A1 & A2 & A3 & A4 & A5 & A6 & A7) p Hp.
  assert (Hgen : forall arr, Forall P arr -> In p (shiftPoints e arr) ->
                             exists q, P q /\ p = shiftPoint e q).
  { intros arr Harr Hin.
    apply (Permutation_in _ (shiftPoints_perm e arr)) in Hin.
    apply in_map_iff in Hin as (q & <- & Hq).
    rewrite Forall_forall in Harr. eauto. }
  destruct kind; cbn [pointsOf categoryStats block_size_points
    compression_percent_points broadcast_time_avg_points
    broadcast_time_full_points broadcast_time_66p_points
    compression_time_points decompression_time_points] in Hp;
    (eapply Hgen; [|exact Hp]; assumption).
Qed.

Lemma filedPairs_In (byBlock : list (BlockId * list GroupedRecord))
    (id : BlockId) (r : GroupedRecord) :
  In (id, r) (filedPairs byBlock) <->
  exists recs, In (id, recs) byBlock /\ In r recs.
Proof.
  unfold filedPairs. rewrite in_flat_map. split.
  - intros ([k recs] & Hin & Hr). cbn [fst snd] in Hr.
    apply in_map_iff in Hr as (r' & [= <- <-] & Hr'). eauto.
  - intros (recs & Hin & Hr). exists (id, recs). split; [exact Hin|].
    cbn [fst snd]. apply in_map_iff. eauto.
Qed.

(** In every category of the decoder's result, each of the seven series
    is in ascending time order, and each of its points is a triple that
    carries a block id and a time at or after the experiment's time
    origin, that is a non-negative time. *)
Theorem series_shifted_and_sorted :
  forall (host : JsHost) (payload : Payload) (fallbackName : option string)
         (key : string) (cs : CategoryStats) (kind : SeriesKind),
    dictGet key
      (type_called_from_stats
         (computeStatsFromCompressed payload fallbackName)) = Some cs ->
    StronglySorted (fun a b => pointT a <= pointT b) (pointsOf kind cs) /\
    forall p,
      In p (pointsOf kind cs) ->
      0 <= pointT p /\ exists id, pointId p = Some id.
Proof.
  intros host payload fallbackName key cs kind Hget.
  unfold computeStatsFromCompressed in Hget. cbv zeta in Hget.
  destruct (p_blocks payload) as [blocks|]; [|discriminate].
  destruct (parseTs0 payload) as [ts0|]; [|discriminate].
  pose proof (decodeBlocks_reflects ts0 (recIdxOf payload)
                (sizeIdxOf payload) payload blocks) as [Hnd _].
  pose proof (decodeBlocks_origin ts0 (recIdxOf payload)
                (sizeIdxOf payload) payload blocks) as Horigin.
  pose proof (decodeBlocks_pairs ts0 (recIdxOf payload)
                (sizeIdxOf payload) payload blocks key) as Hpairs.
  destruct (earliestSec _) as [e|]; [|discriminate].
  cbn [type_called_from_stats] in Hget.
  rewrite (statsByKeyOf_get _ _ _ Hnd) in Hget.
  destruct (assocGet String.eqb key _) as [g|]; [|discriminate].
  injection Hget as <-. specialize (Hpairs g eq_refl).
  split.
  - assert (Hs : forall arr,
               StronglySorted (fun a b => pointT a <= pointT b)
                 (shiftPoints e arr)).
    { intros arr. pose proof (sortPoints_sorted (map (shiftPoint e) arr)) as H.
      unfold shiftPoints. induction H; constructor; auto.
      eapply Forall_impl; [|eassumption].
      intros b Hb. now apply Qle_bool_iff. }
    destruct kind; apply Hs.
  - intros p Hp.
    set (P := fun q : Point =>
                e <= pointT q /\ exists id, pointId q = Some id).
    destruct (accAll_pointsOf P e g kind) with (p := p)
      as (q & (Hq & id & Hid) & ->); [|exact Hp|].
    + apply fold_blockStep_accAll.
      * unfold accAll, emptyAcc; cbn. repeat split; constructor.
      * intros [id recs] t v r Hentry Hr Ht. cbn [fst snd] in *.
        split.
        -- assert (Hin : In (id, r) (filedPairs (g_blocks g)))
             by (apply filedPairs_In; eauto).
           apply (Permutation_in _ Hpairs) in Hin.
           unfold categoryPairs in Hin.
           apply in_map_iff in Hin as (bd & [= <- <-] & Hbd).
           apply filter_In in Hbd as [Hbd _].
           destruct Horigin as [Hall _].
           destruct (Hall bd Hbd) as [Hs He].
           cbn [pointT]. destruct Ht as [-> | ->]; assumption.
        -- exists id. reflexivity.
    + destruct q as [t v b|t v]; [|discriminate].
      cbn [shiftPoint pointT pointId] in *. split; [lra|eauto].
Qed.

Lemma series_shifted_and_sorted_witness :
  exists cs,
    dictGet "T__O"
      (type_called_from_stats
         (@computeStatsFromCompressed sampleHost
            (payloadWith (Some [completeBlock; compressOnlyBlock])) None))
    = Some cs /\
    forall p, In p (compression_time_points cs) -> 0 <= pointT p.
Proof.
  destruct (dictGet "T__O"
              (type_called_from_stats
                 (@computeStatsFromCompressed sampleHost
                    (payloadWith (Some [completeBlock; compressOnlyBlock]))
                    None))) as [cs|] eqn:E;
    [|vm_compute in E; discriminate E].
  destruct (series_shifted_and_sorted sampleHost
              (payloadWith (Some [completeBlock; compressOnlyBlock])) None
              "T__O"%string cs CompressionTime E) as [_ H].
  exists cs. split; [reflexivity|]. intros p Hp. now apply H.
Defined.

(** ** Payload decoder: block sizes *)

Lemma positiveSizes_positive (f : GroupedRecord -> option Q)
    (recs : list GroupedRecord) :
  Forall (fun x => 0 < x) (positiveSizes f recs).
Proof.
  unfold positiveSizes. induction recs as [|r recs IH]; simpl; [constructor|].
  apply Forall_app. split; [|exact IH].
  destruct (f r) as [x|]; [|constructor].
  destruct (Qltb 0 x) eqn:E; [|constructor].
  constructor; [now apply Qltb_lt|constructor].
Qed.

Lemma sizesAgree_more (seen : list BlockId) (id0 : BlockId)
    (acc : CategoryAcc) :
  sizesAgree seen acc -> sizesAgree (id0 :: seen) acc.
Proof.
  intros (H1 & H2 & H3 & H4). split; [|split; [|split]]; try assumption.
  intros p Hp. destruct (H1 p Hp) as (t & v & id & -> & Hin & Hv & Hget).
  exists t, v, id. repeat split; try assumption. now right.
Qed.

Lemma blockStep_sizesAgree (seen : list BlockId) (acc : CategoryAcc)
    (entry : BlockId * list GroupedRecord) :
  sizesAgree seen acc -> ~ In (fst entry) seen ->
  sizesAgree (fst entry :: seen) (blockStep acc entry).
Proof.
  intros Hinv Hfresh.
  destruct (stageTime_fold_keeps (fst entry) (sortRecords (snd entry)) acc)
    as (K1 & K2 & _ & _ & _ & K6).
  assert (Hkeep : sizesAgree (fst entry :: seen)
                    (fold_left (stageTimeStep (fst entry))
                       (sortRecords (snd entry)) acc)).
  { apply sizesAgree_more. unfold sizesAgree. rewrite K1, K2, K6.
    exact Hinv. }
  unfold blockStep.
  destruct (compressTsOf (sortRecords (snd entry))) as [|c0 cs];
    [exact Hkeep|].
  destruct (decompressTsOf (sortRecords (snd entry))) as [|d0 ds];
    [exact Hkeep|].
  pose proof (positiveSizes_positive original_size
                (sortRecords (snd entry))) as Ho.
  pose proof (positiveSizes_positive compressed_size
                (sortRecords (snd entry))) as Hc.
  destruct (positiveSizes original_size (sortRecords (snd entry)))
    as [|o os]; [exact Hkeep|].
  destruct (positiveSizes compressed_size (sortRecords (snd entry)))
    as [|c cs']; [exact Hkeep|].
  inversion Ho as [|? ? Hopos _]; subst.
  inversion Hc as [|? ? Hcpos _]; subst.
  destruct Hinv as (H1 & H2 & H3 & H4).
  unfold sizesAgree.
  cbn [blockSizePointsDt compressionPercentPointsDt blockSizeById].
  rewrite K1, K2, K6. split; [|split; [|split]].
  - intros p Hp. apply in_app_iff in Hp as [Hp|[<-|[]]].
    + destruct (H1 p Hp) as (t & v & id & -> & Hin & Hv & Hget).
      exists t, v, id. repeat split; try assumption; [now right|].
      rewrite objSet_get.
      destruct (String.eqb (fst entry) "__proto__"); [exact Hget|].
      destruct (String.eqb id (fst entry)) eqn:E; [|exact Hget].
      apply Seqb_eq in E. subst. contradiction.
    + exists (mathMin c0 cs), o, (fst entry).
      repeat split; try assumption; [now left|].
      rewrite objSet_get.
      destruct (String.eqb (fst entry) "__proto__") eqn:E.
      * apply Seqb_eq in E. rewrite E. exact H4.
      * now rewrite String.eqb_refl.
  - intros id v Hget. rewrite objSet_get in Hget.
    destruct (String.eqb (fst entry) "__proto__") eqn:Ep.
    + destruct (H2 id v Hget) as (t & Hin). exists t.
      apply in_or_app. now left.
    + destruct (String.eqb id (fst entry)) eqn:E.
      * apply Seqb_eq in E. subst. injection Hget as <-.
        exists (mathMin c0 cs). apply in_or_app. right. now left.
      * destruct (H2 id v Hget) as (t & Hin). exists t.
        apply in_or_app. now left.
  - apply Forall2_app; [exact H3|].
    constructor; [|constructor].
    cbn [pointT pointId pointV]. repeat split.
    exists c. now split.
  - now apply objSet_no_proto.
Qed.

Lemma fold_blockStep_sizesAgree
    (byBlock : list (BlockId * list GroupedRecord)) :
  forall (seen : list BlockId) (acc : CategoryAcc),
    sizesAgree seen acc ->
    NoDup (seen ++ map fst byBlock) ->
    exists seen', sizesAgree seen' (fold_left blockStep byBlock acc).
Proof.
  induction byBlock as [|entry rest IH]; intros seen acc Hinv Hnd; simpl.
  - now exists seen.
  - apply (IH (fst entry :: seen)).
    + apply blockStep_sizesAgree; [exact Hinv|].
      simpl in Hnd. apply NoDup_remove_2 in Hnd.
      intros Hin. apply Hnd. apply in_or_app. now left.
    + simpl in Hnd. simpl.
      apply (Permutation_NoDup (l := seen ++ fst entry :: map fst rest));
        [|exact Hnd].
      symmetry. apply Permutation_middle.
Qed.

Lemma shiftPoints_In (e : Q) (points : list Point) (p : Point) :
  In p (shiftPoints e points) <->
  exists q, In q points /\ p = shiftPoint e q.
Proof.
  split.
  - intros Hp. apply (Permutation_in _ (shiftPoints_perm e points)) in Hp.
    apply in_map_iff in Hp as (q & <- & Hq). now exists q.
  - intros (q & Hq & ->).
    apply (Permutation_in _ (Permutation_sym (shiftPoints_perm e points))).
    now apply in_map.
Qed.

Lemma shiftPoint_keeps (e : Q) (q : Point) :
  pointV (shiftPoint e q) = pointV q /\
  pointId (shiftPoint e q) = pointId q /\
  pointT (shiftPoint e q) = pointT q - e.
Proof. destruct q; repeat split. Qed.

Lemma category_sizes_agree `{JsHost} (payload : Payload)
    (fallbackName : option string) (key : string) (cs : CategoryStats) :
  dictGet key
    (type_called_from_stats
       (computeStatsFromCompressed payload fallbackName)) = Some cs ->
  exists e g seen,
    cs = categoryStats e g /\
    sizesAgree seen (fold_left blockStep (g_blocks g) emptyAcc).
Proof.
  intros Hget.
  unfold computeStatsFromCompressed in Hget. cbv zeta in Hget.
  destruct (p_blocks payload) as [blocks|]; [|discriminate].
  destruct (parseTs0 payload) as [ts0|]; [|discriminate].
  pose proof (decodeBlocks_reflects ts0 (recIdxOf payload)
                (sizeIdxOf payload) payload blocks) as [Hnd Hrefl].
  destruct (earliestSec _) as [e|]; [|discriminate].
  cbn [type_called_from_stats] in Hget.
  rewrite (statsByKeyOf_get _ _ _ Hnd) in Hget.
  specialize (Hrefl key).
  destruct (assocGet String.eqb key _) as [g|]; [|discriminate].
  injection Hget as <-. destruct Hrefl as [Hndb _].
  destruct (fold_blockStep_sizesAgree (g_blocks g) [] emptyAcc)
    as (seen & Hagree).
  { split; [intros p []|]. split; [intros id v Hv; discriminate Hv|].
    split; [constructor|reflexivity]. }
  { exact Hndb. }
  now exists e, g, seen.
Qed.

Lemma category_size_lookup `{JsHost} (payload : Payload)
    (fallbackName : option string) (key : string) (cs : CategoryStats) :
  dictGet key
    (type_called_from_stats
       (computeStatsFromCompressed payload fallbackName)) = Some cs ->
  forall p, In p (block_size_points cs) ->
    0 < pointV p /\
    dictGet (propertyKey (pointId p)) (block_size_by_id cs)
    = if storesSize p then Some (pointV p) else None.
Proof.
  intros Hget p Hp.
  destruct (category_sizes_agree payload fallbackName key cs Hget)
    as (e & g & seen & -> & H1 & _).
  cbn [block_size_points block_size_by_id categoryStats] in *.
  apply shiftPoints_In in Hp as (q & Hq & ->).
  destruct (H1 q Hq) as (t & v & id & -> & _ & Hv & Hid).
  unfold storesSize.
  cbn [shiftPoint pointV pointId propertyKey]. split; [exact Hv|].
  rewrite Hid. now destruct (String.eqb id "__proto__").
Qed.

(** In every category of the decoder's result, the block-size series
    and the size table [block_size_by_id] describe the same blocks.  Each
    block-size point has a positive size; the table, an object literal,
    holds exactly that size under the point's block id, except for the
    block id "__proto__", under which it holds nothing.  Every entry of the
    table belongs to a block-size point.  So the size filter, which looks a
    point's block up in the table, keeps a block-size point exactly when
    its block id is not "__proto__" and the point's own value reaches the
    threshold.  The compression-percent series has one point for each
    block-size point, at the same time and for the same block, with the
    value [(original - compressed) / original] for the point's size
    [original] and a positive size [compressed]. *)
Theorem block_sizes_consistent :
  forall (host : JsHost) (payload : Payload) (fallbackName : option string)
         (key : string) (cs : CategoryStats),
    dictGet key
      (type_called_from_stats
         (computeStatsFromCompressed payload fallbackName)) = Some cs ->
    (forall p, In p (block_size_points cs) ->
       0 < pointV p /\
       dictGet (propertyKey (pointId p)) (block_size_by_id cs)
       = if storesSize p then Some (pointV p) else None) /\
    (forall id v, dictGet id (block_size_by_id cs) = Some v ->
       exists p, In p (block_size_points cs) /\
                 pointId p = Some id /\ pointV p = v) /\
    (forall fs : FilterState,
       sizeFilterOff fs = false ->
       filterByBlockSize fs (block_size_points cs) (block_size_by_id cs)
       = filter (fun p => storesSize p && passesOwnSize fs p)
           (block_size_points cs)) /\
    length (compression_percent_points cs) = length (block_size_points cs) /\
    (forall q, In q (compression_percent_points cs) ->
       exists p c, In p (block_size_points cs) /\
                   pointT p = pointT q /\ pointId p = pointId q /\
                   0 < c /\ pointV q = (pointV p - c) / pointV p).
Proof.
  intros host payload fallbackName key cs Hget.
  pose proof (category_size_lookup payload fallbackName key cs Hget)
    as Hsize.
  destruct (category_sizes_agree payload fallbackName key cs Hget)
    as (e & g & seen & -> & H1 & H2 & H3 & H4).
  cbn [block_size_points compression_percent_points block_size_by_id
       categoryStats] in *.
  set (acc := fold_left blockStep (g_blocks g) emptyAcc) in *.
  split; [exact Hsize|]. split; [|split; [|split]].
  - intros id v Hv. destruct (H2 id v Hv) as (t & Hin).
    exists (shiftPoint e (Point3 t v id)). split; [|now split].
    apply shiftPoints_In. now exists (Point3 t v id).
  - intros fs Hon. unfold filterByBlockSize. rewrite Hon.
    apply filter_ext_in. intros p Hp.
    destruct (Hsize p Hp) as [_ Hid].
    unfold passesSize, passesOwnSize. rewrite Hid.
    now destruct (storesSize p).
  - rewrite !shiftPoints_length. symmetry.
    exact (Forall2_length H3).
  - intros q Hq. apply shiftPoints_In in Hq as (q0 & Hq0 & ->).
    destruct (shiftPoint_keeps e q0) as (Kv & Kid & Kt).
    assert (Hpair : exists p0, In p0 (blockSizePointsDt acc) /\
                               pointT q0 = pointT p0 /\
                               pointId q0 = pointId p0 /\
                               exists c, 0 < c /\
                                 pointV q0 = (pointV p0 - c) / pointV p0).
    { clear - H3 Hq0.
      induction H3 as [|p1 q1 ps qs Hpq Hrest IH]; [destruct Hq0|].
      destruct Hq0 as [<-|Hin].
      - exists p1. split; [now left|]. exact Hpq.
      - destruct (IH Hin) as (p0 & Hp0 & Hrel).
        exists p0. split; [now right|exact Hrel]. }
    destruct Hpair as (p0 & Hp0 & Ht & Hid & c & Hc & Hv).
    destruct (shiftPoint_keeps e p0) as (Kv0 & Kid0 & Kt0).
    exists (shiftPoint e p0), c. split.
    + apply shiftPoints_In. now exists p0.
    + rewrite Kt, Kt0, Kid, Kid0, Kv, Kv0, Ht, Hid, Hv. now repeat split.
Qed.

Lemma block_sizes_consistent_witness :
  exists cs,
    dictGet "T__O"
      (type_called_from_stats
         (@computeStatsFromCompressed sampleHost
            (payloadWith (Some [completeBlock; protoBlock])) None))
    = Some cs /\
    length (compression_percent_points cs) = length (block_size_points cs) /\
    filterByBlockSize minSize1000Untrimmed (block_size_points cs)
      (block_size_by_id cs)
    = filter (fun p => storesSize p && passesOwnSize minSize1000Untrimmed p)
        (block_size_points cs).
Proof.
  destruct (dictGet "T__O"
              (type_called_from_stats
                 (@computeStatsFromCompressed sampleHost
                    (payloadWith (Some [completeBlock; protoBlock]))
                    None))) as [cs|] eqn:E;
    [|vm_compute in E; discriminate E].
  destruct (block_sizes_consistent sampleHost
              (payloadWith (Some [completeBlock; protoBlock])) None
              "T__O"%string cs E) as (_ & _ & Hf & Hlen & _).
  exists cs. split; [reflexivity|]. split; [exact Hlen|].
  apply Hf. reflexivity.
Defined.

(** A block named "__proto__" has its point in the series and no entry in
    the table. *)
Example proto_block_has_no_size_entry :
  match dictGet "T__O"
          (type_called_from_stats
             (@computeStatsFromCompressed sampleHost
                (payloadWith (Some [completeBlock; protoBlock])) None)) with
  | Some cs =>
    map pointId (block_size_points cs) = [Some "b2"; Some "__proto__"]%string
    /\ dictKeys (block_size_by_id cs) = ["b2"%string]
  | None => False
  end.
Proof. vm_compute. split; reflexivity. Qed.

(** ** Aggregator: what every output has in common *)

Lemma StronglySorted_weaken {A : Type} (R R' : A -> A -> Prop) (l : list A) :
  (forall a b, R a b -> R' a b) -> StronglySorted R l -> StronglySorted R' l.
Proof.
  intros Himp. induction 1 as [|a l Hs IH Hall]; constructor; [exact IH|].
  apply Forall_forall. intros b Hb. apply Himp.
  now apply (proj1 (Forall_forall _ _) Hall).
Qed.

Lemma pointLeb_le (a b : Point) : pointLeb a b = true -> pointT a <= pointT b.
Proof. apply Qle_bool_iff. Qed.

Lemma assocSet_length_le (k : Z) (c : Bucket) (m : list (Z * Bucket)) :
  (length (assocSet Z.eqb k c m) <= S (length m))%nat.
Proof.
  rewrite <- (length_map fst (assocSet Z.eqb k c m)),
          <- (length_map fst m).
  destruct (assocGet Z.eqb k m) as [c0|] eqn:E.
  - rewrite (assocSet_keys_present Z.eqb Zeqb_eq _ _ _ _ E). lia.
  - rewrite (assocSet_absent Z.eqb _ _ _ E), map_app, length_app.
    simpl. lia.
Qed.

Lemma fold_bucketAdd_length w (l : list Point) :
  forall acc,
    (length (fold_left (bucketAdd w) l acc) <= length acc + length l)%nat.
Proof.
  induction l as [|p l IH]; intros acc; simpl; [lia|].
  specialize (IH (bucketAdd w acc p)). rewrite bucketAdd_eq in IH at 2.
  pose proof (assocSet_length_le (bucketOf w p)
                (match assocGet Z.eqb (bucketOf w p) acc with
                 | Some cur => extendBucket cur p
                 | None => singleBucket p
                 end) acc).
  lia.
Qed.

Lemma emitBuckets_length (buckets : list (Z * Bucket)) :
  (length (emitBuckets buckets) <= length buckets)%nat.
Proof.
  unfold emitBuckets.
  rewrite <- (length_map fst buckets),
          <- (stableSort_length Z.leb (map fst buckets)).
  induction (stableSort Z.leb (map fst buckets)) as [|k keys IH];
    cbn [flat_map]; [simpl; lia|].
  rewrite length_app. destruct (assocGet Z.eqb k buckets); simpl in *; lia.
Qed.

Lemma emitWith_length w (kept : list Point) :
  (length (emitWith w kept) <= length kept)%nat.
Proof.
  unfold emitWith. destruct (Qle_bool w 0); [lia|].
  pose proof (emitBuckets_length (fold_left (bucketAdd w) kept [])).
  pose proof (fold_bucketAdd_length w kept []). simpl in *. lia.
Qed.

Lemma survivors_length fs points bs :
  (length (survivors fs points bs) <= length points)%nat.
Proof.
  unfold survivors.
  etransitivity; [apply filter_length_le|].
  unfold sortPoints. rewrite stableSort_length.
  unfold filterByBlockSize. destruct (sizeFilterOff fs); [lia|].
  apply filter_length_le.
Qed.

Lemma survivors_window fs points bs p :
  In p (survivors fs points bs) ->
  rangeMinT fs <= pointT p /\ pointT p <= rangeMaxT fs.
Proof.
  unfold survivors. intros H. apply filter_In in H as [_ H].
  now apply within_iff.
Qed.

Lemma survivors_sized fs points bs p :
  In p (survivors fs points bs) ->
  sizeFilterOff fs = false -> passesSize fs bs p = true.
Proof.
  intros Hp Hoff.
  exact (proj1 (Forall_forall _ _) (survivors_pass_size fs points bs Hoff)
           p Hp).
Qed.

(** Whatever the filter state, the bucket width and the size table, the
    points handed to the plot are no more than the points given.  Without
    bucketing (bucket width zero or negative) they are in ascending time
    order, and each of them is a point of the input that lies inside the
    selected time window and, when the size filter is active, belongs to a
    block whose size in the table reaches the threshold. *)
Theorem aggregate_output_window_sorted :
  forall (fs : FilterState) (points : list Point) (w : Q) (bs : Dict Q),
    let out := aggregatePoints fs points w bs in
    (length out <= length points)%nat /\
    (w <= 0 ->
     StronglySorted (fun a b => pointT a <= pointT b) out /\
     (forall p, In p out ->
        In p points /\
        rangeMinT fs <= pointT p /\ pointT p <= rangeMaxT fs /\
        (sizeFilterOff fs = false -> passesSize fs bs p = true))).
Proof.
  intros fs points w bs. cbv zeta. rewrite aggregatePoints_stages.
  pose proof (survivors_sorted fs points bs) as Hsorted.
  pose proof (survivors_length fs points bs) as Hlen.
  pose proof (survivors_window fs points bs) as Hwin.
  pose proof (survivors_In fs points bs) as Hsub.
  pose proof (survivors_sized fs points bs) as Hsize.
  destruct (survivors fs points bs) as [|first rest].
  { split; [simpl; lia|]. intros _. split; [constructor|intros p []]. }
  cbv zeta.
  destruct (Qltb _ _).
  { split; [simpl; lia|]. intros _. split; [constructor|intros p []]. }
  set (kept := filter _ (first :: rest)).
  split.
  - etransitivity; [apply emitWith_length|].
    etransitivity; [apply filter_length_le|]. exact Hlen.
  - intros Hw. apply Qle_bool_iff in Hw. rewrite (emitWith_off w kept Hw).
    split.
    + apply (StronglySorted_weaken (fun a b => pointLeb a b = true));
        [apply pointLeb_le|].
      now apply StronglySorted_filter.
    + intros p Hp. apply filter_In in Hp as [Hp _].
      destruct (Hwin p Hp) as [Hlo Hhi].
      split; [now apply Hsub|]. split; [exact Hlo|]. split; [exact Hhi|].
      now apply Hsize.
Qed.

(** ** Summary table: averages against the plotted points *)

Lemma lengthNum_positive {A : Type} (x : A) (xs : list A) :
  0 < lengthNum (x :: xs).
Proof.
  unfold lengthNum. change 0 with (inject_Z 0). rewrite <- Zlt_Qlt.
  simpl length. lia.
Qed.

Lemma sumNumbers_perm (xs ys : list Q) :
  Permutation xs ys -> sumNumbers xs == sumNumbers ys.
Proof.
  induction 1 as [|x l l' Hp IH|x y l|l l' l'' H1 IH1 H2 IH2].
  - reflexivity.
  - rewrite !sumNumbers_cons, IH. reflexivity.
  - rewrite !sumNumbers_cons. lra.
  - now rewrite IH1.
Qed.

Lemma sum_of_values (l : list Point) :
  forall a, fold_left (fun acc p => acc + pointV p) l a
            = fold_left Qplus (map pointV l) a.
Proof. induction l as [|p l IH]; intros a; simpl; [reflexivity|apply IH]. Qed.

Lemma survivors_perm fs (pd : PairData) (pointsKey : SeriesKind) :
  Permutation
    (survivors fs (pdPoints pointsKey pd) (pd_block_size_by_id pd))
    (rangeFilteredOf fs pd pointsKey).
Proof.
  unfold survivors, rangeFilteredOf. cbv zeta.
  apply Permutation_filter_same. apply stableSort_perm.
Qed.

(** With edge trimming off and no bucketing, the averages table and the
    plot describe the same points: the table's count is the number of
    plotted points, its average is 0 when nothing is plotted and the mean
    of the plotted values otherwise. *)
Theorem table_average_matches_plot :
  forall (fs : FilterState) (pd : PairData) (pointsKey : SeriesKind) (w : Q),
    trimEdges fs = false -> w <= 0 ->
    let plotted :=
      aggregatePoints fs (pdPoints pointsKey pd) w (pd_block_size_by_id pd)
    in
    countFromPoints fs pd pointsKey = lengthNum plotted /\
    (plotted = [] -> avgFromPoints fs pd pointsKey = 0) /\
    (plotted <> [] ->
     avgFromPoints fs pd pointsKey == meanOf (map pointV plotted)).
Proof.
  intros fs pd pointsKey w Htrim Hw. cbv zeta.
  rewrite (aggregatePoints_untrimmed _ _ _ _ Htrim).
  rewrite emitWith_off by now apply Qle_bool_iff.
  pose proof (survivors_perm fs pd pointsKey) as Hperm.
  unfold countFromPoints, avgFromPoints. cbv zeta.
  set (kept := survivors _ _ _) in *.
  set (filtered := rangeFilteredOf fs pd pointsKey) in *.
  assert (Hlen : lengthNum filtered = lengthNum kept).
  { unfold lengthNum. now rewrite (Permutation_length Hperm). }
  split; [exact Hlen|]. split.
  - intros ->. apply Permutation_nil in Hperm. now rewrite Hperm.
  - intros Hne. destruct filtered as [|p0 rest] eqn:E.
    + apply Permutation_sym, Permutation_nil in Hperm. contradiction.
    + rewrite Hlen, sum_of_values. unfold meanOf.
      change (fold_left Qplus (map pointV (p0 :: rest)) 0)
        with (sumNumbers (map pointV (p0 :: rest))).
      rewrite (sumNumbers_perm (map pointV (p0 :: rest)) (map pointV kept))
        by (apply Permutation_map; now symmetry).
      unfold lengthNum. rewrite length_map. reflexivity.
Qed.

Lemma table_average_matches_plot_witness :
  countFromPoints trimOffState spanPairData BlockSize = 7 /\
  avgFromPoints trimOffState spanPairData BlockSize
  == meanOf (map pointV
               (aggregatePoints trimOffState span1000 0 [])).
Proof.
  destruct (table_average_matches_plot trimOffState spanPairData BlockSize 0
              eq_refl (Qle_refl 0)) as (Hcount & _ & Havg).
  split.
  - rewrite Hcount. reflexivity.
  - apply Havg. intros E. vm_compute in E. discriminate E.
Defined.

Lemma nth_error_seq_map {A : Type} (f : nat -> A) (n i : nat) :
  (i < n)%nat -> nth_error (map f (seq 0 n)) i = Some (f i).
Proof.
  intros Hi. rewrite nth_error_map, nth_error_seq.
  destruct (Nat.ltb_spec i n); [reflexivity|lia].
Qed.

Lemma lengthNum_zero {A : Type} (l : list A) :
  Qeq_bool (lengthNum l) 0 = true <-> l = [].
Proof.
  split.
  - intros H. apply Qeq_bool_iff in H. destruct l as [|x l]; [reflexivity|].
    pose proof (lengthNum_positive x l). lra.
  - intros ->. reflexivity.
Qed.

(** In the Blocks row of the averages table, the cell of experiment
    [expIdx] under a category is a dash exactly when none of that
    experiment's block-size points passes the size filter and the time
    window; a cell with a count carries no best or other highlighting. *)
Theorem blocks_row_dash :
  forall (fs : FilterState) (plots : Dict PlotEntry) (expCount : nat)
         (k : string) (item : PlotEntry) (expIdx : nat),
    dictGet k plots = Some item ->
    (expIdx < expCount)%nat ->
    let groupVals := groupValsOf "num_blocks" (allAvgsOf fs plots expCount k)
    in
    (cellClass "num_blocks" groupVals expIdx = None <->
     rangeFilteredOf fs (pairDataOf item expIdx) BlockSize = []) /\
    (cellClass "num_blocks" groupVals expIdx <> None ->
     cellClass "num_blocks" groupVals expIdx = Some EmptyString).
Proof.
  intros fs plots expCount k item expIdx Hitem Hidx. cbv zeta.
  unfold allAvgsOf, groupValsOf. rewrite Hitem, map_map.
  unfold cellClass. rewrite (nth_error_seq_map _ _ _ Hidx).
  change (avgField "num_blocks"
            (computeAveragesForPair fs (pairDataOf item expIdx)))
    with (Some (countFromPoints fs (pairDataOf item expIdx) BlockSize)).
  change (String.eqb "num_blocks" "num_blocks") with true.
  change (bestIdxOf "num_blocks" ?l) with (@None nat).
  unfold countFromPoints. cbn [andb].
  destruct (Qeq_bool _ 0) eqn:E.
  - split; [|intros H; now contradiction H].
    split; [intros _; now apply lengthNum_zero|reflexivity].
  - split; [|reflexivity].
    split; [discriminate|].
    intros Hnil. apply lengthNum_zero in Hnil. congruence.
Qed.

Lemma blocks_row_dash_witness :
  cellClass "num_blocks"
    (groupValsOf "num_blocks"
       (allAvgsOf minSize1000 [("T"%string, mixedSizesEntry)] 2 "T")) 0
  = None /\
  cellClass "num_blocks"
    (groupValsOf "num_blocks"
       (allAvgsOf minSize1000 [("T"%string, mixedSizesEntry)] 2 "T")) 1
  = Some EmptyString.
Proof.
  split.
  - apply (blocks_row_dash minSize1000 [("T"%string, mixedSizesEntry)] 2
             "T" mixedSizesEntry 0 eq_refl); [lia|reflexivity].
  - apply (blocks_row_dash minSize1000 [("T"%string, mixedSizesEntry)] 2
             "T" mixedSizesEntry 1 eq_refl); [lia|].
    intros E. vm_compute in E. discriminate E.
Defined.

(** ** Global ranges and the initial view *)

Lemma rangeOf_iff (seen seen' : Point -> Prop) (f : Point -> Q)
    (lo hi : option Q) :
  (forall p, seen p <-> seen' p) ->
  rangeOf seen f lo hi -> rangeOf seen' f lo hi.
Proof.
  intros Hiff [Hlo Hhi]. split.
  - destruct lo as [m|].
    + destruct Hlo as [Hall (p & Hp & Hm)]. split.
      * intros q Hq. apply Hall. now apply Hiff.
      * exists p. split; [now apply Hiff|exact Hm].
    + intros p Hp. apply (Hlo p). now apply Hiff.
  - destruct hi as [m|].
    + destruct Hhi as [Hall (p & Hp & Hm)]. split.
      * intros q Hq. apply Hall. now apply Hiff.
      * exists p. split; [now apply Hiff|exact Hm].
    + intros p Hp. apply (Hhi p). now apply Hiff.
Qed.

Lemma rangeOf_step (seen : Point -> Prop) (f : Point -> Q)
    (lo hi : option Q) (p : Point) :
  rangeOf seen f lo hi ->
  rangeOf (fun q => seen q \/ q = p) f
    (if belowMin (f p) lo then Some (f p) else lo)
    (if aboveMax (f p) hi then Some (f p) else hi).
Proof.
  intros [Hlo Hhi]. split.
  - destruct lo as [m|]; cbn [belowMin].
    + destruct Hlo as [Hall (p0 & Hp0 & Hm)].
      destruct (Qltb (f p) m) eqn:E.
      * apply Qltb_lt in E. split.
        -- intros q [Hq| ->]; [|lra]. specialize (Hall q Hq). lra.
        -- exists p. split; [now right|reflexivity].
      * apply Qltb_ge in E. split.
        -- intros q [Hq| ->]; [now apply Hall|exact E].
        -- exists p0. split; [now left|exact Hm].
    + split.
      * intros q [Hq| ->]; [now apply Hlo in Hq|lra].
      * exists p. split; [now right|reflexivity].
  - destruct hi as [m|]; cbn [aboveMax].
    + destruct Hhi as [Hall (p0 & Hp0 & Hm)].
      destruct (Qltb m (f p)) eqn:E.
      * apply Qltb_lt in E. split.
        -- intros q [Hq| ->]; [|lra]. specialize (Hall q Hq). lra.
        -- exists p. split; [now right|reflexivity].
      * apply Qltb_ge in E. split.
        -- intros q [Hq| ->]; [now apply Hall|exact E].
        -- exists p0. split; [now left|exact Hm].
    + split.
      * intros q [Hq| ->]; [now apply Hhi in Hq|lra].
      * exists p. split; [now right|reflexivity].
Qed.

(** A loop whose every turn updates the running bounds by one point keeps
    them the bounds of the points seen, through the three nested loops. *)
Section RangeLoops.
Context {S : Type}.
Variable f : Point -> Q.
Variable lo hi : S -> option Q.

Lemma range_points_fold (step : S -> Point -> S) (pts : list Point) :
  (forall st p,
      lo (step st p) = (if belowMin (f p) (lo st) then Some (f p) else lo st)
      /\ hi (step st p)
         = (if aboveMax (f p) (hi st) then Some (f p) else hi st)) ->
  forall (seen : Point -> Prop) (st : S),
    rangeOf seen f (lo st) (hi st) ->
    rangeOf (fun q => seen q \/ In q pts) f
      (lo (fold_left step pts st)) (hi (fold_left step pts st)).
Proof.
  intros Hstep. induction pts as [|p pts IH]; intros seen st Hinv; simpl.
  - apply (rangeOf_iff seen); [intros q; tauto|exact Hinv].
  - apply (rangeOf_iff (fun q => (seen q \/ q = p) \/ In q pts)).
    + intros q. split.
      * intros [[H|H]|H]; [now left|right; left; now symmetry|right; now right].
      * intros [H|[H|H]]; [left; now left|left; right; now symmetry|now right].
    + apply IH. destruct (Hstep st p) as [-> ->]. now apply rangeOf_step.
Qed.

Lemma range_series_fold (step : S -> Series -> S) (l : list Series) :
  (forall (seen : Point -> Prop) st s,
      rangeOf seen f (lo st) (hi st) ->
      rangeOf (fun q => seen q \/ In q (s_points s)) f
        (lo (step st s)) (hi (step st s))) ->
  forall (seen : Point -> Prop) (st : S),
    rangeOf seen f (lo st) (hi st) ->
    rangeOf (fun q => seen q \/ exists s, In s l /\ In q (s_points s)) f
      (lo (fold_left step l st)) (hi (fold_left step l st)).
Proof.
  intros Hstep. induction l as [|s l IH]; intros seen st Hinv; simpl.
  - apply (rangeOf_iff seen); [|exact Hinv].
    intros q. split; [now left|]. now intros [H|(s & [] & _)].
  - apply (rangeOf_iff
             (fun q => (seen q \/ In q (s_points s)) \/
                       exists s', In s' l /\ In q (s_points s'))).
    + intros q. split.
      * intros [[H|H]|(s' & Hs' & H)]; [now left| |].
        -- right. exists s. split; [now left|exact H].
        -- right. exists s'. split; [now right|exact H].
      * intros [H|(s' & [<-|Hs'] & H)]; [left; now left|left; now right|].
        right. now exists s'.
    + apply IH. now apply Hstep.
Qed.

Lemma range_keys_fold (pick : PlotEntry -> list Series)
    (plots : Dict PlotEntry) (step : S -> string -> S) (keys : list string) :
  (forall (seen : Point -> Prop) st key,
      rangeOf seen f (lo st) (hi st) ->
      rangeOf (fun q => seen q \/
                        exists item s, dictGet key plots = Some item /\
                                       In s (pick item) /\
                                       In q (s_points s)) f
        (lo (step st key)) (hi (step st key))) ->
  forall (seen : Point -> Prop) (st : S),
    rangeOf seen f (lo st) (hi st) ->
    rangeOf (fun q => seen q \/
                      exists key item s,
                        In key keys /\ dictGet key plots = Some item /\
                        In s (pick item) /\ In q (s_points s)) f
      (lo (fold_left step keys st)) (hi (fold_left step keys st)).
Proof.
  intros Hstep. induction keys as [|k keys IH]; intros seen st Hinv; simpl.
  - apply (rangeOf_iff seen); [|exact Hinv].
    intros q. split; [now left|]. now intros [H|(? & ? & ? & [] & _)].
  - apply (rangeOf_iff
             (fun q => (seen q \/
                        exists item s, dictGet k plots = Some item /\
                                       In s (pick item) /\
                                       In q (s_points s)) \/
                       exists key item s,
                         In key keys /\ dictGet key plots = Some item /\
                         In s (pick item) /\ In q (s_points s))).
    + intros q. split.
      * intros [[H|(item & s & H1 & H2 & H3)]|(key & item & s & H0 & H)];
          [now left| |].
        -- right. exists k, item, s. repeat split; try assumption. now left.
        -- right. exists key, item, s. split; [now right|exact H].
      * intros [H|(key & item & s & [<-|H0] & H)]; [left; now left| |].
        -- left. right. now exists item, s.
        -- right. now exists key, item, s.
    + apply IH. now apply Hstep.
Qed.
End RangeLoops.

Lemma plottedIn_keys (pick : PlotEntry -> list Series)
    (plots : Dict PlotEntry) (q : Point) :
  (False \/
   exists key item s,
     In key (dictKeys plots) /\ dictGet key plots = Some item /\
     In s (pick item) /\ In q (s_points s)) <->
  plottedIn pick plots q.
Proof.
  unfold plottedIn. split.
  - intros [[]|(key & item & s & _ & H)]. now exists key, item, s.
  - intros (key & item & s & Hget & H). right. exists key, item, s.
    split; [|now split].
    apply (assocGet_Some_In String.eqb Seqb_eq) in Hget.
    apply in_map_iff. now exists (key, item).
Qed.

Lemma timePointStep_bounds (useAbsoluteTime : bool) (baseMs : option Q)
    (st : TimeScan) (p : Point) :
  globalMinT (ts_globals (timePointStep useAbsoluteTime baseMs st p))
  = (if belowMin (pointT p) (globalMinT (ts_globals st))
     then Some (pointT p) else globalMinT (ts_globals st)) /\
  globalMaxT (ts_globals (timePointStep useAbsoluteTime baseMs st p))
  = (if aboveMax (pointT p) (globalMaxT (ts_globals st))
     then Some (pointT p) else globalMaxT (ts_globals st)).
Proof.
  unfold timePointStep. cbv zeta.
  destruct useAbsoluteTime; [|now split].
  destruct baseMs as [b|]; [|now split].
  destruct (belowMin _ (earliestAbsoluteMs st)); now split.
Qed.

Lemma time_scan_range `{JsHost} (useAbsoluteTime : bool)
    (plots : Dict PlotEntry) :
  let st := fold_left (timeKeyStep useAbsoluteTime plots) (dictKeys plots)
              {| ts_globals := initialTimeGlobals;
                 earliestAbsoluteMs := None |} in
  rangeOf (plottedIn allSeriesOf plots) pointT
    (globalMinT (ts_globals st)) (globalMaxT (ts_globals st)).
Proof.
  cbv zeta.
  apply (rangeOf_iff _ _ _ _ _ (plottedIn_keys allSeriesOf plots)).
  apply (range_keys_fold pointT
           (fun st => globalMinT (ts_globals st))
           (fun st => globalMaxT (ts_globals st)) allSeriesOf plots).
  - intros seen st key Hinv. unfold timeKeyStep.
    destruct (dictGet key plots) as [item|].
    + apply (rangeOf_iff
               (fun q => seen q \/
                         exists s, In s (allSeriesOf item) /\
                                   In q (s_points s))).
      * intros q. split.
        -- intros [Hq|(s & Hs & Hq)]; [now left|].
           right. now exists item, s.
        -- intros [Hq|(item' & s & [= <-] & Hs & Hq)]; [now left|].
           right. now exists s.
      * apply (range_series_fold pointT
                 (fun st => globalMinT (ts_globals st))
                 (fun st => globalMaxT (ts_globals st))); [|exact Hinv].
        intros seen' st' s Hinv'. unfold timeSeriesStep.
        apply (range_points_fold pointT
                 (fun st => globalMinT (ts_globals st))
                 (fun st => globalMaxT (ts_globals st))); [|exact Hinv'].
        intros st0 p. apply timePointStep_bounds.
    + apply (rangeOf_iff seen); [|exact Hinv].
      intros q. split; [now left|].
      now intros [Hq|(item & s & [=] & _)].
  - split; intros p [].
Qed.

(** After [computeGlobalTimeRange] has run on the freshly loaded globals,
    the selected window is the global range, every point of every series
    lies inside it, and its two ends are the times of the earliest and the
    latest point; without any point it is the window from 0 to 1.  The
    size threshold and the trim flag are untouched.  So the initial window
    removes nothing: what survives the size filter survives the window. *)
Theorem initial_window_covers_all_points :
  forall (host : JsHost) (useAbsoluteTime : bool) (plots : Dict PlotEntry)
         (fs : FilterState),
    let g' := fst (computeGlobalTimeRange useAbsoluteTime plots
                     initialTimeGlobals fs) in
    let fs' := snd (computeGlobalTimeRange useAbsoluteTime plots
                      initialTimeGlobals fs) in
    globalMinT g' = Some (rangeMinT fs') /\
    globalMaxT g' = Some (rangeMaxT fs') /\
    minBlockSizeBytes fs' = minBlockSizeBytes fs /\
    trimEdges fs' = trimEdges fs /\
    (forall p, plottedIn allSeriesOf plots p ->
               within (rangeMinT fs') (rangeMaxT fs') p = true) /\
    ((exists p, plottedIn allSeriesOf plots p) ->
     (exists p, plottedIn allSeriesOf plots p /\ pointT p = rangeMinT fs') /\
     (exists p, plottedIn allSeriesOf plots p /\ pointT p = rangeMaxT fs')) /\
    ((forall p, ~ plottedIn allSeriesOf plots p) ->
     rangeMinT fs' = 0 /\ rangeMaxT fs' = 1) /\
    (forall key item s bs,
        dictGet key plots = Some item -> In s (allSeriesOf item) ->
        survivors fs' (s_points s) bs
        = sortPoints (filterByBlockSize fs' (s_points s) bs)).
Proof.
  intros host useAbsoluteTime plots fs.
  pose proof (time_scan_range useAbsoluteTime plots) as Hrange.
  cbv zeta in Hrange. unfold computeGlobalTimeRange. cbv zeta.
  cbn [fst snd globalMinT globalMaxT minBlockSizeBytes trimEdges
       rangeMinT rangeMaxT].
  set (st := fold_left _ _ _) in *.
  destruct Hrange as [Hlo Hhi].
  assert (Hwithin : forall p, plottedIn allSeriesOf plots p ->
            within
              match globalMinT (ts_globals st) with
              | Some x => x | None => 0 end
              match globalMaxT (ts_globals st) with
              | Some x => x | None => 1 end p = true).
  { intros p Hp. apply within_iff.
    destruct (globalMinT (ts_globals st)) as [lo|];
      [|now apply Hlo in Hp].
    destruct (globalMaxT (ts_globals st)) as [hi|];
      [|now apply Hhi in Hp].
    split; [now apply Hlo|now apply Hhi]. }
  repeat split; try reflexivity.
  - exact Hwithin.
  - destruct H as (p & Hp).
    destruct (globalMinT (ts_globals st)) as [lo|];
      [|now apply Hlo in Hp].
    destruct Hlo as [_ (q & Hq & Hm)]. now exists q.
  - destruct H as (p & Hp).
    destruct (globalMaxT (ts_globals st)) as [hi|];
      [|now apply Hhi in Hp].
    destruct Hhi as [_ (q & Hq & Hm)]. now exists q.
  - destruct (globalMinT (ts_globals st)) as [lo|]; [|reflexivity].
    destruct Hlo as [_ (q & Hq & _)]. now apply H in Hq.
  - destruct (globalMaxT (ts_globals st)) as [hi|]; [|reflexivity].
    destruct Hhi as [_ (q & Hq & _)]. now apply H in Hq.
  - intros key item s bs Hitem Hs. unfold survivors.
    cbn [rangeMinT rangeMaxT]. apply filter_all. apply Forall_forall.
    intros p Hp. apply Hwithin. exists key, item, s.
    split; [exact Hitem|]. split; [exact Hs|].
    apply stableSort_In in Hp. unfold filterByBlockSize in Hp.
    destruct (sizeFilterOff _); [exact Hp|]. now apply filter_In in Hp.
Qed.

Lemma initial_window_covers_all_points_witness :
  within
    (rangeMinT (snd (@computeGlobalTimeRange sampleHost false
                       [("T"%string, mixedSizesEntry)]
                       initialTimeGlobals minSize1000)))
    (rangeMaxT (snd (@computeGlobalTimeRange sampleHost false
                       [("T"%string, mixedSizesEntry)]
                       initialTimeGlobals minSize1000)))
    (Point3 0 2000 "b"%string) = true.
Proof.
  destruct (initial_window_covers_all_points sampleHost false
              [("T"%string, mixedSizesEntry)] minSize1000)
    as (_ & _ & _ & _ & H & _).
  apply H. exists "T"%string, mixedSizesEntry.
  exists {| s_name := "B"%string; s_base_ts := None;
            s_points := [Point3 0 2000 "b"%string] |}.
  split; [reflexivity|]. split; [right; now left|now left].
Defined.

Lemma sizePointStep_bounds (st : option Q * option Q) (p : Point) :
  fst (sizePointStep st p)
  = (if belowMin (pointV p) (fst st) then Some (pointV p) else fst st) /\
  snd (sizePointStep st p)
  = (if aboveMax (pointV p) (snd st) then Some (pointV p) else snd st).
Proof. now split. Qed.

Lemma size_scan_range (plots : Dict PlotEntry) :
  let st := fold_left (sizeKeyStep plots) (dictKeys plots) (None, None) in
  rangeOf (plottedIn block_size_series plots) pointV (fst st) (snd st).
Proof.
  cbv zeta.
  apply (rangeOf_iff _ _ _ _ _ (plottedIn_keys block_size_series plots)).
  apply (range_keys_fold pointV fst snd block_size_series plots).
  - intros seen st key Hinv. unfold sizeKeyStep.
    destruct (dictGet key plots) as [item|].
    + apply (rangeOf_iff
               (fun q => seen q \/
                         exists s, In s (block_size_series item) /\
                                   In q (s_points s))).
      * intros q. split.
        -- intros [Hq|(s & Hs & Hq)]; [now left|].
           right. now exists item, s.
        -- intros [Hq|(item' & s & [= <-] & Hs & Hq)]; [now left|].
           right. now exists s.
      * apply (range_series_fold pointV fst snd); [|exact Hinv].
        intros seen' st' s Hinv'.
        apply (range_points_fold pointV fst snd); [|exact Hinv'].
        intros st0 p. apply sizePointStep_bounds.
    + apply (rangeOf_iff seen); [|exact Hinv].
      intros q. split; [now left|].
      now intros [Hq|(item & s & [=] & _)].
  - split; intros p [].
Qed.

(** [computeGlobalBlockSizeRange] returns bounds on every block-size
    value, and the upper one decides what a positive size threshold can
    leave on screen: some category of the data stays visible exactly when
    the threshold does not exceed the global maximum block size.  The
    keys looked at are any list that holds every key of the data, as the
    sorted union keys do. *)
Theorem size_threshold_against_global_max :
  forall (fs : FilterState) (keys : list string) (plots : Dict PlotEntry),
    0 < minBlockSizeBytes fs ->
    (forall k, In k (dictKeys plots) -> In k keys) ->
    let smallest := fst (computeGlobalBlockSizeRange plots) in
    let largest := snd (computeGlobalBlockSizeRange plots) in
    (forall p, plottedIn block_size_series plots p ->
               smallest <= pointV p /\ pointV p <= largest) /\
    (getVisibleUnionKeys fs keys plots <> [] <->
     minBlockSizeBytes fs <= largest).
Proof.
  intros fs keys plots Hpos Hkeys. cbv zeta.
  pose proof (size_scan_range plots) as Hrange. cbv zeta in Hrange.
  unfold computeGlobalBlockSizeRange. cbv zeta. cbn [fst snd].
  set (st := fold_left _ _ _) in *. destruct Hrange as [Hlo Hhi].
  assert (Hoff : sizeFilterOff fs = false).
  { unfold sizeFilterOff. destruct (Qle_bool _ 0) eqn:E; [|reflexivity].
    apply Qle_bool_iff in E. lra. }
  assert (Hbounds : forall p, plottedIn block_size_series plots p ->
            match fst st with Some x => x | None => 0 end <= pointV p /\
            pointV p <= match snd st with Some x => x | None => 0 end).
  { intros p Hp.
    destruct (fst st) as [lo|]; [|now apply Hlo in Hp].
    destruct (snd st) as [hi|]; [|now apply Hhi in Hp].
    split; [now apply Hlo|now apply Hhi]. }
  split; [exact Hbounds|]. split.
  - intros Hne.
    destruct (getVisibleUnionKeys fs keys plots) as [|k ks] eqn:E;
      [contradiction|].
    assert (Hk : In k (getVisibleUnionKeys fs keys plots))
      by (rewrite E; now left).
    apply filter_In in Hk as [_ Hk].
    destruct (dictGet k plots) as [item|] eqn:Hitem; [|discriminate].
    unfold hasBlocksAfterSizeFilter in Hk. rewrite Hoff in Hk.
    apply existsb_exists in Hk as (s & Hs & Hk).
    apply existsb_exists in Hk as (p & Hp & Hk).
    apply Qle_bool_iff in Hk.
    destruct (Hbounds p) as [_ Hle]; [now exists k, item, s|]. lra.
  - intros Hle.
    destruct (snd st) as [hi|]; [|lra].
    destruct Hhi as [_ (p & (key & item & s & Hitem & Hs & Hp) & Hm)].
    intros Hnil.
    assert (Hin : In key (getVisibleUnionKeys fs keys plots)).
    { apply filter_In. split.
      - pose proof Hitem as Hkey. apply Hkeys.
        apply (assocGet_Some_In String.eqb Seqb_eq) in Hkey.
        apply in_map_iff. now exists (key, item).
      - rewrite Hitem. unfold hasBlocksAfterSizeFilter. rewrite Hoff.
        apply existsb_exists. exists s. split; [exact Hs|].
        apply existsb_exists. exists p. split; [exact Hp|].
        apply Qle_bool_iff. rewrite Hm. exact Hle. }
    rewrite Hnil in Hin. destruct Hin.
Qed.

Lemma size_threshold_against_global_max_witness :
  getVisibleUnionKeys minSize1000 ["T"%string]
    [("T"%string, mixedSizesEntry)] <> [] /\
  snd (computeGlobalBlockSizeRange [("T"%string, mixedSizesEntry)]) = 2000.
Proof.
  destruct (size_threshold_against_global_max minSize1000 ["T"%string]
              [("T"%string, mixedSizesEntry)]) as [_ H];
    [reflexivity|intros k Hk; exact Hk|].
  split; [|reflexivity]. apply H. vm_compute. discriminate.
Defined.

(** ** Drill-down list: the blocks shown *)

Lemma firstn_subset {A : Type} (l : list A) :
  forall n x, In x (firstn n l) -> In x l.
Proof.
  induction l as [|y l IH]; intros [|n] x Hx; simpl in *;
    try contradiction.
  destruct Hx as [Hx|Hx]; [now left|right; now apply (IH n)].
Qed.

Lemma skipn_subset {A : Type} (l : list A) :
  forall n x, In x (skipn n l) -> In x l.
Proof.
  induction l as [|y l IH]; intros [|n] x Hx; simpl in *;
    try contradiction; try assumption.
  right. now apply (IH n).
Qed.

(** Sorting with a comparator that refines a transitive relation [R]
    orders the result by [R], whatever the comparator does among
    elements that [R] does not tell apart. *)
Section SortBy.
Context {A : Type}.
Variable leb : A -> A -> bool.
Variable R : A -> A -> Prop.
Hypothesis R_trans : forall a b c, R a b -> R b c -> R a c.
Hypothesis leb_R : forall a b, leb a b = true -> R a b.
Hypothesis leb_R_rev : forall a b, leb a b = false -> R b a.

Lemma insertSorted_by x l :
  StronglySorted R l -> StronglySorted R (insertSorted leb x l).
Proof.
  induction 1 as [|y l Hs IH Hall]; simpl.
  - repeat constructor.
  - destruct (leb x y) eqn:E.
    + constructor; [now constructor|].
      constructor; [now apply leb_R|].
      eapply Forall_impl; [|exact Hall].
      intros z Hz. apply (R_trans x y z); [now apply leb_R|exact Hz].
    + constructor; [exact IH|].
      apply Forall_forall. intros z Hz.
      apply (Permutation_in _ (insertSorted_perm leb x l)) in Hz.
      destruct Hz as [<-|Hz]; [now apply leb_R_rev|].
      now apply (proj1 (Forall_forall _ _) Hall).
Qed.

Lemma stableSort_by l : StronglySorted R (stableSort leb l).
Proof.
  induction l as [|x l IH]; simpl; [constructor|].
  now apply insertSorted_by.
Qed.

Lemma firstn_before_skipn (l : list A) :
  StronglySorted R l ->
  forall n b c, In b (firstn n l) -> In c (skipn n l) -> R b c.
Proof.
  induction 1 as [|x l Hs IH Hall]; intros n b c Hb Hc.
  - destruct n; destruct Hb.
  - destruct n as [|n]; [destruct Hb|]. simpl in Hb, Hc.
    destruct Hb as [<-|Hb]; [|now apply (IH n)].
    apply (proj1 (Forall_forall _ _) Hall).
    now apply (skipn_subset l n).
Qed.

Lemma firstn_sorted (l : list A) (n : nat) :
  StronglySorted R l -> StronglySorted R (firstn n l).
Proof.
  intros Hs. revert n.
  induction Hs as [|x l Hs IH Hall]; intros [|n]; simpl; try constructor.
  - apply IH.
  - apply Forall_forall. intros z Hz.
    apply (proj1 (Forall_forall _ _) Hall).
    now apply (firstn_subset l n).
Qed.
End SortBy.

Lemma blockOrderLeb_longer `{JsHost} (key : string) (a b : UiBlock) :
  blockOrderLeb key a b = true -> sortDuration key b <= sortDuration key a.
Proof.
  unfold blockOrderLeb. cbv zeta.
  destruct (Qeq_bool _ 0) eqn:E; cbn [negb].
  - intros _. apply Qeq_bool_iff in E. lra.
  - intros Hlt. apply Qltb_lt in Hlt. lra.
Qed.

Lemma blockOrderLeb_shorter `{JsHost} (key : string) (a b : UiBlock) :
  blockOrderLeb key a b = false -> sortDuration key a <= sortDuration key b.
Proof.
  unfold blockOrderLeb. cbv zeta.
  destruct (Qeq_bool _ 0) eqn:E; cbn [negb].
  - intros _. apply Qeq_bool_iff in E. lra.
  - intros Hge. apply Qltb_ge in Hge. lra.
Qed.

Lemma passesBlockFilters_spec (fs : FilterState) (key : string)
    (b : UiBlock) :
  passesBlockFilters fs key b = true ->
  rangeMinT fs <= bi_end_sec (ub_block b) /\
  bi_start_sec (ub_block b) <= rangeMaxT fs /\
  (0 < minBlockSizeBytes fs ->
   exists size, bi_size_bytes (ub_block b) = Some size /\
                minBlockSizeBytes fs <= size) /\
  (key <> "all"%string ->
   exists d, dictGet key (signature_durations b) = Some d).
Proof.
  unfold passesBlockFilters. cbv zeta. intros H.
  destruct (negb (sizeFilterOff fs) && _) eqn:Esize; [discriminate|].
  destruct (Qltb (bi_end_sec (ub_block b)) (rangeMinT fs)) eqn:Elo;
    [discriminate|].
  destruct (Qltb (rangeMaxT fs) (bi_start_sec (ub_block b))) eqn:Ehi;
    [discriminate|].
  cbn [orb] in H. apply Qltb_ge in Elo, Ehi.
  split; [exact Elo|]. split; [exact Ehi|]. split.
  - intros Hpos.
    assert (Hoff : sizeFilterOff fs = false).
    { unfold sizeFilterOff. destruct (Qle_bool _ 0) eqn:E; [|reflexivity].
      apply Qle_bool_iff in E. lra. }
    rewrite Hoff in Esize. cbn [negb andb] in Esize.
    destruct (bi_size_bytes (ub_block b)) as [size|]; [|discriminate].
    exists size. split; [reflexivity|].
    apply orb_false_iff in Esize as [_ Esize]. now apply Qltb_ge.
  - intros Hkey. apply String.eqb_neq in Hkey. rewrite Hkey in H.
    cbn [negb] in H.
    destruct (dictGet key (signature_durations b)) as [d|]; [|discriminate].
    now exists d.
Qed.

(** On every tab but the custom one, the drill-down list shows at most 25
    of the blocks that match the filters, longest first: the shown blocks
    are in descending order of the duration the tab sorts by, and no
    matching block left out lasts longer than a shown one.  A matching
    block overlaps the selected time window, has a known size that
    reaches a positive size threshold, and, on a category tab, has a
    duration for that category. *)
Theorem top_blocks_longest_first :
  forall (host : JsHost) (fs : FilterState) (key : string)
         (data visible : list UiBlock),
    key <> "custom"%string ->
    let matching := getFilteredBlocks fs key data in
    let shown := renderBlocksList fs key data visible in
    length shown = Nat.min 25 (length matching) /\
    (forall b, In b shown -> In b matching) /\
    StronglySorted
      (fun a b => sortDuration key b <= sortDuration key a) shown /\
    (forall b c, In b shown -> In c matching -> ~ In c shown ->
                 sortDuration key c <= sortDuration key b) /\
    (forall b, In b matching ->
       In b data /\
       rangeMinT fs <= bi_end_sec (ub_block b) /\
       bi_start_sec (ub_block b) <= rangeMaxT fs /\
       (0 < minBlockSizeBytes fs ->
        exists size, bi_size_bytes (ub_block b) = Some size /\
                     minBlockSizeBytes fs <= size) /\
       (key <> "all"%string ->
        exists d, dictGet key (signature_durations b) = Some d)).
Proof.
  intros host fs key data visible Hkey. cbv zeta.
  unfold renderBlocksList. apply String.eqb_neq in Hkey. rewrite Hkey.
  cbv zeta.
  set (matching := getFilteredBlocks fs key data).
  set (sorted := stableSort (blockOrderLeb key) matching).
  assert (Hsorted : StronglySorted
                      (fun a b => sortDuration key b <= sortDuration key a)
                      sorted).
  { apply stableSort_by.
    - intros a b c Hab Hbc. lra.
    - apply blockOrderLeb_longer.
    - apply blockOrderLeb_shorter. }
  split; [|split; [|split; [|split]]].
  - rewrite length_firstn. unfold sorted. now rewrite stableSort_length.
  - intros b Hb. apply (stableSort_In (blockOrderLeb key)).
    now apply (firstn_subset sorted 25).
  - now apply firstn_sorted.
  - intros b c Hb Hc Hout.
    apply (firstn_before_skipn _ sorted Hsorted 25 b c Hb).
    apply (stableSort_In (blockOrderLeb key)) in Hc. fold sorted in Hc.
    rewrite <- (firstn_skipn 25 sorted) in Hc.
    apply in_app_iff in Hc as [Hc|Hc]; [contradiction|exact Hc].
  - intros b Hb. apply filter_In in Hb as [Hin Hpass].
    split; [exact Hin|]. now apply passesBlockFilters_spec.
Qed.

Lemma top_blocks_longest_first_witness :
  map (fun b => bi_block_id (ub_block b))
    (@renderBlocksList sampleHost trimOffState "all" threeBlocks [])
  = ["y"; "z"; "x"]%string /\
  StronglySorted
    (fun a b => sortDuration "all" b <= sortDuration "all" a)
    (@renderBlocksList sampleHost trimOffState "all" threeBlocks []).
Proof.
  split; [reflexivity|].
  apply (top_blocks_longest_first sampleHost trimOffState "all" threeBlocks
           []).
  discriminate.
Defined.

(** ** Drill-down list: durations per category of a block *)

Lemma sigRecords_snoc (k : string) (seen : list BlockRecord)
    (rec : BlockRecord) :
  sigRecords k (seen ++ [rec])
  = sigRecords k seen
    ++ (if String.eqb (categoryKey (br_type rec) (br_called_from rec)) k
        then [rec] else []).
Proof. unfold sigRecords. now rewrite filter_app. Qed.

Lemma spanOf_single (rec : BlockRecord) :
  spanOf [rec] (br_start_sec rec) (br_end_sec rec).
Proof.
  split; [|split].
  - exists rec. split; [now left|reflexivity].
  - exists rec. split; [now left|reflexivity].
  - intros r [<-|[]]. split; apply Qle_refl.
Qed.

Lemma spanOf_snoc (old : list BlockRecord) (lo hi : Q) (rec : BlockRecord) :
  spanOf old lo hi ->
  spanOf (old ++ [rec])
    (if Qltb (br_start_sec rec) lo then br_start_sec rec else lo)
    (if Qltb hi (br_end_sec rec) then br_end_sec rec else hi).
Proof.
  intros ((r1 & Hr1 & Hlo) & (r2 & Hr2 & Hhi) & Hall).
  split; [|split].
  - destruct (Qltb (br_start_sec rec) lo).
    + exists rec. split; [apply in_or_app; right; now left|reflexivity].
    + exists r1. split; [apply in_or_app; now left|exact Hlo].
  - destruct (Qltb hi (br_end_sec rec)).
    + exists rec. split; [apply in_or_app; right; now left|reflexivity].
    + exists r2. split; [apply in_or_app; now left|exact Hhi].
  - intros r Hr.
    destruct (Qltb (br_start_sec rec) lo) eqn:E1;
      destruct (Qltb hi (br_end_sec rec)) eqn:E2;
      try apply Qltb_lt in E1; try apply Qltb_lt in E2;
      try apply Qltb_ge in E1; try apply Qltb_ge in E2;
      apply in_app_iff in Hr as [Hr|[<-|[]]];
      try (destruct (Hall r Hr); split; lra); split; lra.
Qed.

Lemma signatureStep_reflects (signatureStats : Dict (Q * Q))
    (seen : list BlockRecord) (rec : BlockRecord) :
  signaturesReflect signatureStats seen ->
  signaturesReflect (signatureStep signatureStats rec) (seen ++ [rec]).
Proof.
  intros [Hnd Hinv]. unfold signatureStep. cbv zeta.
  set (key0 := categoryKey (br_type rec) (br_called_from rec)).
  assert (Hother : forall v k, k <> key0 ->
            match dictGet k (dictSet key0 v signatureStats) with
            | Some sig => spanOf (sigRecords k (seen ++ [rec]))
                            (fst sig) (snd sig)
            | None => sigRecords k (seen ++ [rec]) = []
            end).
  { intros v k Hne. unfold dictGet, dictSet.
    rewrite (assocGet_set_other String.eqb Seqb_eq) by exact Hne.
    rewrite sigRecords_snoc. fold key0.
    assert (E : String.eqb key0 k = false)
      by (apply String.eqb_neq; congruence).
    rewrite E, app_nil_r. apply Hinv. }
  pose proof (Hinv key0) as H0.
  destruct (dictGet key0 signatureStats) as [sig|] eqn:Eget.
  - split; [now apply (assocSet_keys_NoDup String.eqb Seqb_eq)|].
    intros k. destruct (string_dec k key0) as [->|Hne]; [|now apply Hother].
    unfold dictGet, dictSet.
    rewrite (assocGet_set_same String.eqb Seqb_eq). cbn [fst snd].
    rewrite sigRecords_snoc. fold key0. rewrite String.eqb_refl.
    now apply spanOf_snoc.
  - split; [now apply (assocSet_keys_NoDup String.eqb Seqb_eq)|].
    intros k. destruct (string_dec k key0) as [->|Hne]; [|now apply Hother].
    unfold dictGet, dictSet.
    rewrite (assocGet_set_same String.eqb Seqb_eq). cbn [fst snd].
    rewrite sigRecords_snoc. fold key0. rewrite String.eqb_refl, H0.
    apply spanOf_single.
Qed.

Lemma fold_signatureStep_reflects (records : list BlockRecord) :
  forall (seen : list BlockRecord) (signatureStats : Dict (Q * Q)),
    signaturesReflect signatureStats seen ->
    signaturesReflect (fold_left signatureStep records signatureStats)
      (seen ++ records).
Proof.
  induction records as [|rec records IH]; intros seen stats Hinv; simpl.
  - now rewrite app_nil_r.
  - replace (seen ++ rec :: records) with ((seen ++ [rec]) ++ records)
      by now rewrite <- app_assoc.
    apply IH. now apply signatureStep_reflects.
Qed.

Lemma fold_durationStep_get (entries : Dict (Q * Q)) (k : string) :
  NoDup (dictKeys entries) ->
  forall acc,
    dictGet k (fold_left durationStep entries acc)
    = match dictGet k entries with
      | Some sig =>
        if Qle_bool 0 (snd sig - fst sig) then Some (snd sig - fst sig)
        else dictGet k acc
      | None => dictGet k acc
      end.
Proof.
  induction entries as [|[k1 sig1] rest IH]; intros Hnd acc;
    [reflexivity|].
  inversion Hnd as [|? ? Hnotin Hnd']; subst.
  cbn [fold_left]. rewrite (IH Hnd'). unfold durationStep. cbn [fst snd].
  change (dictGet k ((k1, sig1) :: rest))
    with (if String.eqb k k1 then Some sig1 else dictGet k rest).
  destruct (String.eqb_spec k k1) as [->|Hne].
  - assert (Hnone : dictGet k1 rest = None)
      by now apply (assocGet_None String.eqb Seqb_eq).
    rewrite Hnone.
    destruct (Qle_bool 0 (snd sig1 - fst sig1)); [|reflexivity].
    unfold dictGet, dictSet. apply (assocGet_set_same String.eqb Seqb_eq).
  - destruct (dictGet k rest) as [sig|].
    + destruct (Qle_bool 0 (snd sig - fst sig)); [reflexivity|].
      destruct (Qle_bool 0 (snd sig1 - fst sig1)); [|reflexivity].
      unfold dictGet, dictSet.
      now apply (assocGet_set_other String.eqb Seqb_eq).
    + destruct (Qle_bool 0 (snd sig1 - fst sig1)); [|reflexivity].
      unfold dictGet, dictSet.
      now apply (assocGet_set_other String.eqb Seqb_eq).
Qed.

Lemma signatureDurationsOf_get (records : list BlockRecord) (k : string) :
  match dictGet k (signatureDurationsOf records) with
  | Some d =>
    0 <= d /\
    exists lo hi, spanOf (sigRecords k records) lo hi /\ d = hi - lo
  | None =>
    sigRecords k records = [] \/
    exists lo hi, spanOf (sigRecords k records) lo hi /\ hi < lo
  end.
Proof.
  unfold signatureDurationsOf.
  destruct (fold_signatureStep_reflects records [] []) as [Hnd Hinv].
  { split; [constructor|]. intros k0. reflexivity. }
  cbn [app] in Hinv. specialize (Hinv k).
  rewrite (fold_durationStep_get _ k Hnd).
  destruct (dictGet k (fold_left signatureStep records [])) as [sig|].
  - destruct (Qle_bool 0 (snd sig - fst sig)) eqn:E.
    + apply Qle_bool_iff in E. split; [exact E|].
      now exists (fst sig), (snd sig).
    + right. exists (fst sig), (snd sig). split; [exact Hinv|].
      assert (Hlt : ~ 0 <= snd sig - fst sig)
        by (intros Hle; apply Qle_bool_iff in Hle; congruence).
      apply Qnot_le_lt in Hlt. lra.
  - now left.
Qed.

(** Every element of [BLOCKS_DATA] is a block of one of the experiments,
    keyed by experiment name and block id.  Its duration under a category
    signature is the time from the earliest start to the latest end among
    the block's records of that category; the entry is missing exactly
    when the block has no such record or that span is negative. *)
Theorem signature_durations_span :
  forall (experiments : list BlocksExperiment) (block : UiBlock),
    In block (buildBlocksData experiments) ->
    (exists exp blocks,
        In exp experiments /\ bx_blocks exp = Some blocks /\
        In (ub_block block) blocks /\
        ub_experiment block = bx_name exp /\
        ub_base_ts block = bx_base_ts exp /\
        ub_key block
        = (bx_name exp ++ "__" ++ bi_block_id (ub_block block))%string) /\
    forall sigKey,
      let recs := sigRecords sigKey (bi_records (ub_block block)) in
      match dictGet sigKey (signature_durations block) with
      | Some d => 0 <= d /\ exists lo hi, spanOf recs lo hi /\ d = hi - lo
      | None => recs = [] \/ exists lo hi, spanOf recs lo hi /\ hi < lo
      end.
Proof.
  intros experiments block Hin. unfold buildBlocksData in Hin.
  apply in_flat_map in Hin as (exp & Hexp & Hin). cbv zeta in Hin.
  apply in_map_iff in Hin as (b & <- & Hb).
  cbn [ub_block ub_experiment ub_base_ts ub_key signature_durations].
  split.
  - destruct (bx_blocks exp) as [blocks|] eqn:E; [|destruct Hb].
    exists exp, blocks. repeat split; assumption.
  - intros sigKey. cbv zeta. apply signatureDurationsOf_get.
Qed.

Lemma signature_durations_span_witness :
  exists block,
    In block (buildBlocksData [blocksExperimentA]) /\
    match dictGet "T__O" (signature_durations block) with
    | Some d =>
      0 <= d /\
      exists lo hi,
        spanOf (sigRecords "T__O" (bi_records (ub_block block))) lo hi /\
        d = hi - lo
    | None => False
    end.
Proof.
  exists {| ub_block := twoRecordBlock; ub_key := "A__b";
            ub_experiment := "A"; ub_base_ts := None;
            signature_durations := [("T__O"%string, 5 - 0)] |}.
  assert (Hin : In {| ub_block := twoRecordBlock; ub_key := "A__b";
                      ub_experiment := "A"; ub_base_ts := None;
                      signature_durations := [("T__O"%string, 5 - 0)] |}
                  (buildBlocksData [blocksExperimentA]))
    by (left; reflexivity).
  split; [exact Hin|].
  destruct (signature_durations_span [blocksExperimentA] _ Hin) as [_ H].
  exact (H "T__O"%string).
Defined.

(** ** Payload decoder: the per-block index *)

Lemma decodedNodesOf_fst ts0 recIdx sizeIdx payload nodeMap
    (blocks : list BlockEntry) :
  map fst (decodedNodesOf ts0 recIdx sizeIdx payload nodeMap blocks)
  = decodedOf ts0 recIdx sizeIdx payload blocks.
Proof.
  unfold decodedNodesOf, decodedOf.
  induction blocks as [|be blocks IH]; [reflexivity|].
  cbn [flat_map]. rewrite map_app, IH. f_equal.
  induction (be_records be) as [|rec recs IHr]; [reflexivity|].
  cbn [flat_map]. rewrite map_app, IHr. f_equal.
  now destruct (decodeRecord ts0 recIdx sizeIdx payload (be_size_map be) rec).
Qed.

Lemma decodeBlockMap_decoded ts0 recIdx sizeIdx payload nodeMap
    (blocks : list BlockEntry) :
  decodeBlockMap ts0 recIdx sizeIdx payload nodeMap blocks
  = fold_left (fun blockMap x =>
                 addToBlockMap (fst (fst x)) (snd (fst x)) (snd x) blockMap)
      (decodedNodesOf ts0 recIdx sizeIdx payload nodeMap blocks) [].
Proof.
  unfold decodeBlockMap, decodedNodesOf.
  generalize (@nil (BlockId * BlockMeta)).
  induction blocks as [|be blocks IH]; intros blockMap; [reflexivity|].
  cbn [fold_left flat_map]. rewrite fold_left_app, IH. f_equal.
  revert blockMap.
  induction (be_records be) as [|rec recs IHr]; intros blockMap;
    [reflexivity|].
  cbn [fold_left flat_map]. rewrite fold_left_app, IHr. f_equal.
  unfold blockMapRecordStep.
  now destruct (decodeRecord ts0 recIdx sizeIdx payload (be_size_map be) rec).
Qed.

Lemma recordsOfBlock_snoc (id : BlockId)
    (processed : list (BlockId * Decoded * option string))
    (x : BlockId * Decoded * option string) :
  recordsOfBlock id (processed ++ [x])
  = recordsOfBlock id processed
    ++ (if String.eqb (fst (fst x)) id
        then [blockRecordOf (snd (fst x)) (snd x)] else []).
Proof.
  unfold recordsOfBlock. rewrite filter_app, map_app. cbn [filter].
  f_equal. now destruct (String.eqb _ id).
Qed.

Lemma firstPositiveSize_snoc (id : BlockId)
    (processed : list (BlockId * Decoded * option string))
    (x : BlockId * Decoded * option string) :
  firstPositiveSize id (processed ++ [x])
  = match firstPositiveSize id processed with
    | Some s => Some s
    | None =>
      if String.eqb (fst (fst x)) id
      then positiveSize (original_size (d_rec (snd (fst x))))
      else None
    end.
Proof.
  unfold firstPositiveSize.
  induction processed as [|[[ida da] na] processed IH]; cbn [app filter].
  - destruct (String.eqb _ id); [|reflexivity].
    cbn [flat_map]. rewrite app_nil_r.
    now destruct (positiveSize _).
  - cbn [fst snd]. destruct (String.eqb ida id); [|exact IH].
    cbn [flat_map fst snd].
    destruct (positiveSize (original_size (d_rec da)));
      [reflexivity|exact IH].
Qed.

Lemma addToBlockMap_reflects (blockMap : list (BlockId * BlockMeta))
    (processed : list (BlockId * Decoded * option string))
    (id0 : BlockId) (d0 : Decoded) (n0 : option string) :
  blockMapReflects blockMap processed ->
  blockMapReflects (addToBlockMap id0 d0 n0 blockMap)
    (processed ++ [(id0, d0, n0)]).
Proof.
  intros [Hnd Hinv]. unfold addToBlockMap. cbv zeta.
  split; [now apply (assocSet_keys_NoDup String.eqb Seqb_eq)|].
  intros id. rewrite recordsOfBlock_snoc, firstPositiveSize_snoc.
  cbn [fst snd].
  destruct (string_dec id id0) as [->|Hne].
  - rewrite (assocGet_set_same String.eqb Seqb_eq), String.eqb_refl.
    cbn [bm_block_id bm_size_bytes bm_records].
    specialize (Hinv id0).
    destruct (assocGet String.eqb id0 blockMap) as [m|].
    + destruct Hinv as (Hid & Hrecs & Hne & Hsize).
      rewrite Hid, Hrecs, <- Hsize.
      split; [reflexivity|]. split; [reflexivity|]. split.
      * intros E. now apply app_eq_nil in E as [_ E].
      * now destruct (bm_size_bytes m).
    + cbn [bm_block_id bm_size_bytes bm_records]. rewrite Hinv.
      split; [reflexivity|]. split; [reflexivity|].
      split; [discriminate|].
      unfold firstPositiveSize, recordsOfBlock in *.
      apply map_eq_nil in Hinv. now rewrite Hinv.
  - rewrite (assocGet_set_other String.eqb Seqb_eq) by exact Hne.
    assert (E : String.eqb id0 id = false)
      by (apply String.eqb_neq; congruence).
    rewrite E, app_nil_r. specialize (Hinv id).
    destruct (assocGet String.eqb id blockMap) as [m|]; [|exact Hinv].
    destruct Hinv as (Hid & Hrecs & Hnonempty & Hsize).
    split; [exact Hid|]. split; [exact Hrecs|]. split; [exact Hnonempty|].
    rewrite Hsize. now destruct (firstPositiveSize id processed).
Qed.

Lemma decodeBlockMap_reflects ts0 recIdx sizeIdx payload nodeMap blocks :
  blockMapReflects
    (decodeBlockMap ts0 recIdx sizeIdx payload nodeMap blocks)
    (decodedNodesOf ts0 recIdx sizeIdx payload nodeMap blocks).
Proof.
  rewrite decodeBlockMap_decoded.
  assert (Hgen : forall rest processed blockMap,
             blockMapReflects blockMap processed ->
             blockMapReflects
               (fold_left (fun bm x =>
                             addToBlockMap (fst (fst x)) (snd (fst x))
                               (snd x) bm) rest blockMap)
               (processed ++ rest)).
  { induction rest as [|[[id d] n] rest IH]; intros processed blockMap Hinv;
      simpl.
    - now rewrite app_nil_r.
    - replace (processed ++ (id, d, n) :: rest)
        with ((processed ++ [(id, d, n)]) ++ rest)
        by now rewrite <- app_assoc.
      apply IH. now apply addToBlockMap_reflects. }
  apply (Hgen _ [] []). split; [constructor|]. intros id. reflexivity.
Qed.

Lemma recordsOfBlock_nonempty (id : BlockId)
    (processed : list (BlockId * Decoded * option string)) :
  recordsOfBlock id processed <> [] <->
  In id (map (fun x => fst (fst x)) processed).
Proof.
  unfold recordsOfBlock.
  induction processed as [|[[ida da] na] processed IH]; cbn [filter map].
  - split; [intros H; now contradiction H|intros []].
  - cbn [fst snd]. destruct (String.eqb_spec ida id) as [->|Hne].
    + cbn [map]. split; [intros _; now left|discriminate].
    + rewrite IH. split; [now right|].
      intros [Heq|Hin]; [contradiction|exact Hin].
Qed.

Lemma sortBlockRecords_perm (records : list BlockRecord) :
  Permutation (sortBlockRecords records) records.
Proof. apply stableSort_perm. Qed.

Lemma sortBlockRecords_sorted (records : list BlockRecord) :
  StronglySorted (fun r r' => br_start_sec r <= br_start_sec r')
    (sortBlockRecords records).
Proof.
  unfold sortBlockRecords.
  apply (stableSort_by _ (fun r r' => br_start_sec r <= br_start_sec r')).
  - intros a b c Hab Hbc. lra.
  - intros a b Hab. now apply Qle_bool_iff.
  - intros a b Hab. apply Qle_bool_total in Hab. now apply Qle_bool_iff.
Qed.

Lemma span_of_sorted (r : BlockRecord) (rs : list BlockRecord) :
  spanOf (r :: rs)
    (mathMin (br_start_sec r) (map br_start_sec rs))
    (mathMax (br_end_sec r) (map br_end_sec rs)).
Proof.
  destruct (mathMin_least (map br_start_sec rs) (br_start_sec r))
    as (Hmin & Hle & Hall).
  destruct (mathMax_greatest (map br_end_sec rs) (br_end_sec r))
    as (Hmax & Hge & Hall').
  split; [|split].
  - destruct Hmin as [Hmin|Hmin].
    + exists r. split; [now left|now symmetry].
    + apply in_map_iff in Hmin as (r' & Hr' & Hin).
      exists r'. split; [now right|exact Hr'].
  - destruct Hmax as [Hmax|Hmax].
    + exists r. split; [now left|now symmetry].
    + apply in_map_iff in Hmax as (r' & Hr' & Hin).
      exists r'. split; [now right|exact Hr'].
  - intros r' [<-|Hin]; [now split|]. split.
    + apply (proj1 (Forall_forall _ _) Hall). now apply in_map.
    + apply (proj1 (Forall_forall _ _) Hall'). now apply in_map.
Qed.

Lemma spanOf_shift (e : Q) (recs : list BlockRecord) (lo hi : Q) :
  spanOf recs lo hi -> spanOf (map (shiftRecord e) recs) (lo - e) (hi - e).
Proof.
  intros ((r1 & Hr1 & Hlo) & (r2 & Hr2 & Hhi) & Hall).
  split; [|split].
  - exists (shiftRecord e r1). split; [now apply in_map|].
    cbn [shiftRecord br_start_sec]. now rewrite Hlo.
  - exists (shiftRecord e r2). split; [now apply in_map|].
    cbn [shiftRecord br_end_sec]. now rewrite Hhi.
  - intros r Hr. apply in_map_iff in Hr as (r0 & <- & Hr0).
    cbn [shiftRecord br_start_sec br_end_sec].
    destruct (Hall r0 Hr0). split; lra.
Qed.

Lemma StronglySorted_map_shift (e : Q) (recs : list BlockRecord) :
  StronglySorted (fun r r' => br_start_sec r <= br_start_sec r') recs ->
  StronglySorted (fun r r' => br_start_sec r <= br_start_sec r')
    (map (shiftRecord e) recs).
Proof.
  induction 1 as [|r recs Hs IH Hall]; cbn [map]; constructor; [exact IH|].
  apply Forall_forall. intros r' Hr'.
  apply in_map_iff in Hr' as (r0 & <- & Hr0).
  cbn [shiftRecord br_start_sec].
  pose proof (proj1 (Forall_forall _ _) Hall r0 Hr0) as Hle.
  cbv beta in Hle. lra.
Qed.

(** What one element of the output says about its [blockMap] entry. *)
Lemma spanOf_perm (recs recs' : list BlockRecord) (lo hi : Q) :
  Permutation recs recs' -> spanOf recs lo hi -> spanOf recs' lo hi.
Proof.
  intros Hperm ((r1 & Hr1 & H1) & (r2 & Hr2 & H2) & Hall).
  split; [|split].
  - exists r1. split; [now apply (Permutation_in _ Hperm)|exact H1].
  - exists r2. split; [now apply (Permutation_in _ Hperm)|exact H2].
  - intros r Hr. apply Hall.
    now apply (Permutation_in _ (Permutation_sym Hperm)).
Qed.

Lemma blockInfoOf_spec (e : Q) (m : BlockMeta) (b : BlockInfo) :
  blockInfoOf e m = Some b ->
  bi_block_id b = bm_block_id m /\
  bi_size_bytes b = bm_size_bytes m /\
  Permutation (bi_records b) (map (shiftRecord e) (bm_records m)) /\
  StronglySorted (fun r r' => br_start_sec r <= br_start_sec r')
    (bi_records b) /\
  spanOf (bi_records b) (bi_start_sec b) (bi_end_sec b) /\
  exists lo hi,
    spanOf (bm_records m) lo hi /\
    bi_start_sec b = lo - e /\
    bi_end_sec b = hi - e /\
    bi_duration_sec b = hi - lo.
Proof.
  unfold blockInfoOf.
  pose proof (sortBlockRecords_perm (bm_records m)) as Hperm.
  pose proof (sortBlockRecords_sorted (bm_records m)) as Hsorted.
  destruct (sortBlockRecords (bm_records m)) as [|r rs]; [discriminate|].
  cbv zeta. intros [= <-].
  cbn [bi_block_id bi_size_bytes bi_records bi_start_sec bi_end_sec
       bi_duration_sec].
  split; [reflexivity|]. split; [reflexivity|]. split; [|split; [|split]].
  - exact (Permutation_map (shiftRecord e) Hperm).
  - exact (StronglySorted_map_shift e _ Hsorted).
  - exact (spanOf_shift e _ _ _ (span_of_sorted r rs)).
  - exists (mathMin (br_start_sec r) (map br_start_sec rs)),
      (mathMax (br_end_sec r) (map br_end_sec rs)).
    split; [|now repeat split].
    exact (spanOf_perm _ _ _ _ Hperm (span_of_sorted r rs)).
Qed.

Lemma blocksOutput_entries (e : Q) (blockMap : list (BlockId * BlockMeta)) :
  (forall id m, In (id, m) blockMap ->
                bm_block_id m = id /\ bm_records m <> []) ->
  map bi_block_id (blocksOutput e blockMap) = map fst blockMap /\
  forall b, In b (blocksOutput e blockMap) ->
            exists m, In (bi_block_id b, m) blockMap /\
                      blockInfoOf e m = Some b.
Proof.
  unfold blocksOutput.
  induction blockMap as [|[id m] rest IH]; intros Hall.
  - split; [reflexivity|intros b []].
  - destruct IH as [IHids IHin];
      [intros id' m' Hin; apply Hall; now right|].
    destruct (Hall id m (or_introl eq_refl)) as [Hid Hne].
    cbn [flat_map snd]. 
    destruct (blockInfoOf e m) as [b0|] eqn:Eb.
    + destruct (blockInfoOf_spec e m b0 Eb) as (Hid0 & _).
      split.
      * cbn [app map fst]. rewrite IHids. f_equal. congruence.
      * intros b [<-|Hb].
        -- exists m. split; [left; congruence|exact Eb].
        -- destruct (IHin b Hb) as (m' & Hin & Hm').
           exists m'. split; [now right|exact Hm'].
    + exfalso. unfold blockInfoOf in Eb.
      pose proof (sortBlockRecords_perm (bm_records m)) as Hperm.
      destruct (sortBlockRecords (bm_records m)); [|discriminate].
      apply Permutation_nil in Hperm. contradiction.
Qed.

(** The decoder's [blocks] output has one entry per block id with a
    decoded record, without repeats.  An entry holds the block's decoded
    records with their node ids, shifted to the time origin and sorted by
    start; its size is the first positive original size among them in
    payload order.  With [lo] the earliest record start and [hi] the
    latest record end of the block, both before shifting, the entry's
    start is [lo - origin], its end is [hi - origin] and its duration is
    [hi - lo]; start and end are also the earliest start and the latest
    end among the entry's shifted records, and the start is not
    negative. *)
Theorem block_index_spans :
  forall (host : JsHost) (payload : Payload) (nodeMap : list string)
         (bs : list BlockInfo),
    blocksFromCompressed payload nodeMap = Some bs ->
    exists blocks ts0 e,
      p_blocks payload = Some blocks /\
      parseTs0 payload = Some ts0 /\
      let decoded :=
        decodedNodesOf ts0 (recIdxOf payload) (sizeIdxOf payload) payload
          nodeMap blocks in
      isTimeOrigin e (map fst decoded) /\
      NoDup (map bi_block_id bs) /\
      (forall id, In id (map bi_block_id bs) <->
                  In id (map (fun x => fst (fst x)) decoded)) /\
      forall b, In b bs ->
        Permutation (bi_records b)
          (map (shiftRecord e) (recordsOfBlock (bi_block_id b) decoded)) /\
        StronglySorted (fun r r' => br_start_sec r <= br_start_sec r')
          (bi_records b) /\
        bi_size_bytes b = firstPositiveSize (bi_block_id b) decoded /\
        spanOf (bi_records b) (bi_start_sec b) (bi_end_sec b) /\
        0 <= bi_start_sec b /\
        exists lo hi,
          spanOf (recordsOfBlock (bi_block_id b) decoded) lo hi /\
          bi_start_sec b = lo - e /\
          bi_end_sec b = hi - e /\
          bi_duration_sec b = hi - lo.
Proof.
  intros host payload nodeMap bs Hbs.
  unfold blocksFromCompressed in Hbs. cbv zeta in Hbs.
  destruct (p_blocks payload) as [blocks|]; [|discriminate].
  destruct (parseTs0 payload) as [ts0|]; [|discriminate].
  pose proof (decodeBlocks_origin ts0 (recIdxOf payload)
                (sizeIdxOf payload) payload blocks) as Horigin.
  destruct (earliestSec _) as [e|]; [|discriminate].
  injection Hbs as <-.
  exists blocks, ts0, e. split; [reflexivity|]. split; [reflexivity|].
  cbv zeta. rewrite decodedNodesOf_fst.
  destruct (decodeBlockMap_reflects ts0 (recIdxOf payload)
              (sizeIdxOf payload) payload nodeMap blocks) as [Hnd Hinv].
  set (blockMap := decodeBlockMap _ _ _ _ _ _) in *.
  set (decoded := decodedNodesOf _ _ _ _ _ _) in *.
  assert (Hentry : forall id m, In (id, m) blockMap ->
            bm_block_id m = id /\
            bm_records m = recordsOfBlock id decoded /\
            bm_records m <> [] /\
            bm_size_bytes m = firstPositiveSize id decoded).
  { intros id m Hin.
    apply (assocGet_of_In String.eqb Seqb_eq _ _ _ Hnd) in Hin.
    specialize (Hinv id). now rewrite Hin in Hinv. }
  destruct (blocksOutput_entries e blockMap) as [Hids Hout].
  { intros id m Hin. destruct (Hentry id m Hin) as (H1 & _ & H3 & _).
    now split. }
  split; [exact Horigin|]. split; [now rewrite Hids|]. split.
  - intros id. rewrite Hids, <- recordsOfBlock_nonempty.
    specialize (Hinv id). split.
    + intros Hin.
      destruct (assocGet_In_keys String.eqb Seqb_eq id blockMap Hin)
        as [m Hm].
      rewrite Hm in Hinv. destruct Hinv as (_ & Hrecs & Hne & _).
      now rewrite <- Hrecs.
    + intros Hne.
      destruct (assocGet String.eqb id blockMap) as [m|] eqn:Hm;
        [|contradiction].
      apply (assocGet_Some_In String.eqb Seqb_eq) in Hm.
      apply in_map_iff. now exists (id, m).
  - intros b Hb. destruct (Hout b Hb) as (m & Hin & Hm).
    destruct (Hentry _ m Hin) as (_ & Hrecs & _ & Hsize).
    destruct (blockInfoOf_spec e m b Hm)
      as (_ & Hs & Hperm & Hsorted & Hspan & Hdur).
    rewrite Hrecs in Hperm, Hdur. rewrite Hsize in Hs.
    split; [exact Hperm|]. split; [exact Hsorted|]. split; [exact Hs|].
    split; [exact Hspan|]. split; [|exact Hdur].
    destruct Hspan as ((r & Hr & Hlo) & _). rewrite <- Hlo.
    apply (Permutation_in _ Hperm) in Hr.
    apply in_map_iff in Hr as (r0 & <- & Hr0).
    unfold recordsOfBlock in Hr0.
    apply in_map_iff in Hr0 as (x & <- & Hx).
    apply filter_In in Hx as [Hx _].
    destruct Horigin as [Hall _].
    destruct (Hall (fst x)) as [Hstart _];
      [rewrite <- (decodedNodesOf_fst _ _ _ _ nodeMap); now apply in_map|].
    cbn [shiftRecord blockRecordOf br_start_sec].
    apply (proj1 (Qle_minus_iff _ _)). exact Hstart.
Qed.

Lemma block_index_spans_witness :
  exists bs,
    @blocksFromCompressed sampleHost
      (payloadWith (Some [completeBlock; compressOnlyBlock])) []
    = Some bs /\
    NoDup (map bi_block_id bs) /\
    forall b, In b bs -> 0 <= bi_start_sec b.
Proof.
  destruct (@blocksFromCompressed sampleHost
              (payloadWith (Some [completeBlock; compressOnlyBlock])) [])
    as [bs|] eqn:E; [|vm_compute in E; discriminate E].
  destruct (block_index_spans sampleHost
              (payloadWith (Some [completeBlock; compressOnlyBlock])) []
              bs E) as (blocks & ts0 & e & _ & _ & _ & Hnd & _ & Hall).
  exists bs. split; [reflexivity|]. split; [exact Hnd|].
  intros b Hb. now apply Hall.
Defined.

(** ** Timeline: the window under dragging *)

Lemma numMin_spec (x y : Q) :
  numMin x y <= x /\ numMin x y <= y /\ (numMin x y = x \/ numMin x y = y).
Proof.
  unfold numMin. destruct (Qle_bool x y) eqn:E.
  - apply Qle_bool_iff in E. repeat split; auto using Qle_refl.
  - apply Qle_bool_total, Qle_bool_iff in E.
    repeat split; auto using Qle_refl.
Qed.

Lemma numMax_spec (x y : Q) :
  x <= numMax x y /\ y <= numMax x y /\ (numMax x y = x \/ numMax x y = y).
Proof.
  unfold numMax. destruct (Qle_bool x y) eqn:E.
  - apply Qle_bool_iff in E. repeat split; auto using Qle_refl.
  - apply Qle_bool_total, Qle_bool_iff in E.
    repeat split; auto using Qle_refl.
Qed.

Lemma onMove_globals (dragging : Handle) (ratio : Q) (tl : Timeline) :
  tl_globalMinT (onMove dragging ratio tl) = tl_globalMinT tl /\
  tl_globalMaxT (onMove dragging ratio tl) = tl_globalMaxT tl.
Proof. now destruct dragging. Qed.

Lemma fold_onMove_globals (moves : list (Handle * Q)) :
  forall tl : Timeline,
    tl_globalMinT (fold_left (fun st mv => onMove (fst mv) (snd mv) st)
                     moves tl) = tl_globalMinT tl /\
    tl_globalMaxT (fold_left (fun st mv => onMove (fst mv) (snd mv) st)
                     moves tl) = tl_globalMaxT tl.
Proof.
  induction moves as [|[h ratio] moves IH]; intros tl; cbn [fold_left];
    [now split|].
  destruct (IH (onMove h ratio tl)) as [H1 H2].
  destruct (onMove_globals h ratio tl) as [G1 G2].
  cbn [fst snd]. rewrite H1, H2. now split.
Qed.

(** After a drag of the left handle the window start is at most the
    window end minus one second, after a drag of the right handle the
    window end is at least the window start plus one second: whatever the
    pointer positions and the window before, once a handle has been
    dragged the window is not inverted.  Dragging never changes the global
    range, and when the handles are drawn the left one is not to the right
    of the right one. *)
Theorem dragging_keeps_handles_ordered :
  forall (moves : list (Handle * Q)) (dragging : Handle) (ratio : Q)
         (tl : Timeline) (trackWidth : Q),
    0 <= trackWidth ->
    let before :=
      fold_left (fun st mv => onMove (fst mv) (snd mv) st) moves tl in
    let tl' := onMove dragging ratio before in
    match dragging with
    | HandleLeft =>
      tl_rangeMaxT tl' = tl_rangeMaxT before /\
      tl_rangeMinT tl' <= tl_rangeMaxT tl' - 1
    | HandleRight =>
      tl_rangeMinT tl' = tl_rangeMinT before /\
      tl_rangeMinT tl' + 1 <= tl_rangeMaxT tl'
    end /\
    tl_rangeMinT tl' <= tl_rangeMaxT tl' /\
    tl_globalMinT tl' = tl_globalMinT tl /\
    tl_globalMaxT tl' = tl_globalMaxT tl /\
    forall leftPx rightPx,
      handlePositions trackWidth tl' = Some (leftPx, rightPx) ->
      leftPx <= rightPx.
Proof.
  intros moves dragging ratio tl trackWidth Hwidth. cbv zeta.
  destruct (fold_onMove_globals moves tl) as [G1 G2].
  set (before := fold_left _ moves tl) in *.
  destruct (onMove_globals dragging ratio before) as [K1 K2].
  assert (Hlast :
            match dragging with
            | HandleLeft =>
              tl_rangeMaxT (onMove dragging ratio before)
              = tl_rangeMaxT before /\
              tl_rangeMinT (onMove dragging ratio before)
              <= tl_rangeMaxT (onMove dragging ratio before) - 1
            | HandleRight =>
              tl_rangeMinT (onMove dragging ratio before)
              = tl_rangeMinT before /\
              tl_rangeMinT (onMove dragging ratio before) + 1
              <= tl_rangeMaxT (onMove dragging ratio before)
            end).
  { destruct dragging; unfold onMove; cbv zeta;
      cbn [tl_rangeMinT tl_rangeMaxT]; (split; [reflexivity|]).
    - now destruct (numMin_spec
                      (tl_globalMinT before
                       + numMax 0 (numMin 1 ratio)
                         * (tl_globalMaxT before - tl_globalMinT before))
                      (tl_rangeMaxT before - 1)) as (_ & H & _).
    - now destruct (numMax_spec
                      (tl_globalMinT before
                       + numMax 0 (numMin 1 ratio)
                         * (tl_globalMaxT before - tl_globalMinT before))
                      (tl_rangeMinT before + 1)) as (_ & H & _). }
  assert (Hord : tl_rangeMinT (onMove dragging ratio before)
                 <= tl_rangeMaxT (onMove dragging ratio before)).
  { destruct dragging; destruct Hlast as [_ Hlast]; lra. }
  split; [exact Hlast|]. split; [exact Hord|].
  split; [now rewrite K1|]. split; [now rewrite K2|].
  intros leftPx rightPx Hpos. unfold handlePositions in Hpos.
  cbv zeta in Hpos.
  set (tl' := onMove dragging ratio before) in *.
  destruct (Qle_bool (tl_globalMaxT tl' - tl_globalMinT tl') 0) eqn:E;
    [discriminate|].
  injection Hpos as <- <-.
  assert (Hrange : 0 < tl_globalMaxT tl' - tl_globalMinT tl').
  { apply Qnot_le_lt. intros Hle. apply Qle_bool_iff in Hle. congruence. }
  apply Qmult_le_compat_r; [|exact Hwidth].
  unfold Qdiv. apply Qmult_le_compat_r; [lra|].
  apply Qlt_le_weak. now apply Qinv_lt_0_compat.
Qed.

Lemma dragging_keeps_handles_ordered_witness :
  tl_rangeMinT
    (onMove HandleRight (1 # 10)
       (fold_left (fun st mv => onMove (fst mv) (snd mv) st)
          [(HandleLeft, 3 # 4)] fullTimeline))
  <= tl_rangeMaxT
       (onMove HandleRight (1 # 10)
          (fold_left (fun st mv => onMove (fst mv) (snd mv) st)
             [(HandleLeft, 3 # 4)] fullTimeline)).
Proof.
  destruct (dragging_keeps_handles_ordered [(HandleLeft, 3 # 4)]
              HandleRight (1 # 10) fullTimeline 100)
    as (_ & H & _).
  - vm_compute. discriminate.
  - exact H.
Defined.

(** ** From the decoder to the tabs: visibility against the size chart *)

Lemma buildEntry_size_tables (um : Dict UnionMeta)
    (experiments : list Experiment) (k : string) :
  block_size_by_id_series (buildEntry um experiments k)
  = map (sizeTableFor k) experiments.
Proof.
  unfold buildEntry.
  set (e0 := {| pe_label := _ |}).
  replace (map (sizeTableFor k) experiments)
    with (block_size_by_id_series e0 ++ map (sizeTableFor k) experiments)
    by reflexivity.
  generalize e0. clear e0.
  induction experiments as [|exp exps IH]; intros e0; simpl.
  - now rewrite app_nil_r.
  - rewrite IH. simpl. now rewrite <- app_assoc.
Qed.

Lemma fold_dictSet_get_absent {V : Type} (f : string -> V)
    (keys : list string) :
  forall (acc : Dict V) (k : string),
    ~ In k keys ->
    dictGet k (fold_left (fun pd k' => dictSet k' (f k') pd) keys acc)
    = dictGet k acc.
Proof.
  induction keys as [|k0 keys IH]; intros acc k Hout; [reflexivity|].
  simpl. rewrite IH by (intros Hin; apply Hout; now right).
  unfold dictGet, dictSet.
  apply (assocGet_set_other String.eqb Seqb_eq).
  intros ->. apply Hout. now left.
Qed.

Lemma plotsData_get `{JsHost} (experiments : list Experiment) (k : string) :
  dictGet k (plotsData (buildPlotsData experiments))
  = if in_dec string_dec k (unionKeys (buildPlotsData experiments))
    then Some (buildEntry (buildUnionMap experiments) experiments k)
    else None.
Proof.
  unfold buildPlotsData. cbn [plotsData unionKeys].
  destruct (in_dec string_dec k _) as [Hin|Hout].
  - now apply fold_dictSet_get.
  - now rewrite fold_dictSet_get_absent.
Qed.

Lemma size_filter_on_decoded `{JsHost} (fs : FilterState) (k : string)
    (exp : Experiment) :
  (exists payload fallbackName,
      exp_stats exp = computeStatsFromCompressed payload fallbackName) ->
  filterByBlockSize fs (s_points (seriesFor k BlockSize exp))
    (sizeTableFor k exp)
  = if sizeFilterOff fs then s_points (seriesFor k BlockSize exp)
    else filter (fun p => storesSize p && passesOwnSize fs p)
           (s_points (seriesFor k BlockSize exp)).
Proof.
  intros (payload & fallbackName & Hstats).
  unfold filterByBlockSize, sizeTableFor.
  destruct (sizeFilterOff fs); [reflexivity|].
  cbn [seriesFor s_points].
  destruct (dictGet k (type_called_from_stats (exp_stats exp)))
    as [cat|] eqn:Hcat; [|reflexivity].
  rewrite Hstats in Hcat. cbn [pointsOf].
  apply filter_ext_in. intros p Hp.
  destruct (category_size_lookup payload fallbackName k cat Hcat p Hp)
    as [_ Hid].
  unfold passesSize, passesOwnSize. rewrite Hid.
  now destruct (storesSize p).
Qed.

Lemma filter_nonempty {A : Type} (f : A -> bool) (l : list A) :
  filter f l <> [] <-> exists x, In x l /\ f x = true.
Proof.
  split.
  - destruct (filter f l) as [|x rest] eqn:E; [congruence|].
    intros _. exists x. apply filter_In. rewrite E. now left.
  - intros (x & Hx & Hf) E.
    assert (Hin : In x (filter f l)) by now apply filter_In.
    rewrite E in Hin. destruct Hin.
Qed.

Lemma nth_error_two_maps {A B C : Type} (f : A -> B) (g : A -> C)
    (l : list A) (i : nat) (b : B) (c : C) :
  nth_error (map f l) i = Some b -> nth_error (map g l) i = Some c ->
  exists a, In a l /\ b = f a /\ c = g a.
Proof.
  rewrite !nth_error_map. intros Hb Hc.
  destruct (nth_error l i) as [a|] eqn:E; [|discriminate].
  exists a. split; [now apply (nth_error_In l i)|].
  injection Hb as <-. injection Hc as <-. now split.
Qed.

(** A tab and its block-size chart, for experiments that come from the
    decoder.  Whenever the block-size chart of a category shows a point for
    some experiment, the category's tab is visible.  Conversely a visible
    tab has a block-size chart that shows a point for some experiment,
    provided no block-size point of the category belongs to a block named
    "__proto__": the tab test reads a point's own value, the chart looks
    the block up in the size table, and the table has no entry for that
    name. *)
Theorem visible_tab_has_size_chart :
  forall (host : JsHost) (experiments : list Experiment) (fs : FilterState)
         (k : string),
    (forall exp, In exp experiments ->
       exists payload fallbackName,
         exp_stats exp = computeStatsFromCompressed payload fallbackName) ->
    let r := buildPlotsData experiments in
    let visible := In k (getVisibleUnionKeys fs (unionKeys r) (plotsData r)) in
    let charted :=
      exists item i s sizes,
        dictGet k (plotsData r) = Some item /\
        nth_error (block_size_series item) i = Some s /\
        nth_error (block_size_by_id_series item) i = Some sizes /\
        filterByBlockSize fs (s_points s) sizes <> [] in
    (charted -> visible) /\
    ((forall item s p,
         dictGet k (plotsData r) = Some item ->
         In s (block_size_series item) -> In p (s_points s) ->
         storesSize p = true) ->
     visible -> charted).
Proof.
  intros host experiments fs k Hdecoded. cbv zeta.
  unfold getVisibleUnionKeys. rewrite filter_In, plotsData_get.
  set (um := buildUnionMap experiments).
  pose proof (buildEntry_series um experiments k BlockSize) as Hseries.
  pose proof (buildEntry_size_tables um experiments k) as Htables.
  cbn [seriesOf] in Hseries.
  destruct (in_dec string_dec k _) as [Hin|Hout].
  - rewrite hasBlocks_iff, Exists_exists. split.
    + intros (item & i & s & sizes & [= <-] & Hs & Hsizes & Hne).
      split; [exact Hin|].
      rewrite Hseries in Hs. rewrite Htables in Hsizes.
      destruct (nth_error_two_maps _ _ _ _ _ _ Hs Hsizes)
        as (exp & Hexp & -> & ->).
      exists (seriesFor k BlockSize exp). split.
      * rewrite Hseries. now apply in_map.
      * rewrite size_filter_on_decoded in Hne by now apply Hdecoded.
        unfold sizeSurvivors.
        destruct (sizeFilterOff fs); [exact Hne|].
        apply filter_nonempty in Hne as (p & Hp & Hf).
        apply andb_true_iff in Hf as [_ Hf].
        apply filter_nonempty. now exists p.
    + intros Hstores (_ & s & Hs & Hne).
      destruct (In_nth_error _ _ Hs) as [i Hi].
      rewrite Hseries in Hi. pose proof Hi as Hi'.
      rewrite nth_error_map in Hi'.
      destruct (nth_error experiments i) as [exp|] eqn:Hexp; [|discriminate].
      injection Hi' as <-.
      exists (buildEntry um experiments k), i,
        (seriesFor k BlockSize exp), (sizeTableFor k exp).
      split; [reflexivity|]. split; [now rewrite Hseries|]. split.
      * rewrite Htables, nth_error_map, Hexp. reflexivity.
      * rewrite size_filter_on_decoded
          by (apply Hdecoded; now apply (nth_error_In experiments i)).
        unfold sizeSurvivors in Hne.
        destruct (sizeFilterOff fs); [exact Hne|].
        apply filter_nonempty in Hne as (p & Hp & Hf).
        apply filter_nonempty. exists p. split; [exact Hp|].
        rewrite (Hstores _ _ p eq_refl Hs Hp). exact Hf.
  - split.
    + intros (item & i & s & sizes & Hitem & _). discriminate Hitem.
    + intros _ [Hin _]. contradiction.
Qed.

Lemma visible_tab_has_size_chart_witness :
  In "T__O"%string
    (getVisibleUnionKeys minSize50
       (unionKeys (@buildPlotsData sampleHost [decodedExperiment]))
       (plotsData (@buildPlotsData sampleHost [decodedExperiment]))).
Proof.
  apply (visible_tab_has_size_chart sampleHost [decodedExperiment]
           minSize50 "T__O").
  - intros exp [<-|[]].
    now exists (payloadWith (Some [completeBlock; compressOnlyBlock])), None.
  - destruct (dictGet "T__O"
                (plotsData (@buildPlotsData sampleHost [decodedExperiment])))
      as [item|] eqn:E; [|vm_compute in E; discriminate E].
    destruct (nth_error (block_size_series item) 0) as [s|] eqn:Es;
      [|injection E as <-; vm_compute in Es; discriminate Es].
    destruct (nth_error (block_size_by_id_series item) 0) as [sizes|] eqn:Et;
      [|injection E as <-; vm_compute in Et; discriminate Et].
    exists item, 0%nat, s, sizes. repeat split; try assumption.
    injection E as <-. vm_compute in Es, Et.
    injection Es as <-. injection Et as <-.
    vm_compute. discriminate.
Defined.

(** With the only block named "__proto__" and an active size filter the
    tab is visible while the block-size chart of the experiment is
    empty. *)
Example proto_block_visible_without_chart :
  let r := @buildPlotsData sampleHost [protoExperiment] in
  getVisibleUnionKeys minSize50 (unionKeys r) (plotsData r)
  = ["T__O"%string] /\
  match dictGet "T__O" (plotsData r) with
  | Some item =>
    map (fun s => length (s_points s)) (block_size_series item) = [1%nat] /\
    map (fun ss => filterByBlockSize minSize50 (s_points (fst ss)) (snd ss))
      (combine (block_size_series item) (block_size_by_id_series item))
    = [[]]
  | None => False
  end.
Proof. vm_compute. repeat split. Qed.

(** ** Index maps and labels *)

Lemma indexMapFrom_get (name : string) (names : list string) :
  forall (i : nat) (acc : Dict nat),
    match dictGet name (indexMapFrom i names acc) with
    | Some k =>
      (name <> "__proto__"%string /\ (i <= k)%nat /\
       nth_error names (k - i) = Some name /\
       forall j, (k - i < j)%nat -> nth_error names j <> Some name) \/
      ((~ In name names \/ name = "__proto__"%string) /\
       dictGet name acc = Some k)
    | None =>
      (~ In name names \/ name = "__proto__"%string) /\
      dictGet name acc = None
    end.
Proof.
  assert (Hstep : forall (f : string) (rest : list string) (i : nat)
                         (acc : Dict nat) (r : option nat),
             (~ In name rest \/ name = "__proto__"%string) ->
             dictGet name (objSet f i acc) = r ->
             (name <> "__proto__"%string /\ name = f /\ r = Some i /\
              ~ In name rest) \/
             ((~ In name (f :: rest) \/ name = "__proto__"%string) /\
              dictGet name acc = r)).
  { intros f rest i acc r Hout Hget. rewrite objSet_get in Hget.
    destruct (string_dec name "__proto__") as [Hp|Hp];
      [right; split; [now right|]|].
    - subst name. destruct (String.eqb f "__proto__") eqn:Ef; [exact Hget|].
      rewrite String.eqb_sym, Ef in Hget. exact Hget.
    - destruct Hout as [Hout|Hout]; [|contradiction].
      destruct (String.eqb name f) eqn:E.
      + apply Seqb_eq in E. subst f.
        destruct (String.eqb name "__proto__") eqn:Ef;
          [apply Seqb_eq in Ef; contradiction|].
        left. now repeat split.
      + assert (Hne : name <> f)
          by (intros ->; now rewrite String.eqb_refl in E).
        right. split.
        * left. intros [Heq|Hin]; [now apply Hne|now apply Hout].
        * now destruct (String.eqb f "__proto__"). }
  induction names as [|f rest IH]; intros i acc; cbn [indexMapFrom].
  - destruct (dictGet name acc) as [k|].
    + right. split; [left; intros []|reflexivity].
    + split; [left; intros []|reflexivity].
  - specialize (IH (S i) (objSet f i acc)).
    destruct (dictGet name (indexMapFrom (S i) rest (objSet f i acc)))
      as [k|].
    + destruct IH as [(Hp & Hle & Hnth & Hlast)|(Hout & Hget)].
      * left. split; [exact Hp|]. split; [lia|].
        replace (k - i)%nat with (S (k - S i)) by lia.
        split; [exact Hnth|].
        intros [|j] Hj; [lia|]. cbn [nth_error]. apply Hlast. lia.
      * destruct (Hstep f rest i acc (Some k) Hout Hget)
          as [(Hp & Hf & Hk & Hrest)|Hold]; [|now right].
        subst f. injection Hk as <-.
        left. split; [exact Hp|]. split; [lia|].
        rewrite Nat.sub_diag. split; [reflexivity|].
        intros [|j] Hj; [lia|]. cbn [nth_error].
        intros Hnth. apply Hrest. now apply (nth_error_In rest j).
    + destruct IH as [Hout Hget].
      destruct (Hstep f rest i acc None Hout Hget)
        as [(_ & _ & Hr & _)|Hold]; [discriminate Hr|exact Hold].
Qed.

(** [indexMap] builds an object literal, reading it back is a property
    read.  A name of the field list (the fallback list when no fields are
    given) other than "__proto__" reads back as the last position at which
    the list holds it.  The name "__proto__" is never stored, and reads as
    an inherited value, as does every other name of [Object.prototype]
    that the list does not hold.  Any other name that the list does not
    hold reads as [undefined]. *)
Theorem indexMap_round_trip :
  forall (fields fallback : list string) (name : string),
    let names := match fields with [] => fallback | _ :: _ => fields end in
    match objGet name (indexMap fields fallback) with
    | OwnValue i =>
      name <> "__proto__"%string /\
      nth_error names i = Some name /\
      forall j, (i < j)%nat -> nth_error names j <> Some name
    | InheritedValue =>
      In name objectPrototypeNames /\
      (name = "__proto__"%string \/ ~ In name names)
    | NoValue => ~ In name names /\ ~ In name objectPrototypeNames
    end.
Proof.
  intros fields fallback name. cbv zeta. unfold indexMap, objGet.
  set (names := match fields with [] => fallback | _ :: _ => fields end).
  pose proof (indexMapFrom_get name names 0 []) as H.
  destruct (dictGet name (indexMapFrom 0 names [])) as [k|].
  - destruct H as [(Hp & _ & Hnth & Hlast)|(_ & Hget)]; [|discriminate Hget].
    rewrite Nat.sub_0_r in Hnth, Hlast. now repeat split.
  - destruct H as [Hout _].
    destruct (existsb (String.eqb name) objectPrototypeNames) eqn:E.
    + split; [|tauto].
      apply existsb_exists in E as (x & Hx & Hnx).
      apply Seqb_eq in Hnx. now subst.
    + assert (Hnot : ~ In name objectPrototypeNames).
      { intros Hin.
        assert (Ht : existsb (String.eqb name) objectPrototypeNames = true).
        { apply existsb_exists. exists name. split; [exact Hin|].
          apply String.eqb_refl. }
        congruence. }
      split; [|exact Hnot].
      destruct Hout as [Hout| ->]; [exact Hout|].
      exfalso. apply Hnot. now left.
Qed.

(** The decoder's default record layout, and a field list that names the
    prototype accessor. *)
Example indexMap_samples :
  objGet "duration_us" (indexMap [] defaultRecordFields) = OwnValue 2%nat /\
  objGet "constructor" (indexMap [] defaultRecordFields) = InheritedValue /\
  objGet "speed" (indexMap [] defaultRecordFields) = NoValue /\
  indexMap ["__proto__"; "start_us"]%string [] = [("start_us"%string, 1%nat)].
Proof. repeat split. Qed.

Lemma string_length_append (a b : string) :
  String.length (a ++ b) = (String.length a + String.length b)%nat.
Proof. induction a as [|c a IH]; simpl; [reflexivity|now rewrite IH]. Qed.

Lemma string_length_substring (s : string) :
  forall n m, (n + m <= String.length s)%nat ->
              String.length (substring n m s) = m.
Proof.
  induction s as [|c s IH]; intros n m Hle; simpl in Hle.
  - assert (n = 0%nat /\ m = 0%nat) as [-> ->] by lia. reflexivity.
  - destruct n as [|n]; simpl.
    + destruct m as [|m]; [reflexivity|]. simpl. rewrite IH; [reflexivity|lia].
    + apply IH. lia.
Qed.

Lemma half_floor (n : Z) :
  Qfloor ((inject_Z n - 3) / 2) = ((n - 3) / 2)%Z.
Proof.
  rewrite (Zdiv_Qdiv (n - 3) 2). apply Qfloor_comp.
  unfold Zminus. rewrite inject_Z_plus, inject_Z_opp. reflexivity.
Qed.

Lemma half_ceiling (n : Z) :
  Qceiling ((inject_Z n - 3) / 2) = (- ((3 - n) / 2))%Z.
Proof.
  unfold Qceiling. f_equal.
  rewrite (Zdiv_Qdiv (3 - n) 2). apply Qfloor_comp.
  unfold Zminus. rewrite inject_Z_plus, inject_Z_opp.
  change (inject_Z 3) with 3. change (inject_Z 2) with 2. field.
Qed.

(** For a length limit of 9 or more, which covers the default of 14, the
    label of a block id never exceeds the limit: a missing id gives two
    dashes, an id within the limit is shown whole, and a longer one is
    cut to exactly the limit, as its first characters, three dots and its
    last characters, the head one longer than the tail when the limit is
    even. *)
Theorem trimBlockId_fits :
  forall (id : option string) (maxLen : Z),
    (9 <= maxLen)%Z ->
    (Z.of_nat (String.length (trimBlockId id maxLen)) <= maxLen)%Z /\
    forall str,
      id = Some str -> str <> EmptyString ->
      ((Z.of_nat (String.length str) <= maxLen)%Z ->
       trimBlockId id maxLen = str) /\
      ((maxLen < Z.of_nat (String.length str))%Z ->
       exists head tail : nat,
         (Z.of_nat head + Z.of_nat tail + 3 = maxLen)%Z /\
         (tail <= head <= tail + 1)%nat /\
         trimBlockId id maxLen
         = (substring 0 head str ++ "..."
            ++ substring (String.length str - tail) tail str)%string /\
         Z.of_nat (String.length (trimBlockId id maxLen)) = maxLen).
Proof.
  intros id maxLen Hmax.
  assert (Hlong : forall str,
             str <> EmptyString ->
             (maxLen < Z.of_nat (String.length str))%Z ->
             exists head tail : nat,
               (Z.of_nat head + Z.of_nat tail + 3 = maxLen)%Z /\
               (tail <= head <= tail + 1)%nat /\
               trimBlockId (Some str) maxLen
               = (substring 0 head str ++ "..."
                  ++ substring (String.length str - tail) tail str)%string /\
               Z.of_nat (String.length (trimBlockId (Some str) maxLen))
               = maxLen).
  { intros str Hne Hlen. unfold trimBlockId.
    destruct str as [|c str]; [contradiction|].
    set (s := String c str) in *.
    destruct (Z.leb_spec (Z.of_nat (String.length s)) maxLen) as [Hle|_];
      [lia|].
    cbv zeta. rewrite half_floor, half_ceiling.
    set (head := Z.max 3 (- ((3 - maxLen) / 2))).
    set (tail := Z.max 3 ((maxLen - 3) / 2)).
    assert (Hhead : (head + tail + 3 = maxLen /\ tail <= head <= tail + 1
                     /\ 3 <= tail)%Z).
    { unfold head, tail. Z.to_euclidean_division_equations. lia. }
    exists (Z.to_nat head), (Z.to_nat tail).
    split; [lia|]. split; [lia|]. split; [reflexivity|].
    unfold sliceHead, sliceTail.
    rewrite !string_length_append, !string_length_substring by lia.
    simpl String.length. lia. }
  split.
  - destruct id as [str|]; [|simpl; lia].
    destruct (string_dec str EmptyString) as [->|Hne]; [simpl; lia|].
    destruct (Z.leb_spec (Z.of_nat (String.length str)) maxLen)
      as [Hle|Hgt].
    + unfold trimBlockId. destruct str as [|c str]; [contradiction|].
      destruct (Z.leb_spec (Z.of_nat (String.length (String c str))) maxLen);
        [exact Hle|lia].
    + destruct (Hlong str Hne Hgt) as (_ & _ & _ & _ & _ & Hlen). lia.
  - intros str -> Hne. split.
    + intros Hle. unfold trimBlockId.
      destruct str as [|c str]; [contradiction|].
      destruct (Z.leb_spec (Z.of_nat (String.length (String c str))) maxLen);
        [reflexivity|lia].
    + intros Hgt. now apply Hlong.
Qed.

Lemma trimBlockId_fits_witness :
  trimBlockId (Some "0123456789abcdefghij"%string) 14
  = "012345...fghij"%string /\
  (Z.of_nat (String.length
               (trimBlockId (Some "0123456789abcdefghij"%string) 14))
   <= 14)%Z.
Proof.
  split; [reflexivity|].
  apply (trimBlockId_fits (Some "0123456789abcdefghij"%string) 14). lia.
Defined.

(** ** Duration labels *)

Lemma Qfloor_sub_int (q : Q) (z : Z) :
  Qfloor (q - inject_Z z) = (Qfloor q - z)%Z.
Proof.
  apply Qfloor_unique.
  - unfold Z.sub. rewrite inject_Z_plus, inject_Z_opp.
    pose proof (Qfloor_le q). lra.
  - unfold Z.sub. rewrite inject_Z_plus, inject_Z_opp.
    pose proof (Qlt_floor q) as H. rewrite inject_Z_plus in H.
    change (inject_Z 1) with 1 in H. lra.
Qed.

Lemma Qfloor_div_int (q : Q) (n : Z) :
  (0 < n)%Z -> Qfloor (q / inject_Z n) = (Qfloor q / n)%Z.
Proof.
  intros Hn.
  assert (Hnq : 0 < inject_Z n)
    by (change 0 with (inject_Z 0); now rewrite <- Zlt_Qlt).
  pose proof (Qfloor_le q) as Hlo.
  pose proof (Qlt_floor q) as Hhi. rewrite inject_Z_plus in Hhi.
  change (inject_Z 1) with 1 in Hhi.
  set (F := Qfloor q) in *. set (k := (F / n)%Z).
  assert (Hk : (n * k <= F /\ F + 1 <= n * k + n)%Z).
  { unfold k. Z.to_euclidean_division_equations. nia. }
  destruct Hk as [Hk1 Hk2]. clearbody k.
  rewrite Zle_Qle, inject_Z_mult in Hk1.
  rewrite Zle_Qle, !inject_Z_plus, inject_Z_mult in Hk2.
  change (inject_Z 1) with 1 in Hk2.
  apply Qfloor_unique.
  - apply Qle_shift_div_l; [exact Hnq|]. lra.
  - apply Qlt_shift_div_r; [exact Hnq|]. lra.
Qed.

Lemma jsRem_nonneg (a : Q) (n : Z) :
  0 <= a -> (0 < n)%Z ->
  jsRem a (inject_Z n) = a - inject_Z n * inject_Z (Qfloor a / n).
Proof.
  intros Ha Hn. unfold jsRem.
  assert (Hnq : 0 < inject_Z n)
    by (change 0 with (inject_Z 0); now rewrite <- Zlt_Qlt).
  assert (Hq : 0 <= a / inject_Z n)
    by (apply Qle_shift_div_l; [exact Hnq|lra]).
  apply Qle_bool_iff in Hq. rewrite Hq.
  now rewrite Qfloor_div_int.
Qed.

(** For a non-negative number of seconds, the three numbers of a duration
    label are the whole seconds split into hours, minutes below 60 and
    seconds below 60; nothing is lost or counted twice.  A label shows
    hours only from 3600 seconds on, and below one minute it is just the
    whole seconds. *)
Theorem formatDuration_parts :
  forall seconds : Q,
    0 <= seconds ->
    let h := fst (fst (durationParts seconds)) in
    let m := snd (fst (durationParts seconds)) in
    let s := snd (durationParts seconds) in
    (0 <= h /\ 0 <= m < 60 /\ 0 <= s < 60 /\
     h * 3600 + m * 60 + s = Qfloor seconds)%Z /\
    ((0 < h)%Z <-> 3600 <= seconds) /\
    (seconds < 60 ->
     formatDuration seconds = (showInt (Qfloor seconds) ++ "s")%string).
Proof.
  intros seconds Hpos. cbv zeta.
  assert (HF : (0 <= Qfloor seconds)%Z).
  { rewrite <- (Qfloor_Z 0). now apply Qfloor_resp_le. }
  assert (Hh : Qfloor (seconds / 3600) = (Qfloor seconds / 3600)%Z)
    by (apply (Qfloor_div_int seconds 3600); lia).
  assert (Hm : Qfloor (jsRem seconds 3600 / 60)
               = ((Qfloor seconds - 3600 * (Qfloor seconds / 3600)) / 60)%Z).
  { change 3600 with (inject_Z 3600). rewrite jsRem_nonneg by (lra || lia).
    rewrite <- inject_Z_mult.
    rewrite (Qfloor_div_int _ 60) by lia. now rewrite Qfloor_sub_int. }
  assert (Hs : Qfloor (jsRem seconds 60)
               = (Qfloor seconds - 60 * (Qfloor seconds / 60))%Z).
  { change 60 with (inject_Z 60). rewrite jsRem_nonneg by (lra || lia).
    rewrite <- inject_Z_mult. now rewrite Qfloor_sub_int. }
  assert (Hparts : durationParts seconds
                   = ((Qfloor seconds / 3600)%Z,
                      ((Qfloor seconds - 3600 * (Qfloor seconds / 3600))
                       / 60)%Z,
                      (Qfloor seconds - 60 * (Qfloor seconds / 60))%Z)).
  { unfold durationParts. now rewrite Hh, Hm, Hs. }
  unfold formatDuration. rewrite Hparts. cbn [fst snd].
  set (F := Qfloor seconds) in *.
  split; [|split].
  - Z.to_euclidean_division_equations. lia.
  - split.
    + intros Hlt.
      assert (HF3600 : (3600 <= F)%Z)
        by (Z.to_euclidean_division_equations; lia).
      rewrite Zle_Qle in HF3600. pose proof (Qfloor_le seconds) as Hle.
      fold F in Hle. change (inject_Z 3600) with 3600 in HF3600. lra.
    + intros Hge.
      assert (HF3600 : (3600 <= F)%Z).
      { unfold F. rewrite <- (Qfloor_Z 3600). now apply Qfloor_resp_le. }
      Z.to_euclidean_division_equations. lia.
  - intros Hlt.
    assert (HF60 : (F < 60)%Z).
    { rewrite Zlt_Qlt. pose proof (Qfloor_le seconds) as Hle. fold F in Hle.
      change (inject_Z 60) with 60. lra. }
    assert (E1 : (F / 3600 = 0)%Z)
      by (Z.to_euclidean_division_equations; lia).
    assert (E2 : ((F - 3600 * (F / 3600)) / 60 = 0)%Z)
      by (Z.to_euclidean_division_equations; lia).
    assert (E3 : (F - 60 * (F / 60) = F)%Z)
      by (Z.to_euclidean_division_equations; lia).
    rewrite E2, E3, E1. reflexivity.
Qed.

Lemma formatDuration_parts_witness :
  formatDuration 3725 = "1h 2m 5s"%string /\
  (fst (fst (durationParts 3725)) * 3600
   + snd (fst (durationParts 3725)) * 60
   + snd (durationParts 3725) = Qfloor 3725)%Z.
Proof.
  split; [reflexivity|].
  apply (formatDuration_parts 3725). lra.
Defined.

(** ** Plot traces: scaling the values *)

Lemma stableSort_map {A B : Type} (f : A -> B) (leb : A -> A -> bool)
    (leb' : B -> B -> bool) (l : list A) :
  (forall a b, leb' (f a) (f b) = leb a b) ->
  stableSort leb' (map f l) = map f (stableSort leb l).
Proof.
  intros Hleb.
  assert (Hins : forall x l0,
             insertSorted leb' (f x) (map f l0)
             = map f (insertSorted leb x l0)).
  { intros x l0. induction l0 as [|y l0 IH]; simpl; [reflexivity|].
    rewrite Hleb. destruct (leb x y); simpl; [reflexivity|now rewrite IH]. }
  induction l as [|x l IH]; simpl; [reflexivity|]. now rewrite IH, Hins.
Qed.

Lemma filter_map_same {A B : Type} (f : A -> B) (g : A -> bool)
    (g' : B -> bool) (l : list A) :
  (forall a, g' (f a) = g a) ->
  filter g' (map f l) = map f (filter g l).
Proof.
  intros Hg. induction l as [|x l IH]; simpl; [reflexivity|].
  rewrite Hg, IH. now destruct (g x).
Qed.

Lemma last_of_map {A B : Type} (f : A -> B) (l : list A) (d : A) :
  last (map f l) (f d) = f (last l d).
Proof.
  induction l as [|x l IH]; [reflexivity|].
  destruct l as [|y l]; [reflexivity|]. exact IH.
Qed.

Lemma scalePoint_keeps (s : Q) (p : Point) :
  pointT (scalePoint s p) = pointT p /\
  pointId (scalePoint s p) = pointId p /\
  pointV (scalePoint s p) = pointV p * s.
Proof. destruct p; repeat split. Qed.

Lemma survivors_scaled fs (s : Q) (points : list Point) (bs : Dict Q) :
  survivors fs (map (scalePoint s) points) bs
  = map (scalePoint s) (survivors fs points bs).
Proof.
  unfold survivors.
  assert (Hsize : filterByBlockSize fs (map (scalePoint s) points) bs
                  = map (scalePoint s) (filterByBlockSize fs points bs)).
  { unfold filterByBlockSize. destruct (sizeFilterOff fs); [reflexivity|].
    apply filter_map_same. intros p. unfold passesSize.
    destruct (scalePoint_keeps s p) as (_ & -> & _). reflexivity. }
  rewrite Hsize. unfold sortPoints.
  rewrite (stableSort_map (scalePoint s) pointLeb pointLeb).
  - apply filter_map_same. intros p. unfold within.
    destruct (scalePoint_keeps s p) as (-> & _). reflexivity.
  - intros a b. unfold pointLeb.
    destruct (scalePoint_keeps s a) as (-> & _).
    destruct (scalePoint_keeps s b) as (-> & _). reflexivity.
Qed.

Lemma aggregatePoints_scaled fs (s w : Q) (points : list Point)
    (bs : Dict Q) :
  w <= 0 ->
  aggregatePoints fs (map (scalePoint s) points) w bs
  = map (scalePoint s) (aggregatePoints fs points w bs).
Proof.
  intros Hw. apply Qle_bool_iff in Hw.
  rewrite !aggregatePoints_stages, survivors_scaled.
  destruct (survivors fs points bs) as [|first rest]; [reflexivity|].
  cbn [map]. cbv zeta.
  change (scalePoint s first :: map (scalePoint s) rest)
    with (map (scalePoint s) (first :: rest)).
  rewrite (last_of_map (scalePoint s)).
  destruct (scalePoint_keeps s first) as (-> & _).
  destruct (scalePoint_keeps s (last (first :: rest) first)) as (-> & _).
  destruct (Qltb _ _); [reflexivity|].
  rewrite !(emitWith_off w _ Hw).
  apply filter_map_same. intros p. unfold within.
  destruct (scalePoint_keeps s p) as (-> & _). reflexivity.
Qed.

(** Without bucketing (bucket width zero or negative), scaling the values
    before aggregation, as the percent and millisecond charts do, gives
    the same trace as scaling what the unscaled chart would show: the two
    traces have the same x values, and each y value is the unscaled one
    times the scale.  This holds for every filter state, with relative or
    absolute time. *)
Theorem scaled_trace_is_scaled_plot :
  forall (host : JsHost) (fs : FilterState) (w : Q) (useAbsoluteTime : bool)
         (valueScale : Q) (s : Series) (blockSizeById : Dict Q),
    w <= 0 ->
    let scaled := traceOf fs w useAbsoluteTime valueScale s blockSizeById in
    let plain := traceOf fs w useAbsoluteTime 1 s blockSizeById in
    fst scaled = fst plain /\
    Forall2 (fun y' y => y' == y * valueScale) (snd scaled) (snd plain).
Proof.
  intros host fs w useAbsoluteTime valueScale s blockSizeById Hw. cbv zeta.
  unfold traceOf. cbv zeta. cbn [fst snd].
  change (Qeq_bool 1 1) with true. cbv iota.
  assert (Hrel : Forall2 (pointScaled valueScale)
                   (aggregatePoints fs
                      (if Qeq_bool valueScale 1 then s_points s
                       else map (scalePoint valueScale) (s_points s))
                      w blockSizeById)
                   (aggregatePoints fs (s_points s) w blockSizeById)).
  { destruct (Qeq_bool valueScale 1) eqn:E.
    - apply Qeq_bool_iff in E.
      induction (aggregatePoints fs (s_points s) w blockSizeById)
        as [|p l IH]; constructor; [|exact IH].
      split; [reflexivity|]. rewrite E. ring.
    - rewrite aggregatePoints_scaled by exact Hw.
      induction (aggregatePoints fs (s_points s) w blockSizeById)
        as [|p l IH]; cbn [map]; constructor; [|exact IH].
      destruct (scalePoint_keeps valueScale p) as (Ht & _ & Hv).
      split; [exact Ht|]. now rewrite Hv. }
  set (pts' := aggregatePoints fs _ w blockSizeById) in *.
  set (pts := aggregatePoints fs (s_points s) w blockSizeById) in *.
  clearbody pts' pts.
  induction Hrel as [|p' p l' l (Ht & Hv) Hrest [IHx IHy]].
  - split; [now destruct useAbsoluteTime|constructor].
  - split.
    + destruct useAbsoluteTime; cbn [map]; rewrite Ht; f_equal; exact IHx.
    + cbn [map]. constructor; [exact Hv|exact IHy].
Qed.

Lemma scaled_trace_is_scaled_plot_witness :
  Forall2 (fun y' y => y' == y * 100)
    (snd (@traceOf sampleHost minSize1000Untrimmed 0 false 100
            {| s_name := "A"; s_base_ts := None; s_points := sizedPoints |}
            sizedTable))
    (snd (@traceOf sampleHost minSize1000Untrimmed 0 false 1
            {| s_name := "A"; s_base_ts := None; s_points := sizedPoints |}
            sizedTable)).
Proof.
  exact (proj2 (scaled_trace_is_scaled_plot sampleHost minSize1000Untrimmed
                  0 false 100
                  {| s_name := "A"; s_base_ts := None;
                     s_points := sizedPoints |}
                  sizedTable (Qle_refl 0))).
Defined.

(** ** Controls: the size slider against the data *)

Lemma block_sizes_below_max (plots : Dict PlotEntry) (p : Point) :
  plottedIn block_size_series plots p ->
  pointV p <= snd (computeGlobalBlockSizeRange plots).
Proof.
  intros Hp. pose proof (size_scan_range plots) as [_ Hhi].
  unfold computeGlobalBlockSizeRange. cbv zeta. cbn [snd].
  destruct (snd (fold_left _ _ _)) as [hi|]; [now apply Hhi|].
  now apply Hhi in Hp.
Qed.

Lemma nothing_visible_above_max (fs : FilterState) (keys : list string)
    (plots : Dict PlotEntry) :
  0 < minBlockSizeBytes fs ->
  snd (computeGlobalBlockSizeRange plots) < minBlockSizeBytes fs ->
  getVisibleUnionKeys fs keys plots = [].
Proof.
  intros Hpos Habove.
  assert (Hoff : sizeFilterOff fs = false).
  { unfold sizeFilterOff. destruct (Qle_bool _ 0) eqn:E; [|reflexivity].
    apply Qle_bool_iff in E. lra. }
  unfold getVisibleUnionKeys.
  apply (proj2 (filter_nil_existsb _ keys)).
  destruct (existsb _ keys) eqn:E; [|reflexivity]. exfalso.
  apply existsb_exists in E as (k & _ & Hk).
  destruct (dictGet k plots) as [item|] eqn:Hitem; [|discriminate].
  unfold hasBlocksAfterSizeFilter in Hk. rewrite Hoff in Hk.
  apply existsb_exists in Hk as (s & Hs & Hk).
  apply existsb_exists in Hk as (p & Hp & Hk).
  apply Qle_bool_iff in Hk.
  assert (Hle : pointV p <= snd (computeGlobalBlockSizeRange plots))
    by (apply block_sizes_below_max; now exists k, item, s).
  lra.
Qed.

Lemma mathRound_int (z : Z) : mathRound (inject_Z z) = z.
Proof.
  unfold mathRound. apply Qfloor_unique; lra.
Qed.

(** The size slider runs from 0 to the largest block size rounded up to
    whole kilobytes.  Whatever is entered, the new threshold is a whole
    number of bytes between 0 and that maximum, and the time window and
    trim flag stay as they were.  With the slider at its maximum the
    threshold is the maximum itself, so when the largest block size is
    positive and not a whole number of kilobytes the threshold exceeds
    every block and no category remains visible. *)
Theorem size_slider_range :
  forall (fs : FilterState) (keys : list string) (plots : Dict PlotEntry)
         (val : option Q),
    let largest := snd (computeGlobalBlockSizeRange plots) in
    let maxKb := inject_Z (sliderMaxKb plots) in
    let fs' := applyBlockSizeChange (Some maxKb) val fs in
    0 < largest ->
    (0 <= minBlockSizeBytes fs' /\ minBlockSizeBytes fs' <= maxKb * 1024 /\
     exists bytes : Z, minBlockSizeBytes fs' = inject_Z bytes) /\
    rangeMinT fs' = rangeMinT fs /\ rangeMaxT fs' = rangeMaxT fs /\
    trimEdges fs' = trimEdges fs /\
    (maxKb <= numberOrZero val ->
     minBlockSizeBytes fs' == maxKb * 1024 /\
     (largest < maxKb * 1024 -> getVisibleUnionKeys fs' keys plots = [])).
Proof.
  intros fs keys plots val. cbv zeta. intros Hlargest.
  set (largest := snd (computeGlobalBlockSizeRange plots)) in *.
  assert (Hceil : largest / 1024 <= inject_Z (sliderMaxKb plots))
    by apply Qle_ceiling.
  assert (Hmax : largest <= inject_Z (sliderMaxKb plots) * 1024).
  { apply Qle_trans with (largest / 1024 * 1024).
    - apply Qle_lteq. right. field.
    - apply Qmult_le_compat_r; [exact Hceil|discriminate]. }
  set (maxKb := inject_Z (sliderMaxKb plots)) in *.
  unfold applyBlockSizeChange. cbv zeta.
  cbn [minBlockSizeBytes rangeMinT rangeMaxT trimEdges numberOrZero].
  destruct (numMax_spec 0 maxKb) as (_ & _ & Hsel0).
  assert (Hm : numMax 0 maxKb = maxKb)
    by (destruct Hsel0 as [E|E]; [|exact E];
        destruct (numMax_spec 0 maxKb) as (_ & Hb & _); rewrite E in Hb;
        exfalso; lra).
  rewrite Hm.
  set (v := numMax 0 (numMin maxKb (numberOrZero val))).
  assert (Hv : 0 <= v /\ v <= maxKb).
  { unfold v.
    destruct (numMax_spec 0 (numMin maxKb (numberOrZero val)))
      as (H0 & _ & Hsel).
    destruct (numMin_spec maxKb (numberOrZero val)) as (H1 & _ & _).
    split; [exact H0|]. destruct Hsel as [-> | ->]; lra. }
  destruct Hv as [Hv0 Hv1].
  split; [|split; [reflexivity|split; [reflexivity|split; [reflexivity|]]]].
  - split; [|split; [|now eexists]].
    + change 0 with (inject_Z 0). rewrite <- Zle_Qle.
      rewrite <- (Qfloor_Z 0). unfold mathRound. apply Qfloor_resp_le.
      change (inject_Z 0) with 0. lra.
    + unfold maxKb. change 1024 with (inject_Z 1024).
      rewrite <- inject_Z_mult, <- Zle_Qle.
      rewrite <- (mathRound_int (sliderMaxKb plots * 1024)).
      unfold mathRound. apply Qfloor_resp_le.
      rewrite inject_Z_mult. fold maxKb. change (inject_Z 1024) with 1024.
      lra.
  - intros Hval.
    assert (Hvmax : v = maxKb).
    { unfold v.
      assert (E : numMin maxKb (numberOrZero val) = maxKb).
      { unfold numMin. apply Qle_bool_iff in Hval. now rewrite Hval. }
      rewrite E. exact Hm. }
    assert (Hbytes : inject_Z (mathRound (v * 1024)) == maxKb * 1024).
    { rewrite Hvmax. unfold maxKb. change 1024 with (inject_Z 1024).
      rewrite <- inject_Z_mult, mathRound_int. reflexivity. }
    split; [exact Hbytes|].
    intros Hfrac. apply nothing_visible_above_max;
      cbn [minBlockSizeBytes]; rewrite Hbytes; [|exact Hfrac].
    apply Qlt_le_trans with largest; [exact Hlargest|exact Hmax].
Qed.

Lemma size_slider_range_witness :
  getVisibleUnionKeys
    (applyBlockSizeChange
       (Some (inject_Z (sliderMaxKb [("T"%string, mixedSizesEntry)])))
       (Some 2) trimOffState)
    ["T"%string] [("T"%string, mixedSizesEntry)] = [].
Proof.
  destruct (size_slider_range trimOffState ["T"%string]
              [("T"%string, mixedSizesEntry)] (Some 2))
    as (_ & _ & _ & _ & H); [reflexivity|].
  apply H; [vm_compute; discriminate|reflexivity].
Defined.
